(** * google-apps-radius: the packet-handling pipeline of lib/index.js

    A shallow embedding of [authenticate] and of the 'message' listener that
    [createServer] registers, together with the parts of the JavaScript
    runtime they rely on: strings as sequences of UTF-16 code units,
    [String.prototype.indexOf], [split], [join] and [match], plain objects
    used as property maps, and the callbacks handed to the datagram socket and
    to the SMTP connection. *)

From Stdlib Require Import ZArith NArith List Bool Lia Ascii String.
From stdpp Require Import base option list gmap strings.
Import ListNotations.

Local Open Scope Z_scope.

(** ** JavaScript strings *)

Module JsString.

(** A string is its sequence of UTF-16 code units. *)
Definition jsstring : Type := list N.

(** Literals of the source, written as Rocq strings. *)
Definition js (s : string) : jsstring :=
  List.map N_of_ascii (list_ascii_of_string s).

Fixpoint eqb (a b : jsstring) : bool :=
  match a, b with
  | [], [] => true
  | x :: a', y :: b' => N.eqb x y && eqb a' b'
  | _, _ => false
  end.

(** [startsWith s p]: [p] occurs in [s] at position 0. *)
Fixpoint startsWith (s p : jsstring) : bool :=
  match p, s with
  | [], _ => true
  | _ :: _, [] => false
  | x :: p', y :: s' => N.eqb x y && startsWith s' p'
  end.

(** [s.indexOf(needle)] scanning from position [i]: the first position at
    which [needle] occurs, or -1. *)
Fixpoint indexOf_from (s needle : jsstring) (i : Z) : Z :=
  if startsWith s needle then i
  else match s with
       | [] => -1
       | _ :: s' => indexOf_from s' needle (i + 1)
       end.

Definition indexOf (s needle : jsstring) : Z := indexOf_from s needle 0.

(** [s.split(sep)] for a separator of one code unit, the only use the source
    makes of it ([','] and ['@']).  The empty string splits into [[""]]. *)
Fixpoint split (sep : N) (s : jsstring) : list jsstring :=
  match s with
  | [] => [[]]
  | c :: s' =>
      if N.eqb c sep then [] :: split sep s'
      else match split sep s' with
           | [] => [[c]]
           | piece :: pieces => (c :: piece) :: pieces
           end
  end.

(** [pieces.join(sep)] *)
Fixpoint join (sep : jsstring) (pieces : list jsstring) : jsstring :=
  match pieces with
  | [] => []
  | [p] => p
  | p :: rest => p ++ sep ++ join sep rest
  end.

(** [needle] occurs somewhere in [s]. *)
Definition occurs_in (needle s : jsstring) : Prop :=
  exists l r, s = l ++ needle ++ r.

End JsString.
Export JsString.

(** ** Regular expressions

    The fragment of the RegExp syntax that [emailRegExp] is written in:
    character classes, concatenation, [+] and [{n,}].  Capturing groups do not
    change which strings match and are not represented. *)

Module RegExp.

Inductive regexp : Type :=
| Void
| Eps
| Class (p : N -> bool)
| Cat (r1 r2 : regexp)
| Alt (r1 r2 : regexp)
| Star (r : regexp).

Definition Chr (c : N) : regexp := Class (N.eqb c).
Definition Plus (r : regexp) : regexp := Cat r (Star r).

(** [r{n,}] *)
Fixpoint AtLeast (n : nat) (r : regexp) : regexp :=
  match n with
  | O => Star r
  | S n' => Cat r (AtLeast n' r)
  end.

Fixpoint nullable (r : regexp) : bool :=
  match r with
  | Void => false
  | Eps => true
  | Class _ => false
  | Cat r1 r2 => nullable r1 && nullable r2
  | Alt r1 r2 => nullable r1 || nullable r2
  | Star _ => true
  end.

(** What remains to be matched once the code unit [c] has been consumed. *)
Fixpoint deriv (c : N) (r : regexp) : regexp :=
  match r with
  | Void => Void
  | Eps => Void
  | Class p => if p c then Eps else Void
  | Cat r1 r2 =>
      if nullable r1 then Alt (Cat (deriv c r1) r2) (deriv c r2)
      else Cat (deriv c r1) r2
  | Alt r1 r2 => Alt (deriv c r1) (deriv c r2)
  | Star r1 => Cat (deriv c r1) (Star r1)
  end.

(** Some prefix of [s] matches [r]: a match attempt anchored at the start of
    [s] succeeds. *)
Fixpoint match_here (r : regexp) (s : jsstring) : bool :=
  nullable r ||
  match s with
  | [] => false
  | c :: s' => match_here (deriv c r) s'
  end.

(** A non-global search tries every start position from left to right. *)
Fixpoint search (r : regexp) (s : jsstring) : bool :=
  match_here r s ||
  match s with
  | [] => false
  | _ :: s' => search r s'
  end.

(** [s.match(r)] is an array when the search succeeds and [null] otherwise;
    the source only tests the result for truthiness. *)
Definition match_ (s : jsstring) (r : regexp) : bool := search r s.

(** The language of a regular expression, as a relation. *)
Inductive lang : regexp -> jsstring -> Prop :=
| lang_eps : lang Eps []
| lang_class p c : p c = true -> lang (Class p) [c]
| lang_cat r1 r2 w1 w2 : lang r1 w1 -> lang r2 w2 -> lang (Cat r1 r2) (w1 ++ w2)
| lang_alt_l r1 r2 w : lang r1 w -> lang (Alt r1 r2) w
| lang_alt_r r1 r2 w : lang r2 w -> lang (Alt r1 r2) w
| lang_star_nil r : lang (Star r) []
| lang_star_cons r w1 w2 : lang r w1 -> lang (Star r) w2 -> lang (Star r) (w1 ++ w2).

End RegExp.
Export RegExp.

(** ** Values, objects and the collaborators' data *)

Module Js.

(** The values that reach the handler: [undefined], [null], booleans, strings,
    and objects that have no string methods (a Buffer, an Array), which are
    represented by the text their [toString] gives. *)
Inductive jsval : Type :=
| VUndefined
| VNull
| VBool (b : bool)
| VString (s : jsstring)
| VOther (shown : jsstring).

(** A plain object used as a property map; an absent property reads as
    [undefined]. *)
Abbreviation object := (gmap string jsval).

Definition get (o : object) (k : string) : jsval :=
  match o !! k with
  | Some v => v
  | None => VUndefined
  end.

Definition truthy (v : jsval) : bool :=
  match v with
  | VUndefined | VNull => false
  | VBool b => b
  | VString s => negb (JsString.eqb s [])
  | VOther _ => true
  end.

(** String conversion, as applied by [+] and by [indexOf] to its argument. *)
Definition to_string (v : jsval) : jsstring :=
  match v with
  | VUndefined => js "undefined"
  | VNull => js "null"
  | VBool true => js "true"
  | VBool false => js "false"
  | VString s => s
  | VOther shown => shown
  end.

(** [xs[i]] on an array of strings *)
Definition index (xs : list jsstring) (i : nat) : jsval :=
  match xs !! i with
  | Some s => VString s
  | None => VUndefined
  end.

Inductive exn : Type :=
| TypeError.

(** A packet as the RADIUS codec decodes it.  The handler reads [code] and
    [attributes]; everything else belongs to the codec. *)
Record packet : Type := mkPacket {
  code : jsstring;
  identifier : N;
  attributes : object
}.

(** [radius.decode] either throws (the text is what [ex.toString()] gives) or
    returns a packet. *)
Inductive decoded : Type :=
| DecodeThrows (ex : jsstring)
| Decoded (p : packet).

(** The argument of [radius.encode_response]. *)
Record response_args : Type := mkResponseArgs {
  resp_packet : packet;
  resp_code : jsstring;
  resp_secret : jsval
}.

(** The [rinfo] argument of the 'message' event. *)
Record rinfo : Type := mkRinfo {
  address : jsstring;
  port : N
}.

(** The [options] object given to [createServer] and passed on to
    [authenticate]; [None] is an absent property. *)
Record options : Type := mkOptions {
  protocol : option jsstring;
  secret : jsval;
  acceptDomains : option jsstring;
  timeout : option Z;
  debug : option bool
}.

(** The argument of [new SMTPConnection]. *)
Record smtp_options : Type := mkSmtpOptions {
  smtp_port : Z;
  smtp_host : jsstring;
  smtp_secure : bool;
  smtp_requireTLS : bool;
  smtp_connectionTimeout : Z;
  smtp_socketTimeout : Z;
  smtp_debug : bool
}.

End Js.
Export Js.

(** ** Programs

    What a function of the source does, as a tree: the effects it performs in
    order, and the callbacks it hands over.  A callback is itself a program
    and is run later, when the operation it was given to completes; the
    continuation [k] is what the function does next, synchronously. *)

Module Prog.

Inductive prog : Type :=
| Return
| Throw (ex : exn)
| ConsoleLog (line : jsstring) (k : prog)
| Emit (event : string) (payload : object) (k : prog)
    (* server.emit(event, payload) *)
| Send (buf : list N) (offset len : Z) (to_port : N) (to_address : jsstring)
       (cb : prog) (k : prog)
    (* server.send(buf, offset, len, port, address, cb) *)
| NewSMTPConnection (cfg : smtp_options) (k : prog)
| OnLog (listener : jsstring -> jsstring -> jsstring -> prog) (k : prog)
    (* conn.on('log', listener); the listener receives the clock reading of
       [new Date().toISOString()], [obj.type] and [obj.message] *)
| OnError (listener : jsstring -> prog) (k : prog)
    (* conn.on('error', listener) *)
| Connect (cb : prog) (k : prog)
    (* conn.connect(cb) *)
| Login (user pass : jsval) (cb : option jsstring -> prog) (k : prog)
    (* conn.login({user, pass}, cb); cb receives the error, if any *)
| Quit (k : prog).
    (* conn.quit() *)

(** [seq p q]: the statements of [p] followed by those of [q].  An exception
    thrown by [p] skips [q]. *)
Fixpoint seq (p q : prog) : prog :=
  match p with
  | Return => q
  | Throw ex => Throw ex
  | ConsoleLog line k => ConsoleLog line (seq k q)
  | Emit event payload k => Emit event payload (seq k q)
  | Send buf offset len to_port to_address cb k =>
      Send buf offset len to_port to_address cb (seq k q)
  | NewSMTPConnection cfg k => NewSMTPConnection cfg (seq k q)
  | OnLog listener k => OnLog listener (seq k q)
  | OnError listener k => OnError listener (seq k q)
  | Connect cb k => Connect cb (seq k q)
  | Login user pass cb k => Login user pass cb (seq k q)
  | Quit k => Quit (seq k q)
  end.

End Prog.
Export Prog.

(** ** lib/index.js *)

Module Source.

(** [now()], given the clock reading. *)
Definition now (iso : jsstring) : jsstring := iso ++ js ": ".

(** The signature of the callback of [authenticate]: [callback(err, obj)]. *)
Definition callback : Type := option jsstring -> option object -> prog.

(** The argument of [new SMTPConnection], with the defaults that
    [_.extend({timeout: 5000, debug: true}, options)] supplies. *)
Definition connection_options (opts : options) : smtp_options :=
  let ms := default 5000 (timeout opts) in
  let dbg := default true (debug opts) in
  {| smtp_port := 465;
     smtp_host := js "smtp.gmail.com";
     smtp_secure := true;
     smtp_requireTLS := true;
     smtp_connectionTimeout := ms;
     smtp_socketTimeout := ms;
     smtp_debug := dbg |}.

(** [authenticate(username, password, options, callback)] *)
Definition authenticate (username password : jsval) (opts : options)
    (cb : callback) : prog :=
  NewSMTPConnection (connection_options opts)
  (OnLog (fun iso type message =>
            ConsoleLog (now iso ++ js ": " ++ type ++ js ": " ++ message) Return)
  (OnError (fun err => cb (Some err) None)
  (Connect
     (Login username password
        (fun err =>
           seq (match err with
                | Some e => cb (Some e) None
                | None =>
                    cb None (Some {[ "username" := username;
                                     "status" := VBool true ]})
                end)
               (Quit Return))
        Return)
     Return))).

(** The empty object [{}], as options. *)
Definition no_options : options :=
  {| protocol := None; secret := VUndefined; acceptDomains := None;
     timeout := None; debug := None |}.

(** The three-argument call [authenticate(username, password, callback)]:
    [options] defaults to the empty object. *)
Definition authenticate3 (username password : jsval) (cb : callback) : prog :=
  authenticate username password no_options cb.

Definition local_part (c : N) : bool :=
  N.eqb c 45 || (N.leb 97 c && N.leb c 122) || (N.leb 65 c && N.leb c 90)
  || (N.leb 48 c && N.leb c 57) || N.eqb c 46.

Definition label_char (c : N) : bool :=
  N.eqb c 45 || (N.leb 97 c && N.leb c 122) || (N.leb 65 c && N.leb c 90)
  || (N.leb 48 c && N.leb c 57).

Definition tld_char (c : N) : bool :=
  N.eqb c 45 || (N.leb 48 c && N.leb c 57) || (N.leb 97 c && N.leb c 122)
  || (N.leb 65 c && N.leb c 90).

(** [/[-a-zA-Z0-9.]+@([-a-zA-Z0-9]+\.)+([-0-9a-zA-Z]{2,})/] *)
Definition emailRegExp : regexp :=
  Cat (Plus (Class local_part))
 (Cat (Chr 64)
 (Cat (Plus (Cat (Plus (Class label_char)) (Chr 46)))
      (AtLeast 2 (Class tld_char)))).

Definition Access_Request : jsstring := js "Access-Request".
Definition Access_Accept : jsstring := js "Access-Accept".
Definition Access_Reject : jsstring := js "Access-Reject".

(** The messages of the 'radius-error' events.  The second one is
    [Packet code error: not "Access-Request"], quotes included (code unit 34). *)
Definition email_error : jsstring :=
  js "The username was not an email address".

Definition code_error : jsstring :=
  js "Packet code error: not " ++ [34%N] ++ Access_Request ++ [34%N].

Definition domain_error (username : jsstring) (acceptDomains : list jsstring)
    : jsstring :=
  js "Username " ++ username
  ++ js " is not in an accepted domain. "
  ++ js "The complete list of allowed domains is "
  ++ join (js ", ") acceptDomains.

(** [options.acceptDomains ? options.acceptDomains.split(',') : []] *)
Definition accept_list (opts : options) : list jsstring :=
  match acceptDomains opts with
  | Some s => if truthy (VString s) then split 44 s else []
  | None => []
  end.

(** [username.split('@')[1]] *)
Definition domain_of (username : jsstring) : jsval :=
  index (split 64 username) 1.

(** The domain-match step:
    [acceptDomains.filter(function(d){ return d.indexOf(domain) >= 0; })]. *)
Definition matching_domains (acceptDomains : list jsstring) (domain : jsval)
    : list jsstring :=
  List.filter (fun d => 0 <=? indexOf d (to_string domain)) acceptDomains.

(** The request is rejected when [... .length == 0], and goes on to the
    credential check otherwise. *)
Definition domain_accepted (acceptDomains : list jsstring) (domain : jsval)
    : bool :=
  negb (Nat.eqb (List.length (matching_domains acceptDomains domain)) 0).

Section Handler.

(** The configuration and the RADIUS codec. *)
Variable opts : options.
Variable decode : list N -> jsval -> decoded.
Variable encode_response : response_args -> list N.

(** Encode a response for [pkt] and send it back to where the request came
    from; [done] is the callback given to [server.send]. *)
Definition respond (pkt : packet) (rcode : jsstring) (from : rinfo)
    (done : prog) : prog :=
  let response :=
    encode_response
      {| resp_packet := pkt; resp_code := rcode; resp_secret := secret opts |} in
  Send response 0 (Z.of_nat (List.length response)) (port from) (address from)
       done Return.

(** The object emitted on a rejection. *)
Definition failure (username : jsval) : object :=
  {[ "username" := username; "status" := VBool false ]}.

(** The "Reply function": the callback the handler gives to [authenticate]. *)
Definition reply (pkt : packet) (from : rinfo) (username : jsval) : callback :=
  fun err obj =>
    match err, obj with
    | Some _, _ =>
        respond pkt Access_Reject from
          (Emit "radius" (failure username) Return)
    | None, Some o =>
        respond pkt
          (if truthy (get o "status") then Access_Accept else Access_Reject)
          from
          (Emit "radius" o Return)
    | None, None => Throw TypeError
    end.

(** The listener of the socket's 'message' event. *)
Definition handler (msg : list N) (from : rinfo) : prog :=
  match decode msg (secret opts) with
  | DecodeThrows ex =>
      Emit "radius-error" {[ "message" := VString ex ]} Return
  | Decoded pkt =>
      if negb (JsString.eqb (code pkt) Access_Request) then
        Emit "radius-error"
          {[ "message" := VString code_error ]}
          Return
      else
        let username := get (attributes pkt) "User-Name" in
        let password := get (attributes pkt) "User-Password" in
        ConsoleLog (js "Got Access-Request for " ++ to_string username)
        match username with
        | VString u =>
            if negb (match_ u emailRegExp) then
              Emit "radius-error"
                {[ "message" := VString email_error ]}
                (respond pkt Access_Reject from
                   (Emit "radius" (failure username) Return))
            else
              let acceptDomains := accept_list opts in
              let domain := domain_of u in
              if Nat.eqb
                   (List.length (matching_domains acceptDomains domain)) 0
              then
                Emit "radius-error"
                  {[ "message" := VString (domain_error u acceptDomains) ]}
                  (respond pkt Access_Reject from
                     (Emit "radius" (failure username) Return))
              else
                authenticate username password opts (reply pkt from username)
        | _ => Throw TypeError
        end
  end.

End Handler.

(** [createServer(options)]: [options] defaults to the empty object and
    [options.protocol] to 'udp4'.  The result stands for the socket: the
    protocol it is created for and the listener of its 'message' event. *)
Definition createServer (decode : list N -> jsval -> decoded)
    (encode_response : response_args -> list N) (options : option options)
    : jsstring * (list N -> rinfo -> prog) :=
  let opts := default no_options options in
  let proto :=
    match protocol opts with
    | Some p => if truthy (VString p) then p else js "udp4"
    | None => js "udp4"
    end in
  let opts :=
    {| protocol := Some proto;
       secret := secret opts;
       acceptDomains := acceptDomains opts;
       timeout := timeout opts;
       debug := debug opts |} in
  (proto, handler opts decode encode_response).

End Source.
Export Source.

(** ** The event loop

    Running a program performs its effects in order and parks its callbacks;
    the environment then completes the parked operations one at a time, and
    each completion runs the callback that was waiting for it. *)

Module EventLoop.

(** What the environment can do to the operations of one request. *)
Inductive completion : Type :=
| SendDone                      (* a datagram handed to the socket was sent *)
| Connected                     (* the SMTP connection is established *)
| LoginDone (err : option jsstring)  (* the login was answered *)
| SmtpError (err : jsstring)    (* the connection emits 'error' *)
| SmtpLog (iso type message : jsstring). (* the connection emits 'log' *)

(** What can be observed, in order. *)
Inductive effect : Type :=
| EConsoleLog (line : jsstring)
| EEmit (event : string) (payload : object)
| ESend (buf : list N) (offset len : Z) (to_port : N) (to_address : jsstring)
| ENewSMTPConnection (cfg : smtp_options)
| EConnect
| ELogin (user pass : jsval)
| EQuit
| EUncaught (ex : exn)
| Got (c : completion).

(** Callbacks waiting for a completion. *)
Inductive parked : Type :=
| PSend (cb : prog)
| PConnect (cb : prog)
| PLogin (cb : option jsstring -> prog).

(** The listeners and parked callbacks of one request. *)
Record task : Type := mkTask {
  log_listeners : list (jsstring -> jsstring -> jsstring -> prog);
  error_listeners : list (jsstring -> prog);
  waiting : list parked
}.

Definition idle : task :=
  {| log_listeners := []; error_listeners := []; waiting := [] |}.

Definition park (p : parked) (t : task) : task :=
  {| log_listeners := log_listeners t;
     error_listeners := error_listeners t;
     waiting := waiting t ++ [p] |}.

Definition set_waiting (w : list parked) (t : task) : task :=
  {| log_listeners := log_listeners t;
     error_listeners := error_listeners t;
     waiting := w |}.

(** Run the synchronous part of a program. *)
Fixpoint exec (p : prog) (t : task) : list effect * task :=
  match p with
  | Return => ([], t)
  | Throw ex => ([EUncaught ex], t)
  | ConsoleLog line k =>
      let (es, t') := exec k t in (EConsoleLog line :: es, t')
  | Emit event payload k =>
      let (es, t') := exec k t in (EEmit event payload :: es, t')
  | Send buf offset len to_port to_address cb k =>
      let (es, t') := exec k (park (PSend cb) t) in
      (ESend buf offset len to_port to_address :: es, t')
  | NewSMTPConnection cfg k =>
      let (es, t') := exec k t in (ENewSMTPConnection cfg :: es, t')
  | OnLog listener k =>
      exec k {| log_listeners := log_listeners t ++ [listener];
                error_listeners := error_listeners t;
                waiting := waiting t |}
  | OnError listener k =>
      exec k {| log_listeners := log_listeners t;
                error_listeners := error_listeners t ++ [listener];
                waiting := waiting t |}
  | Connect cb k =>
      let (es, t') := exec k (park (PConnect cb) t) in (EConnect :: es, t')
  | Login user pass cb k =>
      let (es, t') := exec k (park (PLogin cb) t) in
      (ELogin user pass :: es, t')
  | Quit k =>
      let (es, t') := exec k t in (EQuit :: es, t')
  end.

(** The oldest parked callback of each kind, and what stays parked. *)
Fixpoint next_send (w : list parked) : option (prog * list parked) :=
  match w with
  | [] => None
  | PSend cb :: w' => Some (cb, w')
  | p :: w' =>
      match next_send w' with
      | Some (cb, rest) => Some (cb, p :: rest)
      | None => None
      end
  end.

Fixpoint next_connect (w : list parked) : option (prog * list parked) :=
  match w with
  | [] => None
  | PConnect cb :: w' => Some (cb, w')
  | p :: w' =>
      match next_connect w' with
      | Some (cb, rest) => Some (cb, p :: rest)
      | None => None
      end
  end.

Fixpoint next_login (w : list parked)
    : option ((option jsstring -> prog) * list parked) :=
  match w with
  | [] => None
  | PLogin cb :: w' => Some (cb, w')
  | p :: w' =>
      match next_login w' with
      | Some (cb, rest) => Some (cb, p :: rest)
      | None => None
      end
  end.

(** An event emitter calls its listeners in the order they were added; an
    exception thrown by one of them skips the rest. *)
Definition call_all (ps : list prog) : prog := List.fold_right seq Return ps.

(** A completion runs the callback waiting for it.  A completion nothing is
    waiting for does not happen. *)
Definition react (c : completion) (t : task) : list effect * task :=
  match c with
  | SendDone =>
      match next_send (waiting t) with
      | Some (cb, rest) =>
          let (es, t') := exec cb (set_waiting rest t) in (Got c :: es, t')
      | None => ([], t)
      end
  | Connected =>
      match next_connect (waiting t) with
      | Some (cb, rest) =>
          let (es, t') := exec cb (set_waiting rest t) in (Got c :: es, t')
      | None => ([], t)
      end
  | LoginDone err =>
      match next_login (waiting t) with
      | Some (cb, rest) =>
          let (es, t') := exec (cb err) (set_waiting rest t) in
          (Got c :: es, t')
      | None => ([], t)
      end
  | SmtpError err =>
      match error_listeners t with
      | [] => ([], t)
      | ls =>
          let (es, t') := exec (call_all (List.map (fun l => l err) ls)) t in
          (Got c :: es, t')
      end
  | SmtpLog iso type message =>
      match log_listeners t with
      | [] => ([], t)
      | ls =>
          let (es, t') :=
            exec (call_all (List.map (fun l => l iso type message) ls)) t in
          (Got c :: es, t')
      end
  end.

(** Deliver a sequence of completions to a task. *)
Fixpoint deliver (script : list completion) (t : task) : list effect :=
  match script with
  | [] => []
  | c :: script' =>
      let (es, t') := react c t in es ++ deliver script' t'
  end.

(** Everything observed when [p] is started on its own and the environment
    then behaves as [script] says. *)
Definition session (p : prog) (script : list completion) : list effect :=
  let (es, t) := exec p idle in es ++ deliver script t.

End EventLoop.
Export EventLoop.

(** ** The options object as shared state

    The listener of 'message' closes over the socket and over the [options]
    object that [createServer] was given; the module keeps nothing else
    between two calls of it.  Every call of the listener and every callback
    it hands over shares that one object.  Here a program can read the
    object and assign to it, at the points where the source does, so that
    what a request sees of it at each moment is what the code running until
    then has left there. *)

Module Shared.

Inductive jsprog : Type :=
| JReturn
| JThrow (ex : exn)
| JConsoleLog (line : jsstring) (k : jsprog)
| JEmit (event : string) (payload : object) (k : jsprog)
| JSend (buf : list N) (offset len : Z) (to_port : N) (to_address : jsstring)
        (cb : jsprog) (k : jsprog)
| JNewSMTPConnection (cfg : smtp_options) (k : jsprog)
| JOnLog (listener : jsstring -> jsstring -> jsstring -> jsprog) (k : jsprog)
| JOnError (listener : jsstring -> jsprog) (k : jsprog)
| JConnect (cb : jsprog) (k : jsprog)
| JLogin (user pass : jsval) (cb : option jsstring -> jsprog) (k : jsprog)
| JQuit (k : jsprog)
| JRead (k : options -> jsprog)
    (* evaluate an expression that mentions [options]: [k] receives the
       object as it is at that moment *)
| JWrite (f : options -> options) (k : jsprog).
    (* assign to a property of [options] *)

Fixpoint jseq (p q : jsprog) : jsprog :=
  match p with
  | JReturn => q
  | JThrow ex => JThrow ex
  | JConsoleLog line k => JConsoleLog line (jseq k q)
  | JEmit event payload k => JEmit event payload (jseq k q)
  | JSend buf offset len to_port to_address cb k =>
      JSend buf offset len to_port to_address cb (jseq k q)
  | JNewSMTPConnection cfg k => JNewSMTPConnection cfg (jseq k q)
  | JOnLog listener k => JOnLog listener (jseq k q)
  | JOnError listener k => JOnError listener (jseq k q)
  | JConnect cb k => JConnect cb (jseq k q)
  | JLogin user pass cb k => JLogin user pass cb (jseq k q)
  | JQuit k => JQuit (jseq k q)
  | JRead k => JRead (fun o => jseq (k o) q)
  | JWrite f k => JWrite f (jseq k q)
  end.

Definition jcallback : Type := option jsstring -> option object -> jsprog.

(** [authenticate], called with the shared [options] object: the object is
    read once, by [_.extend], when the call is made. *)
Definition jauthenticate (username password : jsval) (cb : jcallback)
    : jsprog :=
  JRead (fun options =>
  JNewSMTPConnection (connection_options options)
  (JOnLog (fun iso type message =>
             JConsoleLog (now iso ++ js ": " ++ type ++ js ": " ++ message)
               JReturn)
  (JOnError (fun err => cb (Some err) None)
  (JConnect
     (JLogin username password
        (fun err =>
           jseq (match err with
                 | Some e => cb (Some e) None
                 | None =>
                     cb None (Some {[ "username" := username;
                                      "status" := VBool true ]})
                 end)
                (JQuit JReturn))
        JReturn)
     JReturn)))).

Section Listener.

Variable decode : list N -> jsval -> decoded.
Variable encode_response : response_args -> list N.

(** Encoding and sending a response reads [options.secret] when it runs:
    in the reply function that is when [authenticate] calls back. *)
Definition jrespond (pkt : packet) (rcode : jsstring) (from : rinfo)
    (done : jsprog) : jsprog :=
  JRead (fun options =>
    let response :=
      encode_response
        {| resp_packet := pkt; resp_code := rcode;
           resp_secret := secret options |} in
    JSend response 0 (Z.of_nat (List.length response)) (port from)
          (address from) done JReturn).

Definition jreply (pkt : packet) (from : rinfo) (username : jsval)
    : jcallback :=
  fun err obj =>
    match err, obj with
    | Some _, _ =>
        jrespond pkt Access_Reject from
          (JEmit "radius" (failure username) JReturn)
    | None, Some o =>
        jrespond pkt
          (if truthy (get o "status") then Access_Accept else Access_Reject)
          from
          (JEmit "radius" o JReturn)
    | None, None => JThrow TypeError
    end.

(** The listener of the socket's 'message' event, reading [options] where
    the source does: [options.secret] for decoding, [options.acceptDomains]
    for the allow-list, and [options.secret] again whenever a response is
    encoded. *)
Definition listener (msg : list N) (from : rinfo) : jsprog :=
  JRead (fun options =>
  match decode msg (secret options) with
  | DecodeThrows ex =>
      JEmit "radius-error" {[ "message" := VString ex ]} JReturn
  | Decoded pkt =>
      if negb (JsString.eqb (code pkt) Access_Request) then
        JEmit "radius-error" {[ "message" := VString code_error ]} JReturn
      else
        let username := get (attributes pkt) "User-Name" in
        let password := get (attributes pkt) "User-Password" in
        JConsoleLog (js "Got Access-Request for " ++ to_string username)
        match username with
        | VString u =>
            if negb (match_ u emailRegExp) then
              JEmit "radius-error" {[ "message" := VString email_error ]}
                (jrespond pkt Access_Reject from
                   (JEmit "radius" (failure username) JReturn))
            else
              JRead (fun options =>
              let acceptDomains := accept_list options in
              let domain := domain_of u in
              if Nat.eqb
                   (List.length (matching_domains acceptDomains domain)) 0
              then
                JEmit "radius-error"
                  {[ "message" := VString (domain_error u acceptDomains) ]}
                  (jrespond pkt Access_Reject from
                     (JEmit "radius" (failure username) JReturn))
              else
                jauthenticate username password (jreply pkt from username))
        | _ => JThrow TypeError
        end
  end).

End Listener.

(** The start of [createServer]: [if (!options.protocol) options.protocol =
    'udp4']. *)
Definition jcreateServer : jsprog :=
  JRead (fun options =>
    if match protocol options with
       | Some p => truthy (VString p)
       | None => false
       end
    then JReturn
    else
      JWrite (fun o => {| protocol := Some (js "udp4");
                          secret := secret o;
                          acceptDomains := acceptDomains o;
                          timeout := timeout o;
                          debug := debug o |})
             JReturn).

(** *** Running such programs *)

Inductive jparked : Type :=
| JPSend (cb : jsprog)
| JPConnect (cb : jsprog)
| JPLogin (cb : option jsstring -> jsprog).

Record jtask : Type := mkJtask {
  jlog_listeners : list (jsstring -> jsstring -> jsstring -> jsprog);
  jerror_listeners : list (jsstring -> jsprog);
  jwaiting : list jparked
}.

Definition jidle : jtask :=
  {| jlog_listeners := []; jerror_listeners := []; jwaiting := [] |}.

Definition jpark (p : jparked) (t : jtask) : jtask :=
  {| jlog_listeners := jlog_listeners t;
     jerror_listeners := jerror_listeners t;
     jwaiting := jwaiting t ++ [p] |}.

Definition jset_waiting (w : list jparked) (t : jtask) : jtask :=
  {| jlog_listeners := jlog_listeners t;
     jerror_listeners := jerror_listeners t;
     jwaiting := w |}.

(** Run the synchronous part of a program on the current [options] object;
    the result carries the object as the program leaves it. *)
Fixpoint jexec (p : jsprog) (o : options) (t : jtask)
    : list effect * options * jtask :=
  match p with
  | JReturn => ([], o, t)
  | JThrow ex => ([EUncaught ex], o, t)
  | JConsoleLog line k =>
      let '(es, o', t') := jexec k o t in (EConsoleLog line :: es, o', t')
  | JEmit event payload k =>
      let '(es, o', t') := jexec k o t in (EEmit event payload :: es, o', t')
  | JSend buf offset len to_port to_address cb k =>
      let '(es, o', t') := jexec k o (jpark (JPSend cb) t) in
      (ESend buf offset len to_port to_address :: es, o', t')
  | JNewSMTPConnection cfg k =>
      let '(es, o', t') := jexec k o t in
      (ENewSMTPConnection cfg :: es, o', t')
  | JOnLog listener k =>
      jexec k o {| jlog_listeners := jlog_listeners t ++ [listener];
                   jerror_listeners := jerror_listeners t;
                   jwaiting := jwaiting t |}
  | JOnError listener k =>
      jexec k o {| jlog_listeners := jlog_listeners t;
                   jerror_listeners := jerror_listeners t ++ [listener];
                   jwaiting := jwaiting t |}
  | JConnect cb k =>
      let '(es, o', t') := jexec k o (jpark (JPConnect cb) t) in
      (EConnect :: es, o', t')
  | JLogin user pass cb k =>
      let '(es, o', t') := jexec k o (jpark (JPLogin cb) t) in
      (ELogin user pass :: es, o', t')
  | JQuit k =>
      let '(es, o', t') := jexec k o t in (EQuit :: es, o', t')
  | JRead k => jexec (k o) o t
  | JWrite f k => jexec k (f o) t
  end.

Fixpoint jnext_send (w : list jparked) : option (jsprog * list jparked) :=
  match w with
  | [] => None
  | JPSend cb :: w' => Some (cb, w')
  | p :: w' =>
      match jnext_send w' with
      | Some (cb, rest) => Some (cb, p :: rest)
      | None => None
      end
  end.

Fixpoint jnext_connect (w : list jparked) : option (jsprog * list jparked) :=
  match w with
  | [] => None
  | JPConnect cb :: w' => Some (cb, w')
  | p :: w' =>
      match jnext_connect w' with
      | Some (cb, rest) => Some (cb, p :: rest)
      | None => None
      end
  end.

Fixpoint jnext_login (w : list jparked)
    : option ((option jsstring -> jsprog) * list jparked) :=
  match w with
  | [] => None
  | JPLogin cb :: w' => Some (cb, w')
  | p :: w' =>
      match jnext_login w' with
      | Some (cb, rest) => Some (cb, p :: rest)
      | None => None
      end
  end.

Definition jcall_all (ps : list jsprog) : jsprog :=
  List.fold_right jseq JReturn ps.

Definition jrun_callback (c : completion) (p : jsprog) (o : options)
    (t : jtask) : list effect * options * jtask :=
  let '(es, o', t') := jexec p o t in (Got c :: es, o', t').

(** A completion runs the callback waiting for it, on the [options] object
    as it is then. *)
Definition jreact (c : completion) (o : options) (t : jtask)
    : list effect * options * jtask :=
  match c with
  | SendDone =>
      match jnext_send (jwaiting t) with
      | Some (cb, rest) => jrun_callback c cb o (jset_waiting rest t)
      | None => ([], o, t)
      end
  | Connected =>
      match jnext_connect (jwaiting t) with
      | Some (cb, rest) => jrun_callback c cb o (jset_waiting rest t)
      | None => ([], o, t)
      end
  | LoginDone err =>
      match jnext_login (jwaiting t) with
      | Some (cb, rest) => jrun_callback c (cb err) o (jset_waiting rest t)
      | None => ([], o, t)
      end
  | SmtpError err =>
      match jerror_listeners t with
      | [] => ([], o, t)
      | ls => jrun_callback c (jcall_all (List.map (fun l => l err) ls)) o t
      end
  | SmtpLog iso type message =>
      match jlog_listeners t with
      | [] => ([], o, t)
      | ls =>
          jrun_callback c
            (jcall_all (List.map (fun l => l iso type message) ls)) o t
      end
  end.

(** *** Programs that leave the object alone

    [agrees o jp p]: run while [options] is [o], the program [jp] and its
    callbacks never assign to it, and do what [p] does. *)
Fixpoint agrees (o : options) (jp : jsprog) (p : prog) {struct jp} : Prop :=
  match jp, p with
  | JRead k, _ => agrees o (k o) p
  | JWrite _ _, _ => False
  | JReturn, Return => True
  | JThrow ex, Throw ex' => ex = ex'
  | JConsoleLog line k, ConsoleLog line' k' => line = line' /\ agrees o k k'
  | JEmit event payload k, Emit event' payload' k' =>
      event = event' /\ payload = payload' /\ agrees o k k'
  | JSend buf offset len to_port to_address cb k,
    Send buf' offset' len' to_port' to_address' cb' k' =>
      buf = buf' /\ offset = offset' /\ len = len' /\ to_port = to_port'
      /\ to_address = to_address' /\ agrees o cb cb' /\ agrees o k k'
  | JNewSMTPConnection cfg k, NewSMTPConnection cfg' k' =>
      cfg = cfg' /\ agrees o k k'
  | JOnLog l k, OnLog l' k' =>
      (forall iso type message,
         agrees o (l iso type message) (l' iso type message))
      /\ agrees o k k'
  | JOnError l k, OnError l' k' =>
      (forall err, agrees o (l err) (l' err)) /\ agrees o k k'
  | JConnect cb k, Connect cb' k' => agrees o cb cb' /\ agrees o k k'
  | JLogin user pass cb k, Login user' pass' cb' k' =>
      user = user' /\ pass = pass'
      /\ (forall err, agrees o (cb err) (cb' err)) /\ agrees o k k'
  | JQuit k, Quit k' => agrees o k k'
  | _, _ => False
  end.

Definition parked_agrees (o : options) (jp : jparked) (p : parked) : Prop :=
  match jp, p with
  | JPSend cb, PSend cb' => agrees o cb cb'
  | JPConnect cb, PConnect cb' => agrees o cb cb'
  | JPLogin cb, PLogin cb' => forall err, agrees o (cb err) (cb' err)
  | _, _ => False
  end.

Definition task_agrees (o : options) (jt : jtask) (t : task) : Prop :=
  Forall2 (fun l l' => forall iso type message,
             agrees o (l iso type message) (l' iso type message))
          (jlog_listeners jt) (log_listeners t)
  /\ Forall2 (fun l l' => forall err, agrees o (l err) (l' err))
             (jerror_listeners jt) (error_listeners t)
  /\ Forall2 (parked_agrees o) (jwaiting jt) (waiting t).

End Shared.
Export Shared.

(** ** The server: many datagrams in flight *)

Module Server.

(** What happens to the socket: a datagram arrives, or an operation started
    for the [id]-th datagram completes. *)
Inductive input : Type :=
| Message (msg : list N) (from : rinfo)
| Completion (id : nat) (c : completion).

(** The process: whether it is still running, the [options] object, and the
    listeners and parked callbacks of each request, in order of arrival. *)
Record process : Type := mkProcess {
  alive : bool;
  store : options;
  tasks : list jtask
}.

(** An exception that leaves a listener or a callback is not caught
    anywhere -- lib/index.js catches only what [radius.decode] throws, and
    bin/google-apps-radius installs no handler for uncaught exceptions -- so
    it ends the process. *)
Definition crashed (es : list effect) : bool :=
  List.existsb (fun e => match e with EUncaught _ => true | _ => false end) es.

Section Server.

(** The listener registered for the socket's 'message' event. *)
Variable on_message : list N -> rinfo -> jsprog.

(** One step of the server.  Requests are numbered in order of arrival; each
    effect is tagged with the request whose code performed it.  A process
    that has ended does nothing more. *)
Definition server_step (ps : process) (i : input)
    : list (nat * effect) * process :=
  if alive ps then
    match i with
    | Message msg from =>
        let '(es, o, t) :=
          jexec (on_message msg from) (store ps) jidle in
        (List.map (pair (List.length (tasks ps))) es,
         {| alive := negb (crashed es); store := o;
            tasks := tasks ps ++ [t] |})
    | Completion id c =>
        match tasks ps !! id with
        | Some t =>
            let '(es, o, t') := jreact c (store ps) t in
            (List.map (pair id) es,
             {| alive := negb (crashed es); store := o;
                tasks := <[id := t']> (tasks ps) |})
        | None => ([], ps)
        end
    end
  else ([], ps).

Fixpoint server_run (ps : process) (inputs : list input)
    : list (nat * effect) :=
  match inputs with
  | [] => []
  | i :: inputs' =>
      let (es, ps') := server_step ps i in es ++ server_run ps' inputs'
  end.

(** The process after a sequence of inputs. *)
Fixpoint server_after (ps : process) (inputs : list input) : process :=
  match inputs with
  | [] => ps
  | i :: inputs' => server_after (snd (server_step ps i)) inputs'
  end.

(** The inputs the process lives to see: those up to and including the one
    that ends it. *)
Fixpoint served (ps : process) (inputs : list input) : list input :=
  match inputs with
  | [] => []
  | i :: inputs' =>
      if alive ps then i :: served (snd (server_step ps i)) inputs' else []
  end.

End Server.

(** The process once [createServer(options)] has returned; without an
    argument [options] is the empty object. *)
Definition listening (options : option options) : process :=
  let '(_, o, _) := jexec jcreateServer (default no_options options) jidle in
  {| alive := true; store := o; tasks := [] |}.

(** The effects of request [id]. *)
Definition of_request (id : nat) (tr : list (nat * effect)) : list effect :=
  List.map snd (List.filter (fun e => Nat.eqb (fst e) id) tr).

(** The completions addressed to request [id]. *)
Fixpoint script_of (id : nat) (inputs : list input) : list completion :=
  match inputs with
  | [] => []
  | Completion id' c :: inputs' =>
      if Nat.eqb id' id then c :: script_of id inputs' else script_of id inputs'
  | Message _ _ :: inputs' => script_of id inputs'
  end.

(** How many datagrams arrive in [inputs]. *)
Fixpoint arrivals (inputs : list input) : nat :=
  match inputs with
  | [] => O
  | Message _ _ :: inputs' => S (arrivals inputs')
  | Completion _ _ :: inputs' => arrivals inputs'
  end.

End Server.
Export Server.

(** ** Notions used to state the properties *)

Module Props.

(** The synchronous effects of a program, and whether it runs to its end
    without throwing. *)
Fixpoint effects (p : prog) : list effect :=
  match p with
  | Return => []
  | Throw ex => [EUncaught ex]
  | ConsoleLog line k => EConsoleLog line :: effects k
  | Emit event payload k => EEmit event payload :: effects k
  | Send buf offset len to_port to_address _ k =>
      ESend buf offset len to_port to_address :: effects k
  | NewSMTPConnection cfg k => ENewSMTPConnection cfg :: effects k
  | OnLog _ k => effects k
  | OnError _ k => effects k
  | Connect _ k => EConnect :: effects k
  | Login user pass _ k => ELogin user pass :: effects k
  | Quit k => EQuit :: effects k
  end.

Fixpoint returns (p : prog) : bool :=
  match p with
  | Return => true
  | Throw _ => false
  | ConsoleLog _ k | Emit _ _ k | Send _ _ _ _ _ _ k | NewSMTPConnection _ k
  | OnLog _ k | OnError _ k | Connect _ k | Login _ _ _ k | Quit k => returns k
  end.

(** The part of [s] after its first [sep], if [sep] occurs, and the part
    before it. *)
Fixpoint after_first (sep : N) (s : jsstring) : option jsstring :=
  match s with
  | [] => None
  | c :: s' => if N.eqb c sep then Some s' else after_first sep s'
  end.

Fixpoint up_to (sep : N) (s : jsstring) : jsstring :=
  match s with
  | [] => []
  | c :: s' => if N.eqb c sep then [] else c :: up_to sep s'
  end.

(** The outcome of a credential check, and how the SMTP server behaves in
    each case: it accepts the login, refuses it, or the connection fails,
    before or after it was established. *)
Inductive verdict : Type :=
| Accepted
| Rejected (detail : jsstring)
| TransportError (detail : jsstring) (connected : bool).

Definition verifier_script (v : verdict) : list completion :=
  match v with
  | Accepted => [Connected; LoginDone None]
  | Rejected detail => [Connected; LoginDone (Some detail)]
  | TransportError detail false => [SmtpError detail]
  | TransportError detail true => [Connected; SmtpError detail]
  end.

(** What [authenticate] calls back with when the login is answered. *)
Definition login_result (username : jsval) (err : option jsstring)
    : option object :=
  match err with
  | Some _ => None
  | None => Some {[ "username" := username; "status" := VBool true ]}
  end.

(** The payloads emitted under an event name, in order. *)
Fixpoint emitted (name : string) (tr : list effect) : list object :=
  match tr with
  | [] => []
  | EEmit event payload :: tr' =>
      if String.eqb event name then payload :: emitted name tr'
      else emitted name tr'
  | _ :: tr' => emitted name tr'
  end.

(** Sending the response with code [rcode] for [pkt] back to [from]:
    encoded from the request packet and the shared secret, and sent whole. *)
Definition sending (opts : options) (encode_response : response_args -> list N)
    (pkt : packet) (rcode : jsstring) (from : rinfo) : effect :=
  let response :=
    encode_response
      {| resp_packet := pkt; resp_code := rcode; resp_secret := secret opts |} in
  ESend response 0 (Z.of_nat (List.length response)) (port from) (address from).

(** The datagrams handed to the socket, in order. *)
Fixpoint sent (tr : list effect) : list (list N) :=
  match tr with
  | [] => []
  | ESend buf _ _ _ _ :: tr' => buf :: sent tr'
  | _ :: tr' => sent tr'
  end.

(** Whether the environment ever completes a send. *)
Definition completes_send (script : list completion) : bool :=
  existsb (fun c => match c with SendDone => true | _ => false end) script.

(** The same options with another allow-list. *)
Definition with_acceptDomains (allow : option jsstring) (o : options) : options :=
  {| protocol := protocol o;
     secret := secret o;
     acceptDomains := allow;
     timeout := timeout o;
     debug := debug o |}.

(** A monitor for sends and their completions: a completion needs a send that
    is still in flight. *)
Fixpoint balanced (inflight : nat) (tr : list effect) : bool :=
  match tr with
  | [] => true
  | ESend _ _ _ _ _ :: tr' => balanced (S inflight) tr'
  | Got SendDone :: tr' =>
      match inflight with
      | O => false
      | S n => balanced n tr'
      end
  | _ :: tr' => balanced inflight tr'
  end.

(** [disciplined E p]: every callback that [p] or its callbacks give to
    [server.send] does nothing but emit one 'radius' event, and every other
    effect they can perform satisfies [E]. *)
Fixpoint disciplined (E : effect -> Prop) (p : prog) : Prop :=
  match p with
  | Return => True
  | Throw ex => E (EUncaught ex)
  | ConsoleLog line k => E (EConsoleLog line) /\ disciplined E k
  | Emit event payload k => E (EEmit event payload) /\ disciplined E k
  | Send buf offset len to_port to_address cb k =>
      E (ESend buf offset len to_port to_address)
      /\ (exists o, cb = Emit "radius" o Return)
      /\ disciplined E k
  | NewSMTPConnection cfg k => E (ENewSMTPConnection cfg) /\ disciplined E k
  | OnLog listener k =>
      (forall iso type message, disciplined E (listener iso type message))
      /\ disciplined E k
  | OnError listener k =>
      (forall err, disciplined E (listener err)) /\ disciplined E k
  | Connect cb k => E EConnect /\ disciplined E cb /\ disciplined E k
  | Login user pass cb k =>
      E (ELogin user pass) /\ (forall err, disciplined E (cb err))
      /\ disciplined E k
  | Quit k => E EQuit /\ disciplined E k
  end.

Definition parked_ok (E : effect -> Prop) (p : parked) : Prop :=
  match p with
  | PSend cb => exists o, cb = Emit "radius" o Return
  | PConnect cb => disciplined E cb
  | PLogin cb => forall err, disciplined E (cb err)
  end.

Definition task_ok (E : effect -> Prop) (t : task) : Prop :=
  Forall (fun l => forall iso type message, disciplined E (l iso type message))
         (log_listeners t)
  /\ Forall (fun l => forall err, disciplined E (l err)) (error_listeners t)
  /\ Forall (parked_ok E) (waiting t).

(** The traces of a disciplined program: effects satisfying [E], completions,
    and 'radius' events directly after a send completion. *)
Inductive shaped (E : effect -> Prop) : list effect -> Prop :=
| shaped_nil : shaped E []
| shaped_effect e tr : E e -> shaped E tr -> shaped E (e :: tr)
| shaped_got c tr : c <> SendDone -> shaped E tr -> shaped E (Got c :: tr)
| shaped_done o tr :
    shaped E tr -> shaped E (Got SendDone :: EEmit "radius" o :: tr).

(** Effects other than events, uncaught exceptions and completions. *)
Definition plain (e : effect) : Prop :=
  match e with
  | EEmit _ _ | EUncaught _ | Got _ => False
  | _ => True
  end.

Definition not_outcome (e : effect) : Prop :=
  match e with
  | EEmit event _ => event <> "radius"%string
  | Got _ => False
  | _ => True
  end.

Definition not_uncaught (e : effect) : Prop :=
  match e with
  | EUncaught _ => False
  | _ => True
  end.

Fixpoint parked_sends (w : list parked) : nat :=
  match w with
  | [] => O
  | PSend _ :: w' => S (parked_sends w')
  | _ :: w' => parked_sends w'
  end.

End Props.
Export Props.

(** ** A small codec and configuration to run the handler on *)

Module Demo.

Definition demo_options : options :=
  {| protocol := None;
     secret := VString (js "s3cret");
     acceptDomains := Some (js "example.com");
     timeout := None;
     debug := None |}.

(** A toy decoder: the first octet is the code (1 for Access-Request), the
    rest is the user name; an empty datagram does not decode. *)
Definition demo_decode (msg : list N) (secret : jsval) : decoded :=
  match msg with
  | [] => DecodeThrows (js "Error: packet too short")
  | c :: name =>
      Decoded
        {| code := if N.eqb c 1 then Access_Request else js "Accounting-Request";
           identifier := c;
           attributes :=
             match name with
             | [] => ∅
             | _ => {[ "User-Name" := VString name;
                       "User-Password" := VString (js "hunter2") ]}
             end |}
  end.

Definition demo_encode (a : response_args) : list N :=
  identifier (resp_packet a) :: resp_code a.

Definition demo_from : rinfo :=
  {| address := js "192.0.2.7"; port := 50000 |}.

Definition datagram (c : N) (name : string) : list N := c :: js name.

(** What [demo_decode] makes of [datagram 1 name], for a non-empty name. *)
Definition request_of (name : string) : packet :=
  {| code := Access_Request;
     identifier := 1;
     attributes := {[ "User-Name" := VString (js name);
                      "User-Password" := VString (js "hunter2") ]} |}.

Definition demo_handler : list N -> rinfo -> prog :=
  handler demo_options demo_decode demo_encode.

(** A caller of [authenticate] that announces what it is called back with. *)
Definition announce : callback :=
  fun err obj =>
    Emit "called-back"
      (match err, obj with
       | Some e, _ => {[ "err" := VString e ]}
       | None, Some o => o
       | None, None => ∅
       end)
      Return.

(** A caller of [authenticate] that tells the calls of its callback apart by
    the arguments they are given: the event is named after which of [err]
    and the object are present, and carries them. *)
Definition observe : callback :=
  fun err obj =>
    match err, obj with
    | Some e, Some o =>
        Emit "error-and-object" (<[ "err" := VString e ]> o) Return
    | Some e, None => Emit "error" {[ "err" := VString e ]} Return
    | None, Some o => Emit "object" o Return
    | None, None => Emit "nothing" ∅ Return
    end.

End Demo.
Export Demo.

(** ** bin/google-apps-radius: the listeners of the command-line server *)

Module Cli.

(** The listener of 'radius': the line it prints, given the clock reading. *)
Definition on_radius (iso : jsstring) (e : object) : jsstring :=
  let type := if truthy (get e "status") then js "success" else js "failure" in
  now iso ++ js "Authentication " ++ type ++ js ": "
  ++ to_string (get e "username").

(** The listener of 'radius-error'. *)
Definition on_radius_error (iso : jsstring) (err : object) : jsstring :=
  now iso ++ to_string (get err "message").

(** The options the command line gives to [createServer]. *)
Definition cli_options (accept_domains secret : jsstring) : options :=
  {| protocol := None;
     secret := VString secret;
     acceptDomains := Some accept_domains;
     timeout := None;
     debug := None |}.

End Cli.
Export Cli.

(** ** Further notions used to state properties *)

Module Governed.

Section Governed.

(** [A]: the completions the environment may deliver; [E]: the effects
    allowed outside the callbacks of [server.send]; [Q]: the objects those
    callbacks may emit as 'radius' events. *)
Variable A : completion -> Prop.
Variable E : effect -> Prop.
Variable Q : object -> Prop.

(** [governed p]: as long as the environment keeps to [A], [p] and the
    callbacks it hands over perform only effects in [E], except that every
    callback given to [server.send] emits one 'radius' event with an object
    in [Q] and does nothing else. *)
Fixpoint governed (p : prog) : Prop :=
  match p with
  | Return => True
  | Throw ex => E (EUncaught ex)
  | ConsoleLog line k => E (EConsoleLog line) /\ governed k
  | Emit event payload k => E (EEmit event payload) /\ governed k
  | Send buf offset len to_port to_address cb k =>
      E (ESend buf offset len to_port to_address)
      /\ (exists o, cb = Emit "radius" o Return /\ Q o)
      /\ governed k
  | NewSMTPConnection cfg k => E (ENewSMTPConnection cfg) /\ governed k
  | OnLog listener k =>
      (forall iso type message,
         A (SmtpLog iso type message) -> governed (listener iso type message))
      /\ governed k
  | OnError listener k =>
      (forall err, A (SmtpError err) -> governed (listener err)) /\ governed k
  | Connect cb k => E EConnect /\ (A Connected -> governed cb) /\ governed k
  | Login user pass cb k =>
      E (ELogin user pass)
      /\ (forall err, A (LoginDone err) -> governed (cb err))
      /\ governed k
  | Quit k => E EQuit /\ governed k
  end.

Definition parked_governed (p : parked) : Prop :=
  match p with
  | PSend cb => exists o, cb = Emit "radius" o Return /\ Q o
  | PConnect cb => A Connected -> governed cb
  | PLogin cb => forall err, A (LoginDone err) -> governed (cb err)
  end.

Definition task_governed (t : task) : Prop :=
  Forall (fun l => forall iso type message,
            A (SmtpLog iso type message) -> governed (l iso type message))
         (log_listeners t)
  /\ Forall (fun l => forall err, A (SmtpError err) -> governed (l err))
            (error_listeners t)
  /\ Forall parked_governed (waiting t).

(** The traces of a governed program. *)
Inductive governed_trace : list effect -> Prop :=
| governed_nil : governed_trace []
| governed_effect e tr : E e -> governed_trace tr -> governed_trace (e :: tr)
| governed_got c tr :
    c <> SendDone -> A c -> governed_trace tr -> governed_trace (Got c :: tr)
| governed_done o tr :
    Q o -> governed_trace tr ->
    governed_trace (Got SendDone :: EEmit "radius" o :: tr).

End Governed.

End Governed.
Export Governed.

Module Budget.

Section Budget.

(** [K] picks a kind of effect to be counted. *)
Variable K : effect -> bool.

Definition cost (e : effect) : nat := if K e then 1 else 0.

Definition count (tr : list effect) : nat := List.length (List.filter K tr).

(** [within n p]: running [p] and then, at most once each, the callbacks it
    hands to an operation performs at most [n] effects of kind [K]; the
    listeners it registers, which may run any number of times, perform
    none. *)
Fixpoint within (n : nat) (p : prog) : Prop :=
  match p with
  | Return => True
  | Throw ex => (cost (EUncaught ex) <= n)%nat
  | ConsoleLog line k =>
      exists m, (cost (EConsoleLog line) + m <= n)%nat /\ within m k
  | Emit event payload k =>
      exists m, (cost (EEmit event payload) + m <= n)%nat /\ within m k
  | Send buf offset len to_port to_address cb k =>
      exists a m,
        (cost (ESend buf offset len to_port to_address) + a + m <= n)%nat
        /\ within a cb /\ within m k
  | NewSMTPConnection cfg k =>
      exists m, (cost (ENewSMTPConnection cfg) + m <= n)%nat /\ within m k
  | OnLog listener k =>
      (forall iso type message, within 0 (listener iso type message))
      /\ within n k
  | OnError listener k => (forall err, within 0 (listener err)) /\ within n k
  | Connect cb k =>
      exists a m, (cost EConnect + a + m <= n)%nat /\ within a cb /\ within m k
  | Login user pass cb k =>
      exists a m,
        (cost (ELogin user pass) + a + m <= n)%nat
        /\ (forall err, within a (cb err)) /\ within m k
  | Quit k => exists m, (cost EQuit + m <= n)%nat /\ within m k
  end.

Definition parked_within (a : nat) (p : parked) : Prop :=
  match p with
  | PSend cb => within a cb
  | PConnect cb => within a cb
  | PLogin cb => forall err, within a (cb err)
  end.

(** The parked callbacks perform at most [m] effects of kind [K] together. *)
Fixpoint waiting_within (m : nat) (w : list parked) : Prop :=
  match w with
  | [] => True
  | p :: w' =>
      exists a b, (a + b <= m)%nat /\ parked_within a p /\ waiting_within b w'
  end.

Definition task_within (m : nat) (t : task) : Prop :=
  Forall (fun l => forall iso type message, within 0 (l iso type message))
         (log_listeners t)
  /\ Forall (fun l => forall err, within 0 (l err)) (error_listeners t)
  /\ waiting_within m (waiting t).

End Budget.

End Budget.
Export Budget.

Module Kinds.

Definition is_connection (e : effect) : bool :=
  match e with ENewSMTPConnection _ => true | _ => false end.

Definition is_connect (e : effect) : bool :=
  match e with EConnect => true | _ => false end.

Definition is_login (e : effect) : bool :=
  match e with ELogin _ _ => true | _ => false end.

Definition is_quit (e : effect) : bool :=
  match e with EQuit => true | _ => false end.

(** An operation on the SMTP connection. *)
Definition smtp_effect (e : effect) : bool :=
  is_connection e || is_connect e || is_login e || is_quit e.

(** The request in [msg] passes every check of the handler and goes on to
    the credential check with username [u]. *)
Definition reaches_verifier (opts : options)
    (decode : list N -> jsval -> decoded) (msg : list N) (pkt : packet)
    (u : jsstring) : Prop :=
  decode msg (secret opts) = Decoded pkt
  /\ code pkt = Access_Request
  /\ get (attributes pkt) "User-Name" = VString u
  /\ match_ u emailRegExp = true
  /\ domain_accepted (accept_list opts) (domain_of u) = true.

(** [checked opts decode msg e]: if [e] is an operation on the SMTP
    connection, then the request in [msg] has passed every check, the
    connection is made with the fixed options, and the login presents the
    username of the request, whole, and its password. *)
Definition checked (opts : options) (decode : list N -> jsval -> decoded)
    (msg : list N) (e : effect) : Prop :=
  match e with
  | ENewSMTPConnection cfg =>
      (exists pkt u, reaches_verifier opts decode msg pkt u)
      /\ cfg = connection_options opts
  | EConnect | EQuit => exists pkt u, reaches_verifier opts decode msg pkt u
  | ELogin user pass =>
      exists pkt u,
        reaches_verifier opts decode msg pkt u
        /\ user = VString u
        /\ pass = get (attributes pkt) "User-Password"
  | _ => True
  end.

(** The object [authenticate] calls back with when the login is accepted. *)
Definition success (username : jsval) : object :=
  {[ "username" := username; "status" := VBool true ]}.

#[global] Instance completion_eq_dec : EqDecision completion.
Proof. solve_decision. Defined.

End Kinds.
Export Kinds.

(** * Properties *)

(** ** Strings *)

Module JsStringFacts.

Lemma eqb_eq (a b : jsstring) : JsString.eqb a b = true <-> a = b.
Proof.
  revert b. induction a as [|x a IH]; intros [|y b]; simpl; try (split; congruence).
  rewrite andb_true_iff, N.eqb_eq, IH. split.
  - intros [-> ->]. reflexivity.
  - intros [= -> ->]. auto.
Qed.

Lemma eqb_neq (a b : jsstring) : JsString.eqb a b = false <-> a <> b.
Proof.
  rewrite <- eqb_eq. destruct (JsString.eqb a b); split; congruence.
Qed.

Lemma startsWith_spec (s p : jsstring) :
  startsWith s p = true <-> exists r, s = p ++ r.
Proof.
  revert s. induction p as [|x p IH]; intros s.
  - destruct s; simpl; split; eauto.
  - destruct s as [|y s]; simpl.
    + split; [congruence | intros [r Hr]; discriminate].
    + rewrite andb_true_iff, N.eqb_eq, IH. split.
      * intros [-> [r ->]]. eauto.
      * intros [r [= -> ->]]. eauto.
Qed.

Lemma occurs_in_cons (n : jsstring) (c : N) (s : jsstring) :
  startsWith (c :: s) n = false ->
  (occurs_in n (c :: s) <-> occurs_in n s).
Proof.
  intros Hno. split.
  - intros [[|x l] [r Heq]]; simpl in Heq.
    + assert (startsWith (c :: s) n = true) by (apply startsWith_spec; eauto).
      congruence.
    + injection Heq as -> ->. exists l, r. reflexivity.
  - intros [l [r ->]]. exists (c :: l), r. reflexivity.
Qed.

Lemma indexOf_from_spec (s n : jsstring) (i : Z) :
  0 <= i -> (0 <= indexOf_from s n i <-> occurs_in n s).
Proof.
  revert i. induction s as [|c s IH]; intros i Hi.
  - cbn [indexOf_from]. destruct (startsWith [] n) eqn:Hp.
    + split; [intros _ | intros _; exact Hi]. apply startsWith_spec in Hp as [r Hr].
      exists [], r. exact Hr.
    + split; [lia |]. intros [l [r Heq]].
      assert (startsWith [] n = true); [| congruence].
      apply startsWith_spec. exists r.
      destruct l; [exact Heq | discriminate].
  - cbn [indexOf_from]. destruct (startsWith (c :: s) n) eqn:Hp.
    + split; [intros _ | intros _; exact Hi]. apply startsWith_spec in Hp as [r Hr].
      exists [], r. exact Hr.
    + rewrite (occurs_in_cons _ _ _ Hp). apply IH. lia.
Qed.

Lemma indexOf_spec (s n : jsstring) : 0 <= indexOf s n <-> occurs_in n s.
Proof. apply indexOf_from_spec. lia. Qed.

Lemma split_cons (sep : N) (s : jsstring) :
  split sep s =
  up_to sep s :: match after_first sep s with
                 | Some rest => split sep rest
                 | None => []
                 end.
Proof.
  induction s as [|c s IH]; simpl; [reflexivity |].
  destruct (N.eqb c sep); [reflexivity |].
  rewrite IH. reflexivity.
Qed.

Lemma after_first_app (sep : N) (l r : jsstring) :
  exists rest, after_first sep (l ++ sep :: r) = Some rest.
Proof.
  induction l as [|c l IH]; simpl.
  - rewrite N.eqb_refl. eauto.
  - destruct (N.eqb c sep); eauto.
Qed.

Lemma up_to_id (sep : N) (s : jsstring) : ~ In sep s -> up_to sep s = s.
Proof.
  induction s as [|c s IH]; simpl; intros Hn; [reflexivity |].
  destruct (N.eqb_spec c sep) as [->|_]; [tauto |].
  rewrite IH; tauto.
Qed.

End JsStringFacts.
Export JsStringFacts.

(** ** The regular-expression matcher *)

Module RegExpFacts.

Lemma nullable_lang (r : regexp) : nullable r = true -> lang r [].
Proof.
  induction r; simpl; intros H; try discriminate.
  - constructor.
  - apply andb_true_iff in H as [H1 H2].
    change (@nil N) with (@nil N ++ []). constructor; auto.
  - apply orb_true_iff in H as [H|H]; [apply lang_alt_l | apply lang_alt_r]; auto.
  - constructor.
Qed.

Lemma lang_nullable (r : regexp) (w : jsstring) :
  lang r w -> w = [] -> nullable r = true.
Proof.
  induction 1; simpl; intros Hw; try reflexivity; try discriminate.
  - apply app_eq_nil in Hw as [-> ->]. rewrite IHlang1, IHlang2; auto.
  - rewrite IHlang; auto.
  - rewrite IHlang; auto using orb_true_r.
Qed.

Lemma deriv_lang (c : N) (r : regexp) (w : jsstring) :
  lang (deriv c r) w -> lang r (c :: w).
Proof.
  revert w. induction r; simpl; intros w H.
  - inversion H.
  - inversion H.
  - destruct (p c) eqn:Hp; inversion H; subst. constructor. exact Hp.
  - destruct (nullable r1) eqn:Hn.
    + inversion H as [| | | ? ? ? Hl | ? ? ? Hr | |]; subst.
      * inversion Hl; subst.
        change (c :: w1 ++ w2) with ((c :: w1) ++ w2). constructor; auto.
      * change (c :: w) with ([] ++ c :: w).
        constructor; auto using nullable_lang.
    + inversion H; subst.
      change (c :: w1 ++ w2) with ((c :: w1) ++ w2). constructor; auto.
  - inversion H; subst; [apply lang_alt_l | apply lang_alt_r]; auto.
  - inversion H; subst.
    change (c :: w1 ++ w2) with ((c :: w1) ++ w2). constructor; auto.
Qed.

Lemma lang_deriv (r : regexp) (s : jsstring) :
  lang r s -> forall c v, s = c :: v -> lang (deriv c r) v.
Proof.
  induction 1; intros c0 v Hs; simpl; try discriminate.
  - injection Hs as <- <-. rewrite H. constructor.
  - destruct w1 as [|x w1]; simpl in Hs.
    + subst w2. rewrite (lang_nullable _ _ H eq_refl).
      apply lang_alt_r. eauto.
    + injection Hs as -> <-.
      destruct (nullable r1); [apply lang_alt_l |]; constructor; eauto.
  - apply lang_alt_l. eauto.
  - apply lang_alt_r. eauto.
  - destruct w1 as [|x w1]; simpl in Hs.
    + eauto.
    + injection Hs as -> <-. constructor; eauto.
Qed.

Lemma match_here_spec (r : regexp) (s : jsstring) :
  match_here r s = true <-> exists w t, s = w ++ t /\ lang r w.
Proof.
  revert r. induction s as [|c s IH]; intros r; simpl.
  - rewrite orb_false_r. split.
    + intros H. exists [], []. auto using nullable_lang.
    + intros (w & t & Hs & Hl). symmetry in Hs.
      apply app_eq_nil in Hs as [-> _]. eauto using lang_nullable.
  - rewrite orb_true_iff, IH. split.
    + intros [H | (w & t & -> & Hl)].
      * exists [], (c :: s). auto using nullable_lang.
      * exists (c :: w), t. auto using deriv_lang.
    + intros ([|x w] & t & Hs & Hl).
      * left. eauto using lang_nullable.
      * injection Hs as <- ->. right. exists w, t. eauto using lang_deriv.
Qed.

(** [s.match(r)] succeeds exactly when some substring of [s] is in the
    language of [r]. *)
Lemma match_spec (s : jsstring) (r : regexp) :
  match_ s r = true <-> exists l w t, s = l ++ w ++ t /\ lang r w.
Proof.
  unfold match_. induction s as [|c s IH]; cbn [search].
  - rewrite orb_false_r, match_here_spec. split.
    + intros (w & t & Hs & Hl). exists [], w, t. auto.
    + intros (l & w & t & Hs & Hl). symmetry in Hs.
      apply app_eq_nil in Hs as [-> Hs]. eauto.
  - rewrite orb_true_iff, IH, match_here_spec. split.
    + intros [(w & t & Hs & Hl) | (l & w & t & -> & Hl)].
      * exists [], w, t. auto.
      * exists (c :: l), w, t. auto.
    + intros ([|x l] & w & t & Hs & Hl).
      * left. exists w, t. auto.
      * injection Hs as <- ->. right. exists l, w, t. auto.
Qed.

Lemma lang_Chr (c : N) (w : jsstring) : lang (Chr c) w -> w = [c].
Proof.
  unfold Chr. inversion 1; subst. f_equal. symmetry. apply N.eqb_eq. assumption.
Qed.

(** A string that matches [emailRegExp] contains an ['@']. *)
Lemma emailRegExp_at (w : jsstring) :
  lang emailRegExp w -> exists a b, w = a ++ 64%N :: b.
Proof.
  unfold emailRegExp. intros H.
  inversion H as [| | ? ? w1 w2 _ H2 | | | |]; subst.
  inversion H2 as [| | ? ? w3 w4 H3 _ | | | |]; subst.
  apply lang_Chr in H3 as ->. exists w1, w4. reflexivity.
Qed.

Lemma match_email_at (u : jsstring) :
  match_ u emailRegExp = true -> exists a b, u = a ++ 64%N :: b.
Proof.
  intros H. apply match_spec in H as (l & w & t & -> & Hl).
  apply emailRegExp_at in Hl as (a & b & ->).
  exists (l ++ a), (b ++ t). rewrite <- !app_assoc. reflexivity.
Qed.

End RegExpFacts.
Export RegExpFacts.

(** ** The domain-match step and the derived domain *)

Lemma matching_domains_spec (acceptDomains : list jsstring) (domain : jsval)
    (d : jsstring) :
  In d (matching_domains acceptDomains domain) <->
  In d acceptDomains /\ occurs_in (to_string domain) d.
Proof.
  unfold matching_domains. rewrite filter_In, Z.leb_le, indexOf_spec.
  reflexivity.
Qed.

(** C1, as the code has it: the domain-match step accepts exactly when the
    domain occurs as a substring of at least one allow-list entry (the entry
    contains the domain, not the domain the entry).  With allow-list
    ["example.com"], the domain "example.com" is accepted and the domain
    "mail.example.com" is rejected. *)
Theorem C1_domain_match (acceptDomains : list jsstring) (domain : jsstring) :
  (domain_accepted acceptDomains (VString domain) = true <->
   exists d, In d acceptDomains /\ occurs_in domain d)
  /\ domain_accepted [js "example.com"] (VString (js "example.com")) = true
  /\ domain_accepted [js "example.com"] (VString (js "mail.example.com")) = false.
Proof.
  split; [| split; reflexivity].
  unfold domain_accepted. rewrite negb_true_iff, Nat.eqb_neq. split.
  - intros Hlen.
    destruct (matching_domains acceptDomains (VString domain)) as [|d ds] eqn:Hm;
      [contradiction Hlen; reflexivity |].
    exists d. change domain with (to_string (VString domain)).
    apply matching_domains_spec. rewrite Hm. left. reflexivity.
  - intros (d & Hin & Hocc) Hlen.
    assert (Hd : In d (matching_domains acceptDomains (VString domain)))
      by (apply matching_domains_spec; auto).
    destruct (matching_domains acceptDomains (VString domain));
      [exact Hd | discriminate].
Qed.

(** C1 as stated fails: "example.com" is a substring of "mail.example.com",
    yet with allow-list ["example.com"] that domain is not accepted. *)
Lemma C1_counterexample :
  (exists d, In d [js "example.com"] /\ occurs_in d (js "mail.example.com"))
  /\ domain_accepted [js "example.com"] (VString (js "mail.example.com")) = false.
Proof.
  split; [| reflexivity].
  exists (js "example.com"). split; [left; reflexivity |].
  exists (js "mail."), []. reflexivity.
Qed.

(** The match is by substring of the entry, in either surprising direction:
    a longer domain that contains the entry is rejected, a fragment of the
    entry is accepted. *)
Example domain_match_examples :
  domain_accepted [js "example.com"] (VString (js "example.com.evil.org")) = false
  /\ domain_accepted [js "example.com"] (VString (js "le.com")) = true
  /\ domain_accepted [] (VString (js "example.com")) = false.
Proof. repeat split. Qed.

(** Usernames that are not email-shaped, and usernames that are. *)
Example emailRegExp_examples :
  List.map (fun s => match_ (js s) emailRegExp)
    ["bob"; "bob@"; "bob@@x"; "alice@example.com"; "x@y@b.cd"]
  = [false; false; false; true; true].
Proof. reflexivity. Qed.

Lemma domain_of_spec (u : jsstring) :
  domain_of u =
  match after_first 64 u with
  | Some rest => VString (up_to 64 rest)
  | None => VUndefined
  end.
Proof.
  unfold domain_of, index. rewrite split_cons.
  destruct (after_first 64 u) as [rest|]; [| reflexivity].
  rewrite split_cons. reflexivity.
Qed.

(** C6, as the code has it: for a username that passes the email-shape test,
    the domain handed to the domain-match step is the part of the username
    after its first ['@'] up to the next ['@'], or up to the end when there
    is no other ['@']; only in that last case is it the entire remainder. *)
Theorem C6_domain_of_username (u : jsstring) :
  match_ u emailRegExp = true ->
  exists rest,
    after_first 64 u = Some rest
    /\ domain_of u = VString (up_to 64 rest)
    /\ (~ In 64%N rest -> domain_of u = VString rest).
Proof.
  intros Hm. apply match_email_at in Hm as (a & b & ->).
  destruct (after_first_app 64 a b) as [rest Hrest].
  exists rest. rewrite domain_of_spec, Hrest.
  split; [reflexivity | split; [reflexivity |]].
  intros Hno. rewrite up_to_id; auto.
Qed.

Lemma C6_domain_of_username_witness :
  exists rest,
    after_first 64 (js "alice@example.com") = Some rest
    /\ domain_of (js "alice@example.com") = VString (up_to 64 rest)
    /\ (~ In 64%N rest -> domain_of (js "alice@example.com") = VString rest).
Proof.
  apply (C6_domain_of_username (js "alice@example.com")). reflexivity.
Defined.

(** C6 as stated fails: "x@y@b.cd" passes the email-shape test, the remainder
    after its first ['@'] is "y@b.cd", and the derived domain is "y". *)
Lemma C6_counterexample :
  match_ (js "x@y@b.cd") emailRegExp = true
  /\ after_first 64 (js "x@y@b.cd") = Some (js "y@b.cd")
  /\ domain_of (js "x@y@b.cd") = VString (js "y")
  /\ domain_of (js "x@y@b.cd") <> VString (js "y@b.cd").
Proof.
  repeat split; discriminate.
Qed.

(** ** The event loop *)

Module EventLoopFacts.

(** The effects of running a program do not depend on the task it runs in. *)
Lemma exec_effects (p : prog) (t : task) : fst (exec p t) = effects p.
Proof.
  revert t. induction p; intros t; simpl; try reflexivity;
    try (specialize (IHp t); destruct (exec p t); simpl in *; congruence);
    try (rewrite IHp; reflexivity).
  - specialize (IHp2 (park (PSend p1) t)).
    destruct (exec p2 (park (PSend p1) t)); simpl in *; congruence.
  - specialize (IHp2 (park (PConnect p1) t)).
    destruct (exec p2 (park (PConnect p1) t)); simpl in *; congruence.
  - specialize (IHp (park (PLogin cb) t)).
    destruct (exec p (park (PLogin cb) t)); simpl in *; congruence.
Qed.

Lemma effects_seq (p q : prog) :
  effects (seq p q) = effects p ++ (if returns p then effects q else []).
Proof.
  induction p; simpl; rewrite ?IHp, ?IHp2; reflexivity.
Qed.

(** Nothing happens to a task that has no listener and no parked callback. *)
Lemma deliver_idle (script : list completion) : deliver script idle = [].
Proof.
  induction script as [|c script IH]; simpl; [reflexivity |].
  destruct c; simpl; exact IH.
Qed.

(** A task whose only pending operation is a send with an emitting callback. *)
Lemma deliver_one_send (script : list completion) (event : string) (o : object) :
  deliver script (park (PSend (Emit event o Return)) idle)
  = if completes_send script then [Got SendDone; EEmit event o] else [].
Proof.
  induction script as [|c script IH]; simpl; [reflexivity |].
  destruct c; simpl; try exact IH.
  change (set_waiting [] _) with idle.
  rewrite deliver_idle. reflexivity.
Qed.

End EventLoopFacts.
Export EventLoopFacts.

(** ** The handler, case by case *)

Module HandlerFacts.

Section HandlerFacts.

Variable opts : options.
Variable decode : list N -> jsval -> decoded.
Variable encode_response : response_args -> list N.

Lemma handler_undecodable msg from ex :
  decode msg (secret opts) = DecodeThrows ex ->
  handler opts decode encode_response msg from =
  Emit "radius-error" {[ "message" := VString ex ]} Return.
Proof. intros H. unfold handler. rewrite H. reflexivity. Qed.

Lemma handler_wrong_code msg from pkt :
  decode msg (secret opts) = Decoded pkt ->
  code pkt <> Access_Request ->
  handler opts decode encode_response msg from =
  Emit "radius-error" {[ "message" := VString code_error ]} Return.
Proof.
  intros H Hc. unfold handler. rewrite H.
  apply eqb_neq in Hc. rewrite Hc. reflexivity.
Qed.

Lemma handler_access_request msg from pkt :
  decode msg (secret opts) = Decoded pkt ->
  code pkt = Access_Request ->
  handler opts decode encode_response msg from =
  let username := get (attributes pkt) "User-Name" in
  let password := get (attributes pkt) "User-Password" in
  ConsoleLog (js "Got Access-Request for " ++ to_string username)
    match username with
    | VString u =>
        if negb (match_ u emailRegExp) then
          Emit "radius-error"
            {[ "message" := VString email_error ]}
            (respond opts encode_response pkt Access_Reject from
               (Emit "radius" (failure username) Return))
        else
          if Nat.eqb
               (List.length (matching_domains (accept_list opts) (domain_of u)))
               0
          then
            Emit "radius-error"
              {[ "message" := VString (domain_error u (accept_list opts)) ]}
              (respond opts encode_response pkt Access_Reject from
                 (Emit "radius" (failure username) Return))
          else
            authenticate username password opts
              (reply opts encode_response pkt from username)
    | _ => Throw TypeError
    end.
Proof.
  intros H Hc. unfold handler. rewrite H.
  apply eqb_eq in Hc. rewrite Hc. reflexivity.
Qed.

(** The listener that [createServer] registers is [handler]: the protocol
    default does not reach it. *)
Lemma createServer_listener msg from :
  snd (createServer decode encode_response (Some opts)) msg from
  = handler opts decode encode_response msg from.
Proof. reflexivity. Qed.

End HandlerFacts.

End HandlerFacts.
Export HandlerFacts.

(** ** Verification: every behaviour of the SMTP server *)

(** Run the event loop on the program in the goal, leaving data alone. *)
Ltac run_loop :=
  cbn [exec react deliver park set_waiting idle waiting log_listeners
       error_listeners next_send next_connect next_login call_all
       List.fold_right List.map seq app fst snd negb].

Module VerifiedFacts.

Section Verified.

Variable opts : options.
Variable decode : list N -> jsval -> decoded.
Variable encode_response : response_args -> list N.
Variables (msg : list N) (from : rinfo) (pkt : packet) (u : jsstring).

Hypothesis Hdecode : decode msg (secret opts) = Decoded pkt.
Hypothesis Hcode : code pkt = Access_Request.
Hypothesis Hname : attributes pkt !! "User-Name" = Some (VString u).
Hypothesis Hemail : match_ u emailRegExp = true.
Hypothesis Hdomain : domain_accepted (accept_list opts) (domain_of u) = true.

Lemma handler_verifies :
  handler opts decode encode_response msg from =
  ConsoleLog (js "Got Access-Request for " ++ u)
    (authenticate (VString u) (get (attributes pkt) "User-Password") opts
       (reply opts encode_response pkt from (VString u))).
Proof.
  rewrite (handler_access_request _ _ _ _ _ _ Hdecode Hcode).
  assert (Hget : get (attributes pkt) "User-Name" = VString u)
    by (unfold get; rewrite Hname; reflexivity).
  cbn zeta. rewrite Hget. cbn match.
  unfold domain_accepted in Hdomain. apply negb_true_iff in Hdomain.
  rewrite Hemail, Hdomain. reflexivity.
Qed.

(** Everything that happens to a request that reaches the credential check,
    for each behaviour of the SMTP server. *)
Lemma verified_session (v : verdict) :
  session (handler opts decode encode_response msg from)
          (verifier_script v ++ [SendDone]) =
  [EConsoleLog (js "Got Access-Request for " ++ u);
   ENewSMTPConnection (connection_options opts);
   EConnect]
  ++ match v with
     | Accepted =>
         [Got Connected;
          ELogin (VString u) (get (attributes pkt) "User-Password");
          Got (LoginDone None);
          sending opts encode_response pkt Access_Accept from;
          EQuit;
          Got SendDone;
          EEmit "radius" {[ "username" := VString u; "status" := VBool true ]}]
     | Rejected detail =>
         [Got Connected;
          ELogin (VString u) (get (attributes pkt) "User-Password");
          Got (LoginDone (Some detail));
          sending opts encode_response pkt Access_Reject from;
          EQuit;
          Got SendDone;
          EEmit "radius" {[ "username" := VString u; "status" := VBool false ]}]
     | TransportError detail true =>
         [Got Connected;
          ELogin (VString u) (get (attributes pkt) "User-Password");
          Got (SmtpError detail);
          sending opts encode_response pkt Access_Reject from;
          Got SendDone;
          EEmit "radius" {[ "username" := VString u; "status" := VBool false ]}]
     | TransportError detail false =>
         [Got (SmtpError detail);
          sending opts encode_response pkt Access_Reject from;
          Got SendDone;
          EEmit "radius" {[ "username" := VString u; "status" := VBool false ]}]
     end.
Proof.
  rewrite handler_verifies. unfold session, authenticate.
  destruct v as [| detail | detail [|]]; reflexivity.
Qed.

End Verified.

Lemma authenticate_login_answered (username password : jsval) (opts : options)
    (cb : callback) (err : option jsstring) :
  session (authenticate username password opts cb) [Connected; LoginDone err] =
  [ENewSMTPConnection (connection_options opts); EConnect; Got Connected;
   ELogin username password; Got (LoginDone err)]
  ++ effects (seq (cb err (login_result username err)) (Quit Return)).
Proof.
  unfold session, authenticate. run_loop.
  match goal with |- context [exec ?p ?t] =>
    pose proof (exec_effects p t) as He; destruct (exec p t) as [es t'] end.
  simpl in He. subst es. rewrite app_nil_r.
  destruct err; reflexivity.
Qed.

Lemma authenticate_connection_error (username password : jsval) (opts : options)
    (cb : callback) (err : jsstring) :
  session (authenticate username password opts cb) [SmtpError err] =
  [ENewSMTPConnection (connection_options opts); EConnect; Got (SmtpError err)]
  ++ effects (cb (Some err) None).
Proof.
  unfold session, authenticate. run_loop.
  match goal with |- context [exec ?p ?t] =>
    pose proof (exec_effects p t) as He; destruct (exec p t) as [es t'] end.
  simpl in He. subst es. rewrite app_nil_r.
  rewrite effects_seq. simpl. destruct (returns _); rewrite app_nil_r; reflexivity.
Qed.

End VerifiedFacts.
Export VerifiedFacts.

(** ** Claims about single requests *)

(** C2: a datagram that does not decode, or that decodes to a packet whose
    code is not Access-Request, makes the handler emit exactly one
    'radius-error' event and nothing else, whatever the environment does
    afterwards: no response is sent and no 'radius' event is emitted. *)
Theorem C2_undecodable_or_not_access_request
    (opts : options) (decode : list N -> jsval -> decoded)
    (encode_response : response_args -> list N)
    (msg : list N) (from : rinfo) (script : list completion) :
  (exists ex, decode msg (secret opts) = DecodeThrows ex)
  \/ (exists pkt, decode msg (secret opts) = Decoded pkt
                  /\ code pkt <> Access_Request) ->
  session (handler opts decode encode_response msg from) script =
  [EEmit "radius-error"
     {[ "message" :=
          VString match decode msg (secret opts) with
                  | DecodeThrows ex => ex
                  | Decoded _ => code_error
                  end ]}].
Proof.
  intros [[ex H] | (pkt & H & Hc)].
  - rewrite (handler_undecodable _ _ _ _ _ _ H), H.
    unfold session. run_loop. rewrite deliver_idle. reflexivity.
  - rewrite (handler_wrong_code _ _ _ _ _ _ H Hc), H.
    unfold session. run_loop. rewrite deliver_idle. reflexivity.
Qed.

Lemma C2_undecodable_or_not_access_request_witness :
  session (demo_handler [] demo_from) [SendDone; Connected] =
    [EEmit "radius-error"
       {[ "message" := VString (js "Error: packet too short") ]}]
  /\ session (demo_handler (datagram 4 "alice@example.com") demo_from) [SendDone] =
    [EEmit "radius-error" {[ "message" := VString code_error ]}].
Proof.
  split.
  - apply (C2_undecodable_or_not_access_request
             demo_options demo_decode demo_encode [] demo_from
             [SendDone; Connected]).
    left. eexists. reflexivity.
  - apply (C2_undecodable_or_not_access_request
             demo_options demo_decode demo_encode
             (datagram 4 "alice@example.com") demo_from [SendDone]).
    right. eexists. split; [reflexivity | discriminate].
Defined.

(** C5: for a decoded Access-Request whose username is a string that does not
    match the email pattern, the handler logs the request, emits a
    'radius-error' event, and sends an Access-Reject built from the request
    packet and the shared secret to the sender; the 'radius' event
    {username, status: false} follows once the send completes.  Nothing else
    happens, whatever the environment does: no SMTP connection is made, and
    the allow-list plays no part. *)
Theorem C5_username_not_an_email
    (opts : options) (decode : list N -> jsval -> decoded)
    (encode_response : response_args -> list N)
    (msg : list N) (from : rinfo) (pkt : packet) (u : jsstring)
    (script : list completion) :
  decode msg (secret opts) = Decoded pkt ->
  code pkt = Access_Request ->
  attributes pkt !! "User-Name" = Some (VString u) ->
  match_ u emailRegExp = false ->
  let response :=
    encode_response
      {| resp_packet := pkt; resp_code := Access_Reject;
         resp_secret := secret opts |} in
  session (handler opts decode encode_response msg from) script =
    [EConsoleLog (js "Got Access-Request for " ++ u);
     EEmit "radius-error" {[ "message" := VString email_error ]};
     ESend response 0 (Z.of_nat (List.length response)) (port from) (address from)]
    ++ (if completes_send script
        then [Got SendDone;
              EEmit "radius" {[ "username" := VString u; "status" := VBool false ]}]
        else [])
  /\ forall allow,
       handler (with_acceptDomains allow opts) decode encode_response msg from
       = handler opts decode encode_response msg from.
Proof.
  intros H Hc Hu Hm response. split.
  - rewrite (handler_access_request _ _ _ _ _ _ H Hc).
    unfold get. rewrite Hu. cbn zeta. cbn match. rewrite Hm.
    unfold session, respond, failure. run_loop. rewrite deliver_one_send. reflexivity.
  - intros allow.
    rewrite (handler_access_request opts _ _ _ _ _ H Hc).
    rewrite (handler_access_request (with_acceptDomains allow opts) _ _ _ _ pkt);
      [| exact H | exact Hc].
    unfold get. rewrite Hu. cbn zeta. cbn match. rewrite Hm. reflexivity.
Qed.

Lemma C5_username_not_an_email_witness :
  session (demo_handler (datagram 1 "bob@@x") demo_from) [Connected; SendDone] =
    [EConsoleLog (js "Got Access-Request for " ++ js "bob@@x");
     EEmit "radius-error" {[ "message" := VString email_error ]};
     sending demo_options demo_encode (request_of "bob@@x") Access_Reject demo_from;
     Got SendDone;
     EEmit "radius" {[ "username" := VString (js "bob@@x");
                       "status" := VBool false ]}]
  /\ forall allow,
       handler (with_acceptDomains allow demo_options) demo_decode demo_encode
         (datagram 1 "bob@@x") demo_from
       = demo_handler (datagram 1 "bob@@x") demo_from.
Proof.
  apply (C5_username_not_an_email demo_options demo_decode demo_encode
           (datagram 1 "bob@@x") demo_from (request_of "bob@@x") (js "bob@@x")
           [Connected; SendDone]);
    reflexivity.
Defined.

(** C3: for a request that reaches the credential check, the response that is
    sent carries Access-Accept when the SMTP server accepts the login, and
    Access-Reject when it refuses the login or the connection fails; in the
    latter cases the 'radius' event is {username, status: false} with the
    username of the request. *)
Theorem C3_verdict_decides_response
    (opts : options) (decode : list N -> jsval -> decoded)
    (encode_response : response_args -> list N)
    (msg : list N) (from : rinfo) (pkt : packet) (u : jsstring) (v : verdict) :
  decode msg (secret opts) = Decoded pkt ->
  code pkt = Access_Request ->
  attributes pkt !! "User-Name" = Some (VString u) ->
  match_ u emailRegExp = true ->
  domain_accepted (accept_list opts) (domain_of u) = true ->
  let tr := session (handler opts decode encode_response msg from)
                    (verifier_script v ++ [SendDone]) in
  let response rcode :=
    encode_response
      {| resp_packet := pkt; resp_code := rcode; resp_secret := secret opts |} in
  match v with
  | Accepted => sent tr = [response Access_Accept]
  | Rejected _ | TransportError _ _ =>
      sent tr = [response Access_Reject]
      /\ emitted "radius" tr =
         [ {[ "username" := VString u; "status" := VBool false ]} ]
  end.
Proof.
  intros H Hc Hu Hm Hd tr response. subst tr.
  rewrite (verified_session _ _ _ _ _ _ _ H Hc Hu Hm Hd).
  destruct v as [| detail | detail [|]]; try split; reflexivity.
Qed.

Lemma C3_verdict_decides_response_witness :
  let tr := session (demo_handler (datagram 1 "alice@example.com") demo_from)
                    (verifier_script (Rejected (js "535 bad credentials"))
                     ++ [SendDone]) in
  sent tr = [demo_encode {| resp_packet := request_of "alice@example.com";
                            resp_code := Access_Reject;
                            resp_secret := secret demo_options |}]
  /\ emitted "radius" tr =
     [ {[ "username" := VString (js "alice@example.com");
          "status" := VBool false ]} ].
Proof.
  apply (C3_verdict_decides_response demo_options demo_decode demo_encode
           (datagram 1 "alice@example.com") demo_from
           (request_of "alice@example.com") (js "alice@example.com")
           (Rejected (js "535 bad credentials")));
    reflexivity.
Defined.

(** C4 fails on the code: when the SMTP server accepts the login of
    alice@example.com, the 'radius' event that is emitted is
    {username, status: true}; it has no [domain] property. *)
Theorem C4_accepted_outcome_has_no_domain :
  exists o,
    emitted "radius"
      (session (demo_handler (datagram 1 "alice@example.com") demo_from)
               (verifier_script Accepted ++ [SendDone])) = [o]
    /\ o = {[ "username" := VString (js "alice@example.com");
              "status" := VBool true ]}
    /\ o !! "domain" = None.
Proof.
  eexists. split; [| split]; reflexivity.
Qed.

(** C7, as the code has it: when the login is answered, accepted or refused,
    [authenticate] first hands the result to its caller's callback and then
    closes the connection with [conn.quit()], once, provided the callback
    returns normally. *)
Theorem C7_quit_follows_result
    (username password : jsval) (opts : options) (cb : callback)
    (err : option jsstring) :
  returns (cb err (login_result username err)) = true ->
  session (authenticate username password opts cb) [Connected; LoginDone err] =
  [ENewSMTPConnection (connection_options opts); EConnect; Got Connected;
   ELogin username password; Got (LoginDone err)]
  ++ effects (cb err (login_result username err))
  ++ [EQuit].
Proof.
  intros Hret. rewrite authenticate_login_answered, effects_seq, Hret.
  reflexivity.
Qed.

Lemma C7_quit_follows_result_witness :
  session (authenticate (VString (js "alice@example.com"))
             (VString (js "hunter2")) demo_options announce)
          [Connected; LoginDone (Some (js "535 bad credentials"))] =
  [ENewSMTPConnection (connection_options demo_options); EConnect;
   Got Connected;
   ELogin (VString (js "alice@example.com")) (VString (js "hunter2"));
   Got (LoginDone (Some (js "535 bad credentials")));
   EEmit "called-back" {[ "err" := VString (js "535 bad credentials") ]};
   EQuit].
Proof.
  apply (C7_quit_follows_result (VString (js "alice@example.com"))
           (VString (js "hunter2")) demo_options announce
           (Some (js "535 bad credentials"))).
  reflexivity.
Defined.

(** C7 as stated fails: when the login of alice@example.com is accepted, the
    caller is called back with the result while the connection has not been
    closed; [conn.quit()] comes after. *)
Lemma C7_counterexample :
  session (authenticate (VString (js "alice@example.com"))
             (VString (js "hunter2")) demo_options announce)
          (verifier_script Accepted) =
  [ENewSMTPConnection (connection_options demo_options); EConnect;
   Got Connected;
   ELogin (VString (js "alice@example.com")) (VString (js "hunter2"));
   Got (LoginDone None)]
  ++ [EEmit "called-back" {[ "username" := VString (js "alice@example.com");
                             "status" := VBool true ]};
      EQuit]
  /\ List.forallb (fun e => match e with EQuit => false | _ => true end)
       [ENewSMTPConnection (connection_options demo_options); EConnect;
        Got Connected;
        ELogin (VString (js "alice@example.com")) (VString (js "hunter2"));
        Got (LoginDone None)] = true.
Proof. split; reflexivity. Qed.

(** ** Disciplined programs and the shape of their traces *)

Module DisciplineFacts.

Section Discipline.

Variable E : effect -> Prop.

Lemma disciplined_seq (p q : prog) :
  disciplined E p -> disciplined E q -> disciplined E (seq p q).
Proof. induction p; simpl; intuition. Qed.

Lemma disciplined_call_all (ps : list prog) :
  Forall (disciplined E) ps -> disciplined E (call_all ps).
Proof.
  induction 1; simpl; [exact I | apply disciplined_seq; assumption].
Qed.

Lemma task_ok_idle : task_ok E idle.
Proof. repeat split; constructor. Qed.

Lemma task_ok_park (p : parked) (t : task) :
  parked_ok E p -> task_ok E t -> task_ok E (park p t).
Proof.
  intros Hp (Hl & He & Hw). repeat split; simpl; auto.
  apply Forall_app. split; [assumption | constructor; [assumption | constructor]].
Qed.

Lemma task_ok_set_waiting (w : list parked) (t : task) :
  Forall (parked_ok E) w -> task_ok E t -> task_ok E (set_waiting w t).
Proof. intros Hw (Hl & He & _). repeat split; simpl; auto. Qed.

(** Running a disciplined program performs only effects in [E] and leaves a
    task whose callbacks are disciplined. *)
Lemma exec_disciplined (p : prog) :
  disciplined E p ->
  forall t, task_ok E t ->
  Forall E (fst (exec p t)) /\ task_ok E (snd (exec p t)).
Proof.
  induction p; simpl; intros Hp t Ht.
  - split; [constructor | assumption].
  - split; [repeat constructor; assumption | assumption].
  - destruct Hp as [He Hk]. destruct (IHp Hk t Ht) as [H1 H2].
    destruct (exec p t); simpl in *. split; [constructor |]; assumption.
  - destruct Hp as [He Hk]. destruct (IHp Hk t Ht) as [H1 H2].
    destruct (exec p t); simpl in *. split; [constructor |]; assumption.
  - destruct Hp as (He & Hcb & Hk).
    destruct (IHp2 Hk (park (PSend p1) t)) as [H1 H2];
      [apply task_ok_park; assumption |].
    destruct (exec p2 (park (PSend p1) t)); simpl in *.
    split; [constructor |]; assumption.
  - destruct Hp as [He Hk]. destruct (IHp Hk t Ht) as [H1 H2].
    destruct (exec p t); simpl in *. split; [constructor |]; assumption.
  - destruct Hp as [Hl Hk]. apply IHp; [assumption |].
    destruct Ht as (H1 & H2 & H3). repeat split; simpl; auto.
    apply Forall_app. split; [assumption | constructor; [assumption | constructor]].
  - destruct Hp as [Hl Hk]. apply IHp; [assumption |].
    destruct Ht as (H1 & H2 & H3). repeat split; simpl; auto.
    apply Forall_app. split; [assumption | constructor; [assumption | constructor]].
  - destruct Hp as (He & Hcb & Hk).
    destruct (IHp2 Hk (park (PConnect p1) t)) as [H1 H2];
      [apply task_ok_park; assumption |].
    destruct (exec p2 (park (PConnect p1) t)); simpl in *.
    split; [constructor |]; assumption.
  - destruct Hp as (He & Hcb & Hk).
    destruct (IHp Hk (park (PLogin cb) t)) as [H1 H2];
      [apply task_ok_park; assumption |].
    destruct (exec p (park (PLogin cb) t)); simpl in *.
    split; [constructor |]; assumption.
  - destruct Hp as [He Hk]. destruct (IHp Hk t Ht) as [H1 H2].
    destruct (exec p t); simpl in *. split; [constructor |]; assumption.
Qed.

Lemma next_send_ok (w : list parked) (cb : prog) (rest : list parked) :
  Forall (parked_ok E) w -> next_send w = Some (cb, rest) ->
  (exists o, cb = Emit "radius" o Return) /\ Forall (parked_ok E) rest.
Proof.
  revert cb rest. induction w as [|p w IH]; intros cb rest Hw Hn;
    [discriminate |].
  inversion Hw as [|? ? Hp Hw']; subst.
  destruct p; simpl in Hn.
  - injection Hn as <- <-. split; assumption.
  - destruct (next_send w) as [[cb' rest']|]; [| discriminate].
    injection Hn as <- <-. destruct (IH _ _ Hw' eq_refl) as [H1 H2].
    split; [assumption | constructor; assumption].
  - destruct (next_send w) as [[cb' rest']|]; [| discriminate].
    injection Hn as <- <-. destruct (IH _ _ Hw' eq_refl) as [H1 H2].
    split; [assumption | constructor; assumption].
Qed.

Lemma next_connect_ok (w : list parked) (cb : prog) (rest : list parked) :
  Forall (parked_ok E) w -> next_connect w = Some (cb, rest) ->
  disciplined E cb /\ Forall (parked_ok E) rest.
Proof.
  revert cb rest. induction w as [|p w IH]; intros cb rest Hw Hn;
    [discriminate |].
  inversion Hw as [|? ? Hp Hw']; subst.
  destruct p; simpl in Hn.
  - destruct (next_connect w) as [[cb' rest']|]; [| discriminate].
    injection Hn as <- <-. destruct (IH _ _ Hw' eq_refl) as [H1 H2].
    split; [assumption | constructor; assumption].
  - injection Hn as <- <-. split; assumption.
  - destruct (next_connect w) as [[cb' rest']|]; [| discriminate].
    injection Hn as <- <-. destruct (IH _ _ Hw' eq_refl) as [H1 H2].
    split; [assumption | constructor; assumption].
Qed.

Lemma next_login_ok (w : list parked) (cb : option jsstring -> prog)
    (rest : list parked) :
  Forall (parked_ok E) w -> next_login w = Some (cb, rest) ->
  (forall err, disciplined E (cb err)) /\ Forall (parked_ok E) rest.
Proof.
  revert cb rest. induction w as [|p w IH]; intros cb rest Hw Hn;
    [discriminate |].
  inversion Hw as [|? ? Hp Hw']; subst.
  destruct p; simpl in Hn.
  - destruct (next_login w) as [[cb' rest']|]; [| discriminate].
    injection Hn as <- <-. destruct (IH _ _ Hw' eq_refl) as [H1 H2].
    split; [assumption | constructor; assumption].
  - destruct (next_login w) as [[cb' rest']|]; [| discriminate].
    injection Hn as <- <-. destruct (IH _ _ Hw' eq_refl) as [H1 H2].
    split; [assumption | constructor; assumption].
  - injection Hn as <- <-. split; assumption.
Qed.

Lemma shaped_effects (es tr : list effect) :
  Forall E es -> shaped E tr -> shaped E (es ++ tr).
Proof.
  induction 1; simpl; intros Htr; [assumption |].
  apply shaped_effect; auto.
Qed.

(** A callback run on a completion that is not the end of a send. *)
Lemma callback_shaped (c : completion) (p : prog) (t : task) :
  c <> SendDone -> disciplined E p -> task_ok E t ->
  let r := let (es, t') := exec p t in (Got c :: es, t') in
  task_ok E (snd r) /\ forall tr, shaped E tr -> shaped E (fst r ++ tr).
Proof.
  intros Hc Hp Ht. destruct (exec_disciplined p Hp t Ht) as [H1 H2].
  destruct (exec p t) as [es t']. simpl in *.
  split; [assumption |]. intros tr Htr.
  apply shaped_got; [assumption |]. apply shaped_effects; assumption.
Qed.

Lemma react_shaped (c : completion) (t : task) :
  task_ok E t ->
  task_ok E (snd (react c t))
  /\ forall tr, shaped E tr -> shaped E (fst (react c t) ++ tr).
Proof.
  intros Ht. pose proof Ht as (Hl & He & Hw).
  destruct c; simpl.
  - destruct (next_send (waiting t)) as [[cb rest]|] eqn:Hn; [| auto].
    destruct (next_send_ok _ _ _ Hw Hn) as [[o ->] Hrest]. simpl.
    split; [apply task_ok_set_waiting; assumption |].
    intros tr Htr. apply shaped_done. assumption.
  - destruct (next_connect (waiting t)) as [[cb rest]|] eqn:Hn; [| auto].
    destruct (next_connect_ok _ _ _ Hw Hn) as [Hcb Hrest].
    apply callback_shaped; [discriminate | assumption |].
    apply task_ok_set_waiting; assumption.
  - destruct (next_login (waiting t)) as [[cb rest]|] eqn:Hn; [| auto].
    destruct (next_login_ok _ _ _ Hw Hn) as [Hcb Hrest].
    apply callback_shaped; [discriminate | apply Hcb |].
    apply task_ok_set_waiting; assumption.
  - destruct (error_listeners t) as [|l ls] eqn:Hls; [auto |].
    apply (callback_shaped (SmtpError err)
             (call_all (List.map (fun l0 => l0 err) (l :: ls))) t);
      [discriminate | | assumption].
    apply disciplined_call_all. apply List.Forall_map.
    eapply List.Forall_impl; [| exact He]. intros l0 H0. apply H0.
  - destruct (log_listeners t) as [|l ls] eqn:Hls; [auto |].
    apply (callback_shaped (SmtpLog iso type message)
             (call_all (List.map (fun l0 => l0 iso type message) (l :: ls))) t);
      [discriminate | | assumption].
    apply disciplined_call_all. apply List.Forall_map.
    eapply List.Forall_impl; [| exact Hl]. intros l0 H0. apply H0.
Qed.

Lemma deliver_shaped (script : list completion) (t : task) :
  task_ok E t -> shaped E (deliver script t).
Proof.
  revert t. induction script as [|c script IH]; intros t Ht; simpl.
  - constructor.
  - destruct (react_shaped c t Ht) as [H1 H2].
    destruct (react c t) as [es t']. simpl in *. apply H2. apply IH. exact H1.
Qed.

(** The trace of a disciplined program has the shape [shaped E], whatever the
    environment does. *)
Lemma session_shaped (p : prog) (script : list completion) :
  disciplined E p -> shaped E (session p script).
Proof.
  intros Hp. unfold session.
  destruct (exec_disciplined p Hp idle task_ok_idle) as [H1 H2].
  destruct (exec p idle) as [es t]. simpl in *.
  apply shaped_effects; [assumption |]. apply deliver_shaped. assumption.
Qed.

End Discipline.

End DisciplineFacts.
Export DisciplineFacts.

Module TraceFacts.

(** In a trace free of stray 'radius' events, every 'radius' event comes
    directly after the completion of a send. *)
Lemma shaped_outcome (tr : list effect) :
  shaped not_outcome tr ->
  forall pre o post,
    tr = pre ++ EEmit "radius" o :: post ->
    exists pre', pre = pre' ++ [Got SendDone].
Proof.
  induction 1 as [| e tr He _ IH | c tr Hc _ IH | o' tr _ IH];
    intros pre o post Heq.
  - destruct pre; discriminate.
  - destruct pre as [|x pre]; simpl in Heq.
    + injection Heq as Hx _. subst e. simpl in He. congruence.
    + injection Heq as _ Heq. destruct (IH _ _ _ Heq) as [pre' ->].
      exists (x :: pre'). reflexivity.
  - destruct pre as [|x pre]; simpl in Heq; [discriminate |].
    injection Heq as _ Heq. destruct (IH _ _ _ Heq) as [pre' ->].
    exists (x :: pre'). reflexivity.
  - destruct pre as [|x [|y pre]]; simpl in Heq; [discriminate | |].
    + injection Heq as Hx _ _. subst x. exists []. reflexivity.
    + injection Heq as Hx Hy Heq. subst x y.
      destruct (IH _ _ _ Heq) as [pre' ->].
      exists (Got SendDone :: EEmit "radius" o' :: pre'). reflexivity.
Qed.

Lemma shaped_no_uncaught (tr : list effect) :
  shaped not_uncaught tr -> forall ex, ~ In (EUncaught ex) tr.
Proof.
  induction 1 as [| e tr He _ IH | c tr Hc _ IH | o' tr _ IH];
    intros ex; simpl.
  - tauto.
  - intros [-> | Hin]; [exact He | exact (IH _ Hin)].
  - intros [Heq | Hin]; [discriminate | exact (IH _ Hin)].
  - intros [Heq | [Heq | Hin]]; [discriminate | discriminate | exact (IH _ Hin)].
Qed.

Lemma parked_sends_app (w1 w2 : list parked) :
  parked_sends (w1 ++ w2) = (parked_sends w1 + parked_sends w2)%nat.
Proof.
  induction w1 as [|p w1 IH]; simpl; [reflexivity |].
  destruct p; simpl; rewrite IH; reflexivity.
Qed.

(** Running a program puts as many sends in flight as it parks callbacks for. *)
Lemma exec_balanced (p : prog) (t : task) :
  exists k,
    parked_sends (waiting (snd (exec p t))) = (parked_sends (waiting t) + k)%nat
    /\ forall n tr,
         balanced n (fst (exec p t) ++ tr) = balanced (n + k) tr.
Proof.
  revert t. induction p; intros t; simpl.
  - exists O. split; [lia |]. intros n tr. rewrite Nat.add_0_r. reflexivity.
  - exists O. split; [lia |]. intros n tr. rewrite Nat.add_0_r. reflexivity.
  - destruct (IHp t) as (k & H1 & H2). destruct (exec p t); simpl in *.
    exists k. auto.
  - destruct (IHp t) as (k & H1 & H2). destruct (exec p t); simpl in *.
    exists k. auto.
  - destruct (IHp2 (park (PSend p1) t)) as (k & H1 & H2).
    destruct (exec p2 (park (PSend p1) t)); simpl in *.
    rewrite parked_sends_app in H1. simpl in H1.
    exists (S k). split; [lia |]. intros n tr. rewrite H2. f_equal. lia.
  - destruct (IHp t) as (k & H1 & H2). destruct (exec p t); simpl in *.
    exists k. auto.
  - match goal with |- context [exec p ?t'] => exact (IHp t') end.
  - match goal with |- context [exec p ?t'] => exact (IHp t') end.
  - destruct (IHp2 (park (PConnect p1) t)) as (k & H1 & H2).
    destruct (exec p2 (park (PConnect p1) t)); simpl in *.
    rewrite parked_sends_app in H1. simpl in H1.
    exists k. split; [lia | assumption].
  - destruct (IHp (park (PLogin cb) t)) as (k & H1 & H2).
    destruct (exec p (park (PLogin cb) t)); simpl in *.
    rewrite parked_sends_app in H1. simpl in H1.
    exists k. split; [lia | assumption].
  - destruct (IHp t) as (k & H1 & H2). destruct (exec p t); simpl in *.
    exists k. auto.
Qed.

Lemma next_send_count (w : list parked) (cb : prog) (rest : list parked) :
  next_send w = Some (cb, rest) -> parked_sends w = S (parked_sends rest).
Proof.
  revert cb rest. induction w as [|p w IH]; intros cb rest Hn; [discriminate |].
  destruct p; simpl in *.
  - injection Hn as _ <-. reflexivity.
  - destruct (next_send w) as [[cb' rest']|]; [| discriminate].
    injection Hn as _ <-. simpl. eauto.
  - destruct (next_send w) as [[cb' rest']|]; [| discriminate].
    injection Hn as _ <-. simpl. eauto.
Qed.

Lemma next_connect_count (w : list parked) (cb : prog) (rest : list parked) :
  next_connect w = Some (cb, rest) -> parked_sends w = parked_sends rest.
Proof.
  revert cb rest. induction w as [|p w IH]; intros cb rest Hn; [discriminate |].
  destruct p; simpl in *.
  - destruct (next_connect w) as [[cb' rest']|]; [| discriminate].
    injection Hn as _ <-. simpl. f_equal. eauto.
  - injection Hn as _ <-. reflexivity.
  - destruct (next_connect w) as [[cb' rest']|]; [| discriminate].
    injection Hn as _ <-. simpl. eauto.
Qed.

Lemma next_login_count (w : list parked) (cb : option jsstring -> prog)
    (rest : list parked) :
  next_login w = Some (cb, rest) -> parked_sends w = parked_sends rest.
Proof.
  revert cb rest. induction w as [|p w IH]; intros cb rest Hn; [discriminate |].
  destruct p; simpl in *.
  - destruct (next_login w) as [[cb' rest']|]; [| discriminate].
    injection Hn as _ <-. simpl. f_equal. eauto.
  - destruct (next_login w) as [[cb' rest']|]; [| discriminate].
    injection Hn as _ <-. simpl. eauto.
  - injection Hn as _ <-. reflexivity.
Qed.

(** A callback run on a completion [c], which takes [d] sends out of flight. *)
Lemma callback_balanced (c : completion) (p : prog) (t : task) (n : nat) :
  parked_sends (waiting t) = n ->
  let r := let (es, t') := exec p t in (Got c :: es, t') in
  forall tr,
    balanced (parked_sends (waiting (snd r))) tr = true ->
    balanced (match c with SendDone => S n | _ => n end) (fst r ++ tr) = true.
Proof.
  intros Hn. destruct (exec_balanced p t) as (k & H1 & H2).
  destruct (exec p t) as [es t']. simpl in *. intros tr Htr.
  rewrite H1, Hn in Htr.
  destruct c; simpl; rewrite H2; exact Htr.
Qed.

Lemma react_balanced (c : completion) (t : task) (tr : list effect) :
  balanced (parked_sends (waiting (snd (react c t)))) tr = true ->
  balanced (parked_sends (waiting t)) (fst (react c t) ++ tr) = true.
Proof.
  destruct c; simpl.
  - destruct (next_send (waiting t)) as [[cb rest]|] eqn:Hn; [| auto].
    rewrite (next_send_count _ _ _ Hn).
    apply (callback_balanced SendDone cb (set_waiting rest t)). reflexivity.
  - destruct (next_connect (waiting t)) as [[cb rest]|] eqn:Hn; [| auto].
    rewrite (next_connect_count _ _ _ Hn).
    apply (callback_balanced Connected cb (set_waiting rest t)). reflexivity.
  - destruct (next_login (waiting t)) as [[cb rest]|] eqn:Hn; [| auto].
    rewrite (next_login_count _ _ _ Hn).
    apply (callback_balanced (LoginDone err) (cb err) (set_waiting rest t)).
    reflexivity.
  - destruct (error_listeners t) as [|l ls]; [auto |].
    apply (callback_balanced (SmtpError err)
             (call_all (List.map (fun l0 => l0 err) (l :: ls))) t).
    reflexivity.
  - destruct (log_listeners t) as [|l ls]; [auto |].
    apply (callback_balanced (SmtpLog iso type message)
             (call_all (List.map (fun l0 => l0 iso type message) (l :: ls))) t).
    reflexivity.
Qed.

Lemma deliver_balanced (script : list completion) (t : task) :
  balanced (parked_sends (waiting t)) (deliver script t) = true.
Proof.
  revert t. induction script as [|c script IH]; intros t; simpl;
    [reflexivity |].
  pose proof (react_balanced c t (deliver script (snd (react c t))) (IH _)) as H.
  destruct (react c t) as [es t']. exact H.
Qed.

(** In every session, each completion of a send follows a send of its own. *)
Lemma session_balanced (p : prog) (script : list completion) :
  balanced 0 (session p script) = true.
Proof.
  unfold session. destruct (exec_balanced p idle) as (k & H1 & H2).
  destruct (exec p idle) as [es t]. simpl in *.
  rewrite H2, <- H1. apply deliver_balanced.
Qed.

End TraceFacts.
Export TraceFacts.

(** ** The handler is disciplined *)

Module HandlerDiscipline.

Section HandlerDiscipline.

Variable E : effect -> Prop.
Hypothesis E_plain : forall e, plain e -> E e.
Hypothesis E_error : forall o, E (EEmit "radius-error" o).

Variable opts : options.
Variable decode : list N -> jsval -> decoded.
Variable encode_response : response_args -> list N.

Lemma respond_disciplined (pkt : packet) (rcode : jsstring) (from : rinfo)
    (o : object) :
  disciplined E
    (respond opts encode_response pkt rcode from (Emit "radius" o Return)).
Proof.
  unfold respond. simpl. split; [apply E_plain; exact I |].
  split; [eexists; reflexivity | exact I].
Qed.

(** The reply function, on anything [authenticate] calls it back with. *)
Lemma reply_disciplined (pkt : packet) (from : rinfo) (username : jsval)
    (err : option jsstring) (obj : option object) :
  is_Some err \/ is_Some obj ->
  disciplined E (reply opts encode_response pkt from username err obj).
Proof.
  intros H. unfold reply. destruct err as [e|].
  - apply respond_disciplined.
  - destruct obj as [o|].
    + apply respond_disciplined.
    + destruct H as [[? H] | [? H]]; discriminate.
Qed.

Lemma authenticate_disciplined (username password : jsval) (cb : callback) :
  (forall err obj, is_Some err \/ is_Some obj -> disciplined E (cb err obj)) ->
  disciplined E (authenticate username password opts cb).
Proof.
  intros Hcb. unfold authenticate. simpl.
  split; [apply E_plain; exact I |].
  split; [intros iso type message; split; [apply E_plain |]; exact I |].
  split; [intros err; apply Hcb; left; eexists; reflexivity |].
  split; [apply E_plain; exact I |].
  split; [| exact I].
  split; [apply E_plain; exact I |].
  split; [| exact I].
  intros err. apply disciplined_seq.
  - destruct err; apply Hcb; [left | right]; eexists; reflexivity.
  - simpl. split; [apply E_plain |]; exact I.
Qed.

(** The handler is disciplined as long as the exception it may throw is
    among the effects [E] allows, or the username is a string. *)
Lemma handler_disciplined (msg : list N) (from : rinfo) :
  (E (EUncaught TypeError)
   \/ forall pkt, decode msg (secret opts) = Decoded pkt ->
                  exists u, get (attributes pkt) "User-Name" = VString u) ->
  disciplined E (handler opts decode encode_response msg from).
Proof.
  intros Hthrow. unfold handler.
  destruct (decode msg (secret opts)) as [ex | pkt] eqn:Hd.
  - simpl. split; [apply E_error | exact I].
  - destruct (negb (JsString.eqb (code pkt) Access_Request)).
    + simpl. split; [apply E_error | exact I].
    + cbn zeta. cbn [disciplined]. split; [apply E_plain; exact I |].
      destruct (get (attributes pkt) "User-Name") as [| | b | u | shown] eqn:Hu;
        try (destruct Hthrow as [Ht | Hs];
             [exact Ht | destruct (Hs pkt eq_refl) as [u' Hu']; congruence]).
      destruct (negb (match_ u emailRegExp)).
      * cbn [disciplined]. split; [apply E_error |]. apply respond_disciplined.
      * destruct (Nat.eqb _ 0).
        -- cbn [disciplined]. split; [apply E_error |].
           apply respond_disciplined.
        -- apply authenticate_disciplined. intros err obj H.
           apply reply_disciplined. exact H.
Qed.

End HandlerDiscipline.

End HandlerDiscipline.
Export HandlerDiscipline.

(** C8: whatever the datagram and whatever the environment does, every
    'radius' event the handler emits comes directly after the completion of a
    send, and every completion of a send follows a send of its own: the
    event is never emitted before the response has been sent. *)
Theorem C8_outcome_only_after_send
    (opts : options) (decode : list N -> jsval -> decoded)
    (encode_response : response_args -> list N)
    (msg : list N) (from : rinfo) (script : list completion) :
  let tr := session (handler opts decode encode_response msg from) script in
  (forall pre o post,
     tr = pre ++ EEmit "radius" o :: post ->
     exists pre', pre = pre' ++ [Got SendDone])
  /\ balanced 0 tr = true.
Proof.
  intros tr. split; [| apply session_balanced].
  apply shaped_outcome. apply session_shaped.
  apply handler_disciplined.
  - intros e He. destruct e; simpl in *; tauto.
  - intros o. simpl. discriminate.
  - left. exact I.
Qed.

Lemma handler_not_a_string
    (opts : options) (decode : list N -> jsval -> decoded)
    (encode_response : response_args -> list N)
    (msg : list N) (from : rinfo) (pkt : packet) (script : list completion) :
  decode msg (secret opts) = Decoded pkt ->
  code pkt = Access_Request ->
  (forall u, get (attributes pkt) "User-Name" <> VString u) ->
  session (handler opts decode encode_response msg from) script =
  [EConsoleLog (js "Got Access-Request for "
                ++ to_string (get (attributes pkt) "User-Name"));
   EUncaught TypeError].
Proof.
  intros H Hc Hu. rewrite (handler_access_request _ _ _ _ _ _ H Hc).
  cbn zeta. unfold session.
  destruct (get (attributes pkt) "User-Name") as [| | b | u | shown];
    try (run_loop; rewrite deliver_idle; reflexivity).
  contradiction (Hu u). reflexivity.
Qed.

(** C10: for a decoded Access-Request with no User-Name attribute the handler
    logs the request and throws a TypeError; it emits no event and sends no
    response.  Over all behaviours of the environment, the handler throws
    nothing exactly when the User-Name attribute is a string. *)
Theorem C10_username_must_be_a_string
    (opts : options) (decode : list N -> jsval -> decoded)
    (encode_response : response_args -> list N)
    (msg : list N) (from : rinfo) (pkt : packet) :
  decode msg (secret opts) = Decoded pkt ->
  code pkt = Access_Request ->
  (attributes pkt !! "User-Name" = None ->
   forall script,
     session (handler opts decode encode_response msg from) script =
     [EConsoleLog (js "Got Access-Request for undefined");
      EUncaught TypeError])
  /\ forall script,
       (exists u, get (attributes pkt) "User-Name" = VString u) <->
       (forall ex,
          ~ In (EUncaught ex)
               (session (handler opts decode encode_response msg from) script)).
Proof.
  intros H Hc. split.
  - intros Hnone script.
    assert (Hget : get (attributes pkt) "User-Name" = VUndefined)
      by (unfold get; rewrite Hnone; reflexivity).
    rewrite (handler_not_a_string _ _ _ _ _ _ script H Hc).
    + rewrite Hget. reflexivity.
    + intros u. rewrite Hget. discriminate.
  - intros script. split.
    + intros [u Hu]. apply shaped_no_uncaught. apply session_shaped.
      apply handler_disciplined.
      * intros e He. destruct e; simpl in *; tauto.
      * intros o. exact I.
      * right. intros pkt' Hd. rewrite H in Hd. injection Hd as <-. eauto.
    + intros Hno.
      destruct (get (attributes pkt) "User-Name") as [| | b | u | shown] eqn:Hu;
        try (exfalso; apply (Hno TypeError);
             rewrite (handler_not_a_string _ _ _ _ _ _ script H Hc);
             [right; left; reflexivity | rewrite Hu; discriminate]).
      exists u. reflexivity.
Qed.

Lemma C10_username_must_be_a_string_witness :
  (forall script,
     session (demo_handler [1%N] demo_from) script =
     [EConsoleLog (js "Got Access-Request for undefined");
      EUncaught TypeError])
  /\ forall ex,
       ~ In (EUncaught ex)
            (session (demo_handler (datagram 1 "alice@example.com") demo_from)
                     [Connected; LoginDone None; SendDone]).
Proof.
  split.
  - intros script.
    apply (C10_username_must_be_a_string demo_options demo_decode demo_encode
             [1%N] demo_from
             {| code := Access_Request; identifier := 1; attributes := ∅ |});
      reflexivity.
  - apply (C10_username_must_be_a_string demo_options demo_decode demo_encode
             (datagram 1 "alice@example.com") demo_from
             (request_of "alice@example.com"));
      [reflexivity | reflexivity |].
    eexists. reflexivity.
Defined.

(** ** The options object as shared state *)

Module SharedFacts.

Local Ltac agreed := split; [reflexivity | split; [reflexivity | assumption]].

Lemma agrees_seq (o : options) (jp jq : jsprog) (p q : prog) :
  agrees o jp p -> agrees o jq q -> agrees o (jseq jp jq) (seq p q).
Proof.
  intros Hp Hq. revert p Hp.
  induction jp as [ | ex | line k IH | event payload k IH
                  | buf offset len to_port to_address cb _ k IH
                  | cfg k IH | l _ k IH | l _ k IH | cb _ k IH
                  | user pass cb _ k IH | k IH | k IH | f k IH ];
    intros p Hp; cbn [jseq agrees] in *.
  - destruct p; cbn in Hp |- *; try contradiction. exact Hq.
  - destruct p; cbn in Hp |- *; try contradiction. exact Hp.
  - destruct p; cbn in Hp |- *; try contradiction.
    destruct Hp as [? Hk]. split; [assumption | apply IH; exact Hk].
  - destruct p; cbn in Hp |- *; try contradiction.
    destruct Hp as (? & ? & Hk). repeat split; try assumption. apply IH; exact Hk.
  - destruct p; cbn in Hp |- *; try contradiction.
    destruct Hp as (? & ? & ? & ? & ? & ? & Hk).
    repeat split; try assumption. apply IH; exact Hk.
  - destruct p; cbn in Hp |- *; try contradiction.
    destruct Hp as [? Hk]. split; [assumption | apply IH; exact Hk].
  - destruct p; cbn in Hp |- *; try contradiction.
    destruct Hp as [? Hk]. split; [assumption | apply IH; exact Hk].
  - destruct p; cbn in Hp |- *; try contradiction.
    destruct Hp as [? Hk]. split; [assumption | apply IH; exact Hk].
  - destruct p; cbn in Hp |- *; try contradiction.
    destruct Hp as [? Hk]. split; [assumption | apply IH; exact Hk].
  - destruct p; cbn in Hp |- *; try contradiction.
    destruct Hp as (? & ? & ? & Hk). repeat split; try assumption. apply IH; exact Hk.
  - destruct p; cbn in Hp |- *; try contradiction. apply IH; exact Hp.
  - apply IH. exact Hp.
  - contradiction.
Qed.


(** A program that agrees with [p] performs the effects of [p], leaves the
    [options] object as it was, and parks callbacks that agree with those
    [p] parks. *)
Lemma jexec_agrees (o : options) (jp : jsprog) (p : prog) (jt : jtask)
    (t : task) :
  agrees o jp p -> task_agrees o jt t ->
  snd (fst (jexec jp o jt)) = o
  /\ fst (fst (jexec jp o jt)) = fst (exec p t)
  /\ task_agrees o (snd (jexec jp o jt)) (snd (exec p t)).
Proof.
  revert p jt t.
  induction jp as [ | ex | line k IH | event payload k IH
                  | buf offset len to_port to_address cb _ k IH
                  | cfg k IH | l _ k IH | l _ k IH | cb _ k IH
                  | user pass cb _ k IH | k IH | k IH | f k IH ];
    intros p jt t Hp Ht; cbn [agrees] in Hp;
    [ destruct p; try contradiction; cbn [jexec exec] .. | | ].
  - agreed.
  - subst. agreed.
  - destruct Hp as [-> Hk]. specialize (IH _ _ _ Hk Ht).
    destruct (jexec k o jt) as [[es o'] jt'], (exec p t) as [es' t'].
    cbn in IH |- *. destruct IH as (-> & -> & ?). agreed.
  - destruct Hp as (-> & -> & Hk). specialize (IH _ _ _ Hk Ht).
    destruct (jexec k o jt) as [[es o'] jt'], (exec p t) as [es' t'].
    cbn in IH |- *. destruct IH as (-> & -> & ?). agreed.
  - destruct Hp as (-> & -> & -> & -> & -> & Hcb & Hk).
    assert (Hpark : task_agrees o (jpark (JPSend cb) jt) (park (PSend p1) t)).
    { destruct Ht as (? & ? & Hw). repeat split; try assumption.
      cbn. apply Forall2_app; [exact Hw | constructor; [exact Hcb | constructor]]. }
    specialize (IH _ _ _ Hk Hpark).
    destruct (jexec k o _) as [[es o'] jt'], (exec p2 _) as [es' t'].
    cbn in IH |- *. destruct IH as (-> & -> & ?). agreed.
  - destruct Hp as (-> & Hk). specialize (IH _ _ _ Hk Ht).
    destruct (jexec k o jt) as [[es o'] jt'], (exec p t) as [es' t'].
    cbn in IH |- *. destruct IH as (-> & -> & ?). agreed.
  - destruct Hp as (Hl & Hk). apply IH; [exact Hk |].
    destruct Ht as (Hlog & ? & ?). repeat split; try assumption.
    cbn. apply Forall2_app; [exact Hlog | constructor; [exact Hl | constructor]].
  - destruct Hp as (Hl & Hk). apply IH; [exact Hk |].
    destruct Ht as (? & Herr & ?). repeat split; try assumption.
    cbn. apply Forall2_app; [exact Herr | constructor; [exact Hl | constructor]].
  - destruct Hp as (Hcb & Hk).
    assert (Hpark : task_agrees o (jpark (JPConnect cb) jt) (park (PConnect p1) t)).
    { destruct Ht as (? & ? & Hw). repeat split; try assumption.
      cbn. apply Forall2_app; [exact Hw | constructor; [exact Hcb | constructor]]. }
    specialize (IH _ _ _ Hk Hpark).
    destruct (jexec k o _) as [[es o'] jt'], (exec p2 _) as [es' t'].
    cbn in IH |- *. destruct IH as (-> & -> & ?). agreed.
  - destruct Hp as (-> & -> & Hcb & Hk).
    assert (Hpark : task_agrees o (jpark (JPLogin cb) jt) (park (PLogin cb0) t)).
    { destruct Ht as (? & ? & Hw). repeat split; try assumption.
      cbn. apply Forall2_app; [exact Hw | constructor; [exact Hcb | constructor]]. }
    specialize (IH _ _ _ Hk Hpark).
    destruct (jexec k o _) as [[es o'] jt'], (exec p _) as [es' t'].
    cbn in IH |- *. destruct IH as (-> & -> & ?). agreed.
  - specialize (IH _ _ _ Hp Ht).
    destruct (jexec k o jt) as [[es o'] jt'], (exec p t) as [es' t'].
    cbn in IH |- *. destruct IH as (-> & -> & ?). agreed.
  - cbn [jexec]. apply IH; assumption.
  - contradiction.
Qed.

Lemma jnext_send_agrees (o : options) (jw : list jparked) (w : list parked) :
  Forall2 (parked_agrees o) jw w ->
  match jnext_send jw, next_send w with
  | Some (jcb, jrest), Some (cb, rest) =>
      agrees o jcb cb /\ Forall2 (parked_agrees o) jrest rest
  | None, None => True
  | _, _ => False
  end.
Proof.
  induction 1 as [|jp p jw w Hp Hw IH]; cbn [jnext_send next_send];
    [exact I |].
  destruct jp, p; cbn in Hp; try contradiction.
  - split; assumption.
  - destruct (jnext_send jw) as [[jcb jrest]|], (next_send w) as [[cb' rest]|];
      try contradiction; [| exact I].
    destruct IH. split; [assumption | constructor; assumption].
  - destruct (jnext_send jw) as [[jcb jrest]|], (next_send w) as [[cb' rest]|];
      try contradiction; [| exact I].
    destruct IH. split; [assumption | constructor; assumption].
Qed.

Lemma jnext_connect_agrees (o : options) (jw : list jparked)
    (w : list parked) :
  Forall2 (parked_agrees o) jw w ->
  match jnext_connect jw, next_connect w with
  | Some (jcb, jrest), Some (cb, rest) =>
      agrees o jcb cb /\ Forall2 (parked_agrees o) jrest rest
  | None, None => True
  | _, _ => False
  end.
Proof.
  induction 1 as [|jp p jw w Hp Hw IH]; cbn [jnext_connect next_connect];
    [exact I |].
  destruct jp, p; cbn in Hp; try contradiction.
  - destruct (jnext_connect jw) as [[jcb jrest]|],
      (next_connect w) as [[cb' rest]|]; try contradiction; [| exact I].
    destruct IH. split; [assumption | constructor; assumption].
  - split; assumption.
  - destruct (jnext_connect jw) as [[jcb jrest]|],
      (next_connect w) as [[cb' rest]|]; try contradiction; [| exact I].
    destruct IH. split; [assumption | constructor; assumption].
Qed.

Lemma jnext_login_agrees (o : options) (jw : list jparked) (w : list parked) :
  Forall2 (parked_agrees o) jw w ->
  match jnext_login jw, next_login w with
  | Some (jcb, jrest), Some (cb, rest) =>
      (forall err, agrees o (jcb err) (cb err))
      /\ Forall2 (parked_agrees o) jrest rest
  | None, None => True
  | _, _ => False
  end.
Proof.
  induction 1 as [|jp p jw w Hp Hw IH]; cbn [jnext_login next_login];
    [exact I |].
  destruct jp, p; cbn in Hp; try contradiction.
  - destruct (jnext_login jw) as [[jcb jrest]|],
      (next_login w) as [[cb' rest]|]; try contradiction; [| exact I].
    destruct IH. split; [assumption | constructor; assumption].
  - destruct (jnext_login jw) as [[jcb jrest]|],
      (next_login w) as [[cb' rest]|]; try contradiction; [| exact I].
    destruct IH. split; [assumption | constructor; assumption].
  - split; assumption.
Qed.

Lemma jcall_all_agrees (o : options) (jps : list jsprog) (ps : list prog) :
  Forall2 (agrees o) jps ps -> agrees o (jcall_all jps) (call_all ps).
Proof.
  induction 1 as [|jp p jps ps Hp _ IH]; cbn; [exact I |].
  apply agrees_seq; assumption.
Qed.

Lemma jrun_callback_agrees (c : completion) (o : options) (jp : jsprog)
    (p : prog) (jt : jtask) (t : task) :
  agrees o jp p -> task_agrees o jt t ->
  let r := let (es, t') := exec p t in (Got c :: es, t') in
  snd (fst (jrun_callback c jp o jt)) = o
  /\ fst (fst (jrun_callback c jp o jt)) = fst r
  /\ task_agrees o (snd (jrun_callback c jp o jt)) (snd r).
Proof.
  intros Hp Ht. pose proof (jexec_agrees o jp p jt t Hp Ht) as H.
  unfold jrun_callback. cbn zeta.
  destruct (jexec jp o jt) as [[es o'] jt'], (exec p t) as [es' t'].
  cbn in H |- *. destruct H as (-> & -> & ?). agreed.
Qed.

(** A completion delivered to a task that agrees with [t] does what it does
    to [t], and leaves the [options] object as it was. *)
Lemma jreact_agrees (c : completion) (o : options) (jt : jtask) (t : task) :
  task_agrees o jt t ->
  snd (fst (jreact c o jt)) = o
  /\ fst (fst (jreact c o jt)) = fst (react c t)
  /\ task_agrees o (snd (jreact c o jt)) (snd (react c t)).
Proof.
  intros Ht. pose proof Ht as (Hlog & Herr & Hw).
  destruct c as [ | | err | err | iso type message]; cbn [jreact react].
  - pose proof (jnext_send_agrees o _ _ Hw) as H.
    destruct (jnext_send (jwaiting jt)) as [[jcb jrest]|],
      (next_send (waiting t)) as [[cb rest]|]; try contradiction.
    + destruct H as [Hcb Hrest].
      apply (jrun_callback_agrees SendDone o jcb cb); [exact Hcb |].
      repeat split; assumption.
    + agreed.
  - pose proof (jnext_connect_agrees o _ _ Hw) as H.
    destruct (jnext_connect (jwaiting jt)) as [[jcb jrest]|],
      (next_connect (waiting t)) as [[cb rest]|]; try contradiction.
    + destruct H as [Hcb Hrest].
      apply (jrun_callback_agrees Connected o jcb cb); [exact Hcb |].
      repeat split; assumption.
    + agreed.
  - pose proof (jnext_login_agrees o _ _ Hw) as H.
    destruct (jnext_login (jwaiting jt)) as [[jcb jrest]|],
      (next_login (waiting t)) as [[cb rest]|]; try contradiction.
    + destruct H as [Hcb Hrest].
      apply (jrun_callback_agrees (LoginDone err) o (jcb err) (cb err));
        [apply Hcb |].
      repeat split; assumption.
    + agreed.
  - destruct Herr as [|jl l jls ls Hl Hls]; [agreed |].
    apply (jrun_callback_agrees (SmtpError err) o
             (jcall_all (List.map (fun l => l err) (jl :: jls)))
             (call_all (List.map (fun l => l err) (l :: ls)))).
    + apply jcall_all_agrees. cbn [List.map]. constructor; [apply Hl |].
      clear - Hls. induction Hls; cbn; constructor; auto.
    + exact Ht.
  - destruct Hlog as [|jl l jls ls Hl Hls]; [agreed |].
    apply (jrun_callback_agrees (SmtpLog iso type message) o
             (jcall_all (List.map (fun l => l iso type message) (jl :: jls)))
             (call_all (List.map (fun l => l iso type message) (l :: ls)))).
    + apply jcall_all_agrees. cbn [List.map]. constructor; [apply Hl |].
      clear - Hls. induction Hls; cbn; constructor; auto.
    + exact Ht.
Qed.

Lemma jidle_agrees (o : options) : task_agrees o jidle idle.
Proof. repeat split; constructor. Qed.

End SharedFacts.
Export SharedFacts.

(** ** The listener does not assign to [options] *)

Section ListenerFacts.

Variable decode : list N -> jsval -> decoded.
Variable encode_response : response_args -> list N.

Lemma jrespond_agrees (o : options) pkt rcode from (jdone : jsprog)
    (done : prog) :
  agrees o jdone done ->
  agrees o (jrespond encode_response pkt rcode from jdone)
    (respond o encode_response pkt rcode from done).
Proof.
  intros Hdone. unfold jrespond, respond. cbn [agrees].
  repeat split. exact Hdone.
Qed.

Lemma jreply_agrees (o : options) pkt from username err obj :
  agrees o (jreply encode_response pkt from username err obj)
    (reply o encode_response pkt from username err obj).
Proof.
  unfold jreply, reply. destruct err as [e|]; [| destruct obj as [ob|]].
  - apply jrespond_agrees. cbn [agrees]. repeat split.
  - apply jrespond_agrees. cbn [agrees]. repeat split.
  - reflexivity.
Qed.

Lemma jauthenticate_agrees (o : options) username password (jcb : jcallback)
    (cb : callback) :
  (forall err obj, agrees o (jcb err obj) (cb err obj)) ->
  agrees o (jauthenticate username password jcb)
    (authenticate username password o cb).
Proof.
  intros Hcb. unfold jauthenticate, authenticate. cbn [agrees].
  repeat split.
  - intros err. apply Hcb.
  - intros err. apply agrees_seq; [| exact I].
    destruct err; apply Hcb.
Qed.

(** Run while [options] is [o], the listener does what [handler o] does, and
    neither it nor any of its callbacks assigns to [options]. *)
Lemma listener_agrees (o : options) (msg : list N) (from : rinfo) :
  agrees o (listener decode encode_response msg from)
    (handler o decode encode_response msg from).
Proof.
  unfold listener, handler. cbn [agrees].
  destruct (decode msg (secret o)) as [ex | pkt]; [cbn [agrees]; repeat split |].
  destruct (negb (JsString.eqb (code pkt) Access_Request));
    [cbn [agrees]; repeat split |].
  cbn zeta. cbn [agrees]. split; [reflexivity |].
  destruct (get (attributes pkt) "User-Name") as [ | | b | u | ];
    try reflexivity.
  destruct (negb (match_ u emailRegExp)).
  - cbn [agrees]. split; [reflexivity | split; [reflexivity |]].
    apply jrespond_agrees. cbn [agrees]. repeat split.
  - cbn [agrees].
    destruct (Nat.eqb _ 0).
    + cbn [agrees]. split; [reflexivity | split; [reflexivity |]].
      apply jrespond_agrees. cbn [agrees]. repeat split.
    + apply jauthenticate_agrees. intros err obj. apply jreply_agrees.
Qed.

End ListenerFacts.

(** ** The server *)

Module ServerFacts.

Lemma of_request_app (id : nat) (a b : list (nat * effect)) :
  of_request id (a ++ b) = of_request id a ++ of_request id b.
Proof.
  unfold of_request. rewrite List.filter_app, List.map_app. reflexivity.
Qed.

Lemma of_request_own (id : nat) (es : list effect) :
  of_request id (List.map (pair id) es) = es.
Proof.
  unfold of_request. induction es as [|e es IH]; simpl; [reflexivity |].
  rewrite Nat.eqb_refl. simpl. rewrite IH. reflexivity.
Qed.

Lemma of_request_other (id id' : nat) (es : list effect) :
  id' <> id -> of_request id (List.map (pair id') es) = [].
Proof.
  intros Hne. unfold of_request. induction es as [|e es IH]; simpl; [reflexivity |].
  apply Nat.eqb_neq in Hne. rewrite Hne. exact IH.
Qed.

Section Run.

Variable decode : list N -> jsval -> decoded.
Variable encode_response : response_args -> list N.

(** Once the process has ended, nothing more is done. *)
Lemma server_run_ended (on_message : list N -> rinfo -> jsprog)
    (ps : process) (inputs : list input) :
  alive ps = false -> server_run on_message ps inputs = [].
Proof.
  intros Hdead. induction inputs as [|i inputs IH]; [reflexivity |].
  cbn [server_run]. unfold server_step. rewrite Hdead. exact IH.
Qed.

Lemma served_ended (on_message : list N -> rinfo -> jsprog)
    (ps : process) (inputs : list input) :
  alive ps = false -> served on_message ps inputs = [].
Proof.
  intros Hdead. destruct inputs; [reflexivity |].
  cbn [served]. rewrite Hdead. reflexivity.
Qed.

Lemma crashed_app (es es' : list effect) :
  crashed (es ++ es') = crashed es || crashed es'.
Proof. apply List.existsb_app. Qed.

Lemma untag (id : nat) (es : list effect) :
  List.map snd (List.map (pair id) es) = es.
Proof.
  induction es as [|e es IH]; [reflexivity |]. cbn. rewrite IH. reflexivity.
Qed.

(** A step leaves the process running unless it ends in an exception. *)
Lemma server_step_alive (on_message : list N -> rinfo -> jsprog)
    (ps : process) (i : input) :
  alive ps = true ->
  alive (snd (server_step on_message ps i))
  = negb (crashed (List.map snd (fst (server_step on_message ps i)))).
Proof.
  intros Halive. unfold server_step. rewrite Halive.
  destruct i as [msg from | id c].
  - destruct (jexec _ (store ps) jidle) as [[es o'] jt]. cbn [fst snd alive].
    rewrite untag. reflexivity.
  - destruct (tasks ps !! id) as [jt|]; [| exact Halive].
    destruct (jreact c (store ps) jt) as [[es o'] jt']. cbn [fst snd alive].
    rewrite untag. reflexivity.
Qed.

(** A run in which no exception escapes serves all its inputs. *)
Lemma served_all (on_message : list N -> rinfo -> jsprog) (ps : process)
    (inputs : list input) :
  alive ps = true ->
  crashed (List.map snd (server_run on_message ps inputs)) = false ->
  served on_message ps inputs = inputs.
Proof.
  revert ps. induction inputs as [|i inputs IH]; intros ps Halive Hrun;
    [reflexivity |].
  cbn [server_run served] in Hrun |- *. rewrite Halive.
  pose proof (server_step_alive on_message ps i Halive) as Hstep.
  destruct (server_step on_message ps i) as [es ps']. cbn [fst snd] in *.
  rewrite List.map_app, crashed_app in Hrun.
  apply orb_false_iff in Hrun as [Hes Hrest].
  rewrite Hes in Hstep. f_equal. apply IH; assumption.
Qed.

Variable o : options.

(** One step of a running server whose [options] object is [o] and whose
    requests do what the tasks [ts] do: the object is still [o] afterwards,
    a datagram is handled as [handler o] handles it, and a completion is
    delivered to its request alone. *)
Lemma server_step_tracks (ps : process) (ts : list task) (i : input) :
  alive ps = true -> store ps = o ->
  Forall2 (task_agrees o) (tasks ps) ts ->
  let step := server_step (listener decode encode_response) ps i in
  store (snd step) = o
  /\ match i with
     | Message msg from =>
         let r := exec (handler o decode encode_response msg from) idle in
         fst step = List.map (pair (List.length ts)) (fst r)
         /\ Forall2 (task_agrees o) (tasks (snd step)) (ts ++ [snd r])
     | Completion id c =>
         match ts !! id with
         | Some t =>
             fst step = List.map (pair id) (fst (react c t))
             /\ Forall2 (task_agrees o) (tasks (snd step))
                  (<[id := snd (react c t)]> ts)
         | None =>
             fst step = [] /\ Forall2 (task_agrees o) (tasks (snd step)) ts
         end
     end.
Proof.
  intros Halive Hstore Hts. cbn zeta. unfold server_step. rewrite Halive.
  destruct i as [msg from | id c].
  - pose proof (jexec_agrees (store ps)
                  (listener decode encode_response msg from)
                  (handler (store ps) decode encode_response msg from)
                  jidle idle
                  (listener_agrees decode encode_response (store ps) msg from)
                  (jidle_agrees (store ps))) as H.
    rewrite Hstore in H.
    destruct (jexec _ (store ps) jidle) as [[es o'] jt] eqn:He.
    rewrite Hstore in He. rewrite He in H. cbn in H |- *.
    destruct H as (-> & -> & Hjt). split; [reflexivity |].
    split.
    + rewrite (Forall2_length _ _ _ Hts). reflexivity.
    + apply Forall2_app; [exact Hts | constructor; [exact Hjt | constructor]].
  - destruct (tasks ps !! id) as [jt|] eqn:Hj.
    + destruct (Forall2_lookup_l _ _ _ _ _ Hts Hj) as (t & Ht & Hagree).
      rewrite Ht.
      pose proof (jreact_agrees c o jt t Hagree) as H.
      rewrite Hstore.
      destruct (jreact c o jt) as [[es o'] jt']. cbn in H |- *.
      destruct H as (-> & -> & Hjt'). split; [reflexivity |].
      split; [reflexivity |].
      apply Forall2_insert; assumption.
    + destruct (ts !! id) as [t|] eqn:Ht.
      * destruct (Forall2_lookup_r _ _ _ _ _ Hts Ht) as (jt & Hj' & _).
        congruence.
      * cbn. repeat split; assumption.
Qed.

(** Once request [id] is in flight, what the server does on its behalf is
    what its own task does with the completions addressed to it while the
    process runs. *)
Lemma server_run_in_flight (inputs : list input) (ps : process)
    (ts : list task) (id : nat) (t : task) :
  store ps = o ->
  Forall2 (task_agrees o) (tasks ps) ts ->
  ts !! id = Some t ->
  of_request id (server_run (listener decode encode_response) ps inputs)
  = deliver
      (script_of id (served (listener decode encode_response) ps inputs)) t.
Proof.
  revert ps ts t. induction inputs as [|i inputs IH];
    intros ps ts t Hstore Hts Hid; [reflexivity |].
  destruct (alive ps) eqn:Halive;
    [| rewrite server_run_ended, served_ended by assumption; reflexivity].
  pose proof (server_step_tracks ps ts i Halive Hstore Hts) as Hstep.
  cbn zeta in Hstep. cbn [server_run served]. rewrite Halive.
  destruct (server_step _ ps i) as [es ps'].
  cbn [fst snd] in Hstep |- *. destruct Hstep as [Hstore' Hstep].
  rewrite of_request_app.
  destruct i as [msg from | id' c]; cbn [script_of].
  - destruct Hstep as [-> Hts'].
    rewrite of_request_other by (apply lookup_lt_Some in Hid; lia).
    apply (IH ps' _ t Hstore' Hts').
    rewrite lookup_app_l by (apply lookup_lt_Some in Hid; lia). exact Hid.
  - destruct (Nat.eqb_spec id' id) as [-> | Hne].
    + rewrite Hid in Hstep. destruct Hstep as [-> Hts'].
      rewrite of_request_own. cbn [deliver].
      destruct (react c t) as [es' t'] eqn:Hr. cbn [fst snd] in *.
      f_equal. apply (IH ps' _ t' Hstore' Hts').
      apply list_lookup_insert_eq. apply lookup_lt_Some in Hid. exact Hid.
    + destruct (ts !! id') as [t1|] eqn:H1.
      * destruct Hstep as [-> Hts'].
        rewrite of_request_other by assumption.
        apply (IH ps' _ t Hstore' Hts').
        rewrite list_lookup_insert_ne by assumption. exact Hid.
      * destruct Hstep as [-> Hts']. apply (IH ps' _ t Hstore' Hts'). exact Hid.
Qed.

(** Handling datagrams and completions never assigns to [options]. *)
Lemma server_after_store (inputs : list input) (ps : process)
    (ts : list task) :
  store ps = o ->
  Forall2 (task_agrees o) (tasks ps) ts ->
  store (server_after (listener decode encode_response) ps inputs) = o.
Proof.
  revert ps ts. induction inputs as [|i inputs IH]; intros ps ts Hstore Hts;
    [exact Hstore |].
  cbn [server_after]. destruct (alive ps) eqn:Halive.
  - pose proof (server_step_tracks ps ts i Halive Hstore Hts) as Hstep.
    cbn zeta in Hstep. destruct Hstep as [Hstore' Hstep].
    destruct i as [msg from | id c].
    + destruct Hstep as [_ Hts']. exact (IH _ _ Hstore' Hts').
    + destruct (ts !! id); destruct Hstep as [_ Hts'];
        exact (IH _ _ Hstore' Hts').
  - unfold server_step. rewrite Halive. exact (IH ps ts Hstore Hts).
Qed.

(** Before request [id] arrives, nothing is done on its behalf; from its
    arrival on, it is handled as [handler o] handles it on its own. *)
Lemma server_run_arrival (before : list input) (ps : process)
    (ts : list task) (inputs : list input) (msg : list N) (from : rinfo)
    (after : list input) :
  store ps = o ->
  Forall2 (task_agrees o) (tasks ps) ts ->
  served (listener decode encode_response) ps inputs
  = before ++ Message msg from :: after ->
  of_request (List.length ts + arrivals before)
    (server_run (listener decode encode_response) ps inputs)
  = session (handler o decode encode_response msg from)
      (script_of (List.length ts + arrivals before) after).
Proof.
  revert ps ts inputs. induction before as [|b before IH];
    intros ps ts inputs Hstore Hts Hserved.
  - destruct inputs as [|i inputs]; [discriminate |].
    cbn [served] in Hserved. destruct (alive ps) eqn:Halive; [| discriminate].
    cbn [app] in Hserved. injection Hserved as Hi Hafter. subst i.
    pose proof (server_step_tracks ps ts (Message msg from) Halive Hstore Hts)
      as Hstep.
    cbn zeta in Hstep. cbn [server_run arrivals]. rewrite Nat.add_0_r.
    destruct (server_step _ ps (Message msg from)) as [es ps'].
    cbn [fst snd] in Hstep, Hafter |- *.
    destruct Hstep as (Hstore' & -> & Hts').
    rewrite of_request_app, of_request_own. unfold session.
    destruct (exec _ idle) as [es' t0]. cbn [fst snd] in *. f_equal.
    rewrite <- Hafter.
    apply (server_run_in_flight inputs ps' _ _ t0 Hstore' Hts').
    rewrite lookup_app_r by lia. rewrite Nat.sub_diag. reflexivity.
  - destruct inputs as [|i inputs]; [discriminate |].
    cbn [served] in Hserved. destruct (alive ps) eqn:Halive; [| discriminate].
    cbn [app] in Hserved. injection Hserved as Hi Hrest. subst i.
    pose proof (server_step_tracks ps ts b Halive Hstore Hts) as Hstep.
    cbn zeta in Hstep. cbn [server_run].
    destruct (server_step _ ps b) as [es ps'].
    cbn [fst snd] in Hstep, Hrest |- *. destruct Hstep as [Hstore' Hstep].
    rewrite of_request_app.
    destruct b as [msg' from' | id' c]; cbn [arrivals].
    + destruct Hstep as [-> Hts'].
      rewrite of_request_other by lia.
      specialize (IH ps' _ inputs Hstore' Hts' Hrest).
      rewrite length_app in IH. cbn [List.length] in IH.
      replace (List.length ts + S (arrivals before))%nat
        with (List.length ts + 1 + arrivals before)%nat by lia.
      exact IH.
    + destruct (ts !! id') as [t1|] eqn:H1.
      * destruct Hstep as [-> Hts'].
        rewrite of_request_other by (apply lookup_lt_Some in H1; lia).
        specialize (IH ps' _ inputs Hstore' Hts' Hrest).
        rewrite length_insert in IH. exact IH.
      * destruct Hstep as [-> Hts'].
        exact (IH ps' _ inputs Hstore' Hts' Hrest).
Qed.

End Run.

(** [createServer] leaves [options] as it was given, but for
    [options.protocol], which the listener does not read. *)
Lemma listening_running (arg : option options) :
  alive (listening arg) = true /\ tasks (listening arg) = [].
Proof.
  unfold listening, jcreateServer. cbn [jexec].
  destruct (protocol (default no_options arg)) as [p|];
    [destruct (truthy (VString p)) |]; split; reflexivity.
Qed.

Lemma listening_protocol decode encode_response (arg : option options) :
  protocol (store (listening arg))
  = Some (fst (createServer decode encode_response arg)).
Proof.
  unfold listening, jcreateServer, createServer. cbn [jexec fst].
  destruct (protocol (default no_options arg)) as [p|] eqn:Hp;
    [destruct (truthy (VString p)) |]; cbn; try reflexivity. exact Hp.
Qed.

Lemma listening_handler decode encode_response (arg : option options)
    (msg : list N) (from : rinfo) :
  handler (store (listening arg)) decode encode_response msg from
  = handler (default no_options arg) decode encode_response msg from.
Proof.
  unfold listening, jcreateServer. cbn [jexec].
  destruct (protocol (default no_options arg)) as [p|];
    [destruct (truthy (VString p)) |]; reflexivity.
Qed.


(** The server that [createServer(options)] returns handles a datagram it
    lives to see as [handler] does on its own, with the options it was
    given. *)
Lemma listening_arrival
    (decode : list N -> jsval -> decoded)
    (encode_response : response_args -> list N)
    (arg : option options) (inputs before after : list input)
    (msg : list N) (from : rinfo) :
  served (listener decode encode_response) (listening arg) inputs
  = before ++ Message msg from :: after ->
  of_request (arrivals before)
    (server_run (listener decode encode_response) (listening arg) inputs)
  = session (handler (default no_options arg) decode encode_response msg from)
      (script_of (arrivals before) after).
Proof.
  intros Hserved. rewrite <- listening_handler.
  destruct (listening_running arg) as [_ Htasks].
  apply (server_run_arrival decode encode_response (store (listening arg))
           before (listening arg) [] inputs msg from after eq_refl).
  - rewrite Htasks. constructor.
  - exact Hserved.
Qed.

Lemma listening_store
    (decode : list N -> jsval -> decoded)
    (encode_response : response_args -> list N)
    (arg : option options) (inputs : list input) :
  store (server_after (listener decode encode_response) (listening arg) inputs)
  = store (listening arg).
Proof.
  destruct (listening_running arg) as [_ Htasks].
  apply (server_after_store decode encode_response (store (listening arg))
           inputs (listening arg) [] eq_refl).
  rewrite Htasks. constructor.
Qed.

End ServerFacts.
Export ServerFacts.

(** C9: what the server does for a datagram it lives to see -- the responses
    it sends and the events it emits for it -- is what the handler does when
    run on that datagram alone, with the options [createServer] was given,
    against the same behaviour of the environment.  The listener and its
    callbacks share the [options] object and read it each time they use it,
    but none of them assigns to it, so nothing is carried over from the
    datagrams that came before, from what was done for them, or from what
    happens to other requests in the meantime: an identical datagram
    replayed under the same verifier behaviour gives the same outcome
    again, and after any run the [options] object is as [createServer] left
    it.  The datagrams concerned are those received while the process runs;
    an exception that escapes a listener ends it. *)
Theorem C9_history_free
    (decode : list N -> jsval -> decoded)
    (encode_response : response_args -> list N)
    (arg : option options) (inputs before after : list input)
    (msg : list N) (from : rinfo) :
  served (listener decode encode_response) (listening arg) inputs
  = before ++ Message msg from :: after ->
  of_request (arrivals before)
    (server_run (listener decode encode_response) (listening arg) inputs)
  = session (handler (default no_options arg) decode encode_response msg from)
      (script_of (arrivals before) after)
  /\ store (server_after (listener decode encode_response) (listening arg)
              inputs)
     = store (listening arg).
Proof.
  intros Hserved. split.
  - exact (listening_arrival decode encode_response arg inputs before after
             msg from Hserved).
  - apply listening_store.
Qed.

Lemma C9_history_free_witness :
  served (listener demo_decode demo_encode) (listening (Some demo_options))
    [Message (datagram 1 "alice@example.com") demo_from;
     Completion 0 Connected;
     Message (datagram 1 "alice@example.com") demo_from;
     Completion 0 (LoginDone (Some (js "535 bad credentials")));
     Completion 1 Connected;
     Completion 1 (LoginDone None);
     Completion 0 SendDone;
     Completion 1 SendDone]
  = [Message (datagram 1 "alice@example.com") demo_from;
     Completion 0 Connected]
    ++ Message (datagram 1 "alice@example.com") demo_from
       :: [Completion 0 (LoginDone (Some (js "535 bad credentials")));
           Completion 1 Connected;
           Completion 1 (LoginDone None);
           Completion 0 SendDone;
           Completion 1 SendDone]
  /\ of_request 1
       (server_run (listener demo_decode demo_encode)
          (listening (Some demo_options))
          [Message (datagram 1 "alice@example.com") demo_from;
           Completion 0 Connected;
           Message (datagram 1 "alice@example.com") demo_from;
           Completion 0 (LoginDone (Some (js "535 bad credentials")));
           Completion 1 Connected;
           Completion 1 (LoginDone None);
           Completion 0 SendDone;
           Completion 1 SendDone])
     = session (demo_handler (datagram 1 "alice@example.com") demo_from)
         [Connected; LoginDone None; SendDone]
  /\ store
       (server_after (listener demo_decode demo_encode)
          (listening (Some demo_options))
          [Message (datagram 1 "alice@example.com") demo_from;
           Completion 0 Connected;
           Message (datagram 1 "alice@example.com") demo_from;
           Completion 0 (LoginDone (Some (js "535 bad credentials")));
           Completion 1 Connected;
           Completion 1 (LoginDone None);
           Completion 0 SendDone;
           Completion 1 SendDone])
     = store (listening (Some demo_options)).
Proof.
  split; [vm_compute; reflexivity |].
  apply (C9_history_free demo_decode demo_encode (Some demo_options)
           [Message (datagram 1 "alice@example.com") demo_from;
            Completion 0 Connected;
            Message (datagram 1 "alice@example.com") demo_from;
            Completion 0 (LoginDone (Some (js "535 bad credentials")));
            Completion 1 Connected;
            Completion 1 (LoginDone None);
            Completion 0 SendDone;
            Completion 1 SendDone]
           [Message (datagram 1 "alice@example.com") demo_from;
            Completion 0 Connected]
           [Completion 0 (LoginDone (Some (js "535 bad credentials")));
            Completion 1 Connected;
            Completion 1 (LoginDone None);
            Completion 0 SendDone;
            Completion 1 SendDone]
           (datagram 1 "alice@example.com") demo_from).
  vm_compute. reflexivity.
Defined.

(** Replaying a datagram: two arrivals of the same datagram, anywhere in two
    runs of the server, have the same outcome when the environment treats
    both requests alike. *)
Corollary replay_same_outcome
    (decode : list N -> jsval -> decoded)
    (encode_response : response_args -> list N)
    (arg : option options)
    (inputs1 before1 after1 inputs2 before2 after2 : list input)
    (msg : list N) (from : rinfo) :
  served (listener decode encode_response) (listening arg) inputs1
  = before1 ++ Message msg from :: after1 ->
  served (listener decode encode_response) (listening arg) inputs2
  = before2 ++ Message msg from :: after2 ->
  script_of (arrivals before1) after1 = script_of (arrivals before2) after2 ->
  of_request (arrivals before1)
    (server_run (listener decode encode_response) (listening arg) inputs1)
  = of_request (arrivals before2)
      (server_run (listener decode encode_response) (listening arg) inputs2).
Proof.
  intros H1 H2 Hscript.
  rewrite (listening_arrival decode encode_response arg inputs1 before1 after1
             msg from H1).
  rewrite (listening_arrival decode encode_response arg inputs2 before2 after2
             msg from H2).
  rewrite Hscript. reflexivity.
Qed.

(** In a run in which no exception escapes, every datagram is handled as the
    handler handles it on its own. *)
Corollary history_free_while_running
    (decode : list N -> jsval -> decoded)
    (encode_response : response_args -> list N)
    (arg : option options) (before after : list input)
    (msg : list N) (from : rinfo) :
  crashed
    (List.map snd
       (server_run (listener decode encode_response) (listening arg)
          (before ++ Message msg from :: after))) = false ->
  of_request (arrivals before)
    (server_run (listener decode encode_response) (listening arg)
       (before ++ Message msg from :: after))
  = session (handler (default no_options arg) decode encode_response msg from)
      (script_of (arrivals before) after).
Proof.
  intros Hrun. apply listening_arrival.
  apply served_all; [apply listening_running | exact Hrun].
Qed.

(** A datagram whose User-Name is not a string ends the server: the
    exception is not caught, and nothing is done for what arrives later. *)
Lemma uncaught_ends_server
    (decode : list N -> jsval -> decoded)
    (encode_response : response_args -> list N)
    (arg : option options) (msg : list N) (from : rinfo) (pkt : packet)
    (rest : list input) :
  decode msg (secret (default no_options arg)) = Decoded pkt ->
  code pkt = Access_Request ->
  (forall u, get (attributes pkt) "User-Name" <> VString u) ->
  server_run (listener decode encode_response) (listening arg)
    (Message msg from :: rest)
  = [(O, EConsoleLog (js "Got Access-Request for "
                      ++ to_string (get (attributes pkt) "User-Name")));
     (O, EUncaught TypeError)]
  /\ served (listener decode encode_response) (listening arg)
       (Message msg from :: rest)
     = [Message msg from].
Proof.
  intros Hd Hc Hu.
  destruct (listening_running arg) as [Halive Htasks].
  assert (Hts : Forall2 (task_agrees (store (listening arg)))
                  (tasks (listening arg)) []) by (rewrite Htasks; constructor).
  pose proof (server_step_tracks decode encode_response _ _ []
                (Message msg from) Halive eq_refl Hts) as Hstep.
  pose proof (server_step_alive (listener decode encode_response) _
                (Message msg from) Halive) as Hdead.
  cbv beta iota zeta in Hstep. rewrite listening_handler in Hstep.
  pose proof (handler_not_a_string (default no_options arg) decode
                encode_response msg from pkt [] Hd Hc Hu) as Hs.
  unfold session in Hs.
  destruct (exec (handler _ decode encode_response msg from) idle)
    as [es t0]. cbn [deliver fst snd] in Hs, Hstep. rewrite app_nil_r in Hs.
  subst es. cbn [server_run served]. rewrite Halive.
  destruct (server_step _ (listening arg) (Message msg from)) as [es ps'].
  cbn [fst snd] in Hstep, Hdead |- *. destruct Hstep as (_ & -> & _).
  cbn in Hdead.
  rewrite server_run_ended, served_ended by exact Hdead.
  split; reflexivity.
Qed.

(** The model tells a listener that keeps state from one that does not: were
    the listener to assign to [options], a replayed datagram could be
    treated differently. *)
Remark assignment_is_observed :
  exists on_message : list N -> rinfo -> jsprog,
    of_request 0
      (server_run on_message (listening (Some demo_options))
         [Message (datagram 1 "alice@example.com") demo_from;
          Message (datagram 1 "alice@example.com") demo_from])
    <> of_request 1
         (server_run on_message (listening (Some demo_options))
            [Message (datagram 1 "alice@example.com") demo_from;
             Message (datagram 1 "alice@example.com") demo_from]).
Proof.
  exists (fun msg from =>
            jseq (listener demo_decode demo_encode msg from)
              (JWrite (fun o => {| protocol := protocol o;
                                   secret := secret o;
                                   acceptDomains := None;
                                   timeout := timeout o;
                                   debug := debug o |})
                      JReturn)).
  vm_compute. discriminate.
Qed.

(** * Further properties *)

(** ** Governed programs *)

Module GovernedFacts.

Section GovernedFacts.

Variable A : completion -> Prop.
Variable E : effect -> Prop.
Variable Q : object -> Prop.

Lemma governed_seq (p q : prog) :
  governed A E Q p -> governed A E Q q -> governed A E Q (seq p q).
Proof. induction p; simpl; intuition. Qed.

Lemma governed_call_all (ps : list prog) :
  Forall (governed A E Q) ps -> governed A E Q (call_all ps).
Proof.
  induction 1; simpl; [exact I | apply governed_seq; assumption].
Qed.

Lemma task_governed_idle : task_governed A E Q idle.
Proof. repeat split; constructor. Qed.

Lemma task_governed_park (p : parked) (t : task) :
  parked_governed A E Q p -> task_governed A E Q t ->
  task_governed A E Q (park p t).
Proof.
  intros Hp (Hl & He & Hw). repeat split; simpl; auto.
  apply Forall_app. split; [assumption | constructor; [assumption | constructor]].
Qed.

Lemma task_governed_set_waiting (w : list parked) (t : task) :
  Forall (parked_governed A E Q) w -> task_governed A E Q t ->
  task_governed A E Q (set_waiting w t).
Proof. intros Hw (Hl & He & _). repeat split; simpl; auto. Qed.

Lemma exec_governed (p : prog) :
  governed A E Q p ->
  forall t, task_governed A E Q t ->
  Forall E (fst (exec p t)) /\ task_governed A E Q (snd (exec p t)).
Proof.
  induction p; simpl; intros Hp t Ht.
  - split; [constructor | assumption].
  - split; [repeat constructor; assumption | assumption].
  - destruct Hp as [He Hk]. destruct (IHp Hk t Ht) as [H1 H2].
    destruct (exec p t); simpl in *. split; [constructor |]; assumption.
  - destruct Hp as [He Hk]. destruct (IHp Hk t Ht) as [H1 H2].
    destruct (exec p t); simpl in *. split; [constructor |]; assumption.
  - destruct Hp as (He & Hcb & Hk).
    destruct (IHp2 Hk (park (PSend p1) t)) as [H1 H2];
      [apply task_governed_park; assumption |].
    destruct (exec p2 (park (PSend p1) t)); simpl in *.
    split; [constructor |]; assumption.
  - destruct Hp as [He Hk]. destruct (IHp Hk t Ht) as [H1 H2].
    destruct (exec p t); simpl in *. split; [constructor |]; assumption.
  - destruct Hp as [Hl Hk]. apply IHp; [assumption |].
    destruct Ht as (H1 & H2 & H3). repeat split; simpl; auto.
    apply Forall_app. split; [assumption | constructor; [assumption | constructor]].
  - destruct Hp as [Hl Hk]. apply IHp; [assumption |].
    destruct Ht as (H1 & H2 & H3). repeat split; simpl; auto.
    apply Forall_app. split; [assumption | constructor; [assumption | constructor]].
  - destruct Hp as (He & Hcb & Hk).
    destruct (IHp2 Hk (park (PConnect p1) t)) as [H1 H2];
      [apply task_governed_park; assumption |].
    destruct (exec p2 (park (PConnect p1) t)); simpl in *.
    split; [constructor |]; assumption.
  - destruct Hp as (He & Hcb & Hk).
    destruct (IHp Hk (park (PLogin cb) t)) as [H1 H2];
      [apply task_governed_park; assumption |].
    destruct (exec p (park (PLogin cb) t)); simpl in *.
    split; [constructor |]; assumption.
  - destruct Hp as [He Hk]. destruct (IHp Hk t Ht) as [H1 H2].
    destruct (exec p t); simpl in *. split; [constructor |]; assumption.
Qed.

Lemma next_send_governed (w : list parked) (cb : prog) (rest : list parked) :
  Forall (parked_governed A E Q) w -> next_send w = Some (cb, rest) ->
  (exists o, cb = Emit "radius" o Return /\ Q o)
  /\ Forall (parked_governed A E Q) rest.
Proof.
  revert cb rest. induction w as [|p w IH]; intros cb rest Hw Hn;
    [discriminate |].
  inversion Hw as [|? ? Hp Hw']; subst.
  destruct p; simpl in Hn;
    try (injection Hn as <- <-; split; assumption);
    (destruct (next_send w) as [[cb' rest']|]; [| discriminate];
     injection Hn as <- <-; destruct (IH _ _ Hw' eq_refl) as [H1 H2];
     split; [assumption | constructor; assumption]).
Qed.

Lemma next_connect_governed (w : list parked) (cb : prog) (rest : list parked) :
  Forall (parked_governed A E Q) w -> next_connect w = Some (cb, rest) ->
  (A Connected -> governed A E Q cb) /\ Forall (parked_governed A E Q) rest.
Proof.
  revert cb rest. induction w as [|p w IH]; intros cb rest Hw Hn;
    [discriminate |].
  inversion Hw as [|? ? Hp Hw']; subst.
  destruct p; simpl in Hn;
    try (injection Hn as <- <-; split; assumption);
    (destruct (next_connect w) as [[cb' rest']|]; [| discriminate];
     injection Hn as <- <-; destruct (IH _ _ Hw' eq_refl) as [H1 H2];
     split; [assumption | constructor; assumption]).
Qed.

Lemma next_login_governed (w : list parked) (cb : option jsstring -> prog)
    (rest : list parked) :
  Forall (parked_governed A E Q) w -> next_login w = Some (cb, rest) ->
  (forall err, A (LoginDone err) -> governed A E Q (cb err))
  /\ Forall (parked_governed A E Q) rest.
Proof.
  revert cb rest. induction w as [|p w IH]; intros cb rest Hw Hn;
    [discriminate |].
  inversion Hw as [|? ? Hp Hw']; subst.
  destruct p; simpl in Hn;
    try (injection Hn as <- <-; split; assumption);
    (destruct (next_login w) as [[cb' rest']|]; [| discriminate];
     injection Hn as <- <-; destruct (IH _ _ Hw' eq_refl) as [H1 H2];
     split; [assumption | constructor; assumption]).
Qed.

Lemma governed_trace_effects (es tr : list effect) :
  Forall E es -> governed_trace A E Q tr -> governed_trace A E Q (es ++ tr).
Proof.
  induction 1; simpl; intros Htr; [assumption |].
  apply governed_effect; auto.
Qed.

Lemma callback_governed (c : completion) (p : prog) (t : task) :
  c <> SendDone -> A c -> governed A E Q p -> task_governed A E Q t ->
  let r := let (es, t') := exec p t in (Got c :: es, t') in
  task_governed A E Q (snd r)
  /\ forall tr, governed_trace A E Q tr -> governed_trace A E Q (fst r ++ tr).
Proof.
  intros Hc Ha Hp Ht. destruct (exec_governed p Hp t Ht) as [H1 H2].
  destruct (exec p t) as [es t']. simpl in *.
  split; [assumption |]. intros tr Htr.
  apply governed_got; [assumption | assumption |].
  apply governed_trace_effects; assumption.
Qed.

Lemma react_governed (c : completion) (t : task) :
  A c -> task_governed A E Q t ->
  task_governed A E Q (snd (react c t))
  /\ forall tr, governed_trace A E Q tr ->
                governed_trace A E Q (fst (react c t) ++ tr).
Proof.
  intros Ha Ht. pose proof Ht as (Hl & He & Hw).
  destruct c; simpl.
  - destruct (next_send (waiting t)) as [[cb rest]|] eqn:Hn; [| auto].
    destruct (next_send_governed _ _ _ Hw Hn) as [(o & -> & Ho) Hrest]. simpl.
    split; [apply task_governed_set_waiting; assumption |].
    intros tr Htr. apply governed_done; assumption.
  - destruct (next_connect (waiting t)) as [[cb rest]|] eqn:Hn; [| auto].
    destruct (next_connect_governed _ _ _ Hw Hn) as [Hcb Hrest].
    apply callback_governed; [discriminate | assumption | auto |].
    apply task_governed_set_waiting; assumption.
  - destruct (next_login (waiting t)) as [[cb rest]|] eqn:Hn; [| auto].
    destruct (next_login_governed _ _ _ Hw Hn) as [Hcb Hrest].
    apply callback_governed; [discriminate | assumption | auto |].
    apply task_governed_set_waiting; assumption.
  - destruct (error_listeners t) as [|l ls] eqn:Hls; [auto |].
    apply (callback_governed (SmtpError err)
             (call_all (List.map (fun l0 => l0 err) (l :: ls))) t);
      [discriminate | assumption | | assumption].
    apply governed_call_all. apply List.Forall_map.
    eapply List.Forall_impl; [| exact He]. intros l0 H0. apply H0. exact Ha.
  - destruct (log_listeners t) as [|l ls] eqn:Hls; [auto |].
    apply (callback_governed (SmtpLog iso type message)
             (call_all (List.map (fun l0 => l0 iso type message) (l :: ls))) t);
      [discriminate | assumption | | assumption].
    apply governed_call_all. apply List.Forall_map.
    eapply List.Forall_impl; [| exact Hl]. intros l0 H0. apply H0. exact Ha.
Qed.

Lemma deliver_governed (script : list completion) (t : task) :
  Forall A script -> task_governed A E Q t ->
  governed_trace A E Q (deliver script t).
Proof.
  intros Hs. revert t. induction Hs as [|c script Hc _ IH]; intros t Ht; simpl.
  - constructor.
  - destruct (react_governed c t Hc Ht) as [H1 H2].
    destruct (react c t) as [es t']. simpl in *. apply H2. apply IH. exact H1.
Qed.

(** As long as the environment keeps to [A], the trace of a governed
    program is a governed trace. *)
Lemma session_governed (p : prog) (script : list completion) :
  Forall A script -> governed A E Q p ->
  governed_trace A E Q (session p script).
Proof.
  intros Hs Hp. unfold session.
  destruct (exec_governed p Hp idle task_governed_idle) as [H1 H2].
  destruct (exec p idle) as [es t]. simpl in *.
  apply governed_trace_effects; [assumption |].
  apply deliver_governed; assumption.
Qed.

(** What a governed trace can contain. *)
Lemma governed_trace_In (tr : list effect) (e : effect) :
  governed_trace A E Q tr -> In e tr ->
  E e \/ (exists c, e = Got c)
  \/ (exists o, e = EEmit "radius" o /\ Q o).
Proof.
  induction 1 as [| e0 tr He _ IH | c tr Hc Ha _ IH | o tr Ho _ IH]; simpl.
  - tauto.
  - intros [<- | Hin]; [left; assumption | exact (IH Hin)].
  - intros [<- | Hin]; [right; left; eauto | exact (IH Hin)].
  - intros [<- | [<- | Hin]];
      [right; left; eauto | right; right; eauto | exact (IH Hin)].
Qed.

(** *** The handler *)

Variable opts : options.
Variable decode : list N -> jsval -> decoded.
Variable encode_response : response_args -> list N.

Hypothesis E_log : forall line, E (EConsoleLog line).
Hypothesis E_error : forall o, E (EEmit "radius-error" o).

Lemma respond_governed (pkt : packet) (rcode : jsstring) (from : rinfo)
    (o : object) :
  E (sending opts encode_response pkt rcode from) -> Q o ->
  governed A E Q
    (respond opts encode_response pkt rcode from (Emit "radius" o Return)).
Proof.
  intros He Ho. unfold respond. simpl. split; [exact He |].
  split; [eauto | exact I].
Qed.

Lemma authenticate_governed (username password : jsval) (cb : callback) :
  E (ENewSMTPConnection (connection_options opts)) ->
  E EConnect ->
  (A Connected -> E (ELogin username password)) ->
  (forall err, A (SmtpError err) -> governed A E Q (cb (Some err) None)) ->
  (forall err, A Connected -> A (LoginDone err) ->
               governed A E Q (cb err (login_result username err)) /\ E EQuit) ->
  governed A E Q (authenticate username password opts cb).
Proof.
  intros Hnew Hconnect Hlogin Herror Hanswer. unfold authenticate. simpl.
  split; [exact Hnew |].
  split; [intros iso type message _; split; [apply E_log | exact I] |].
  split; [exact Herror |].
  split; [exact Hconnect |].
  split; [| exact I].
  intros Hc. split; [exact (Hlogin Hc) |]. split; [| exact I].
  intros err Ha. destruct (Hanswer err Hc Ha) as [Hcb Hquit].
  apply governed_seq.
  - destruct err; exact Hcb.
  - simpl. split; [exact Hquit | exact I].
Qed.

(** The handler is governed when: the exception it throws on a username that
    is not a string is allowed; rejecting is allowed; and, for a request
    that reaches the credential check, so are the SMTP operations and, if the
    environment may accept the login, accepting. *)
Lemma handler_governed (msg : list N) (from : rinfo) :
  (forall pkt,
     decode msg (secret opts) = Decoded pkt -> code pkt = Access_Request ->
     (exists u, get (attributes pkt) "User-Name" = VString u)
     \/ E (EUncaught TypeError)) ->
  (forall pkt u,
     decode msg (secret opts) = Decoded pkt -> code pkt = Access_Request ->
     get (attributes pkt) "User-Name" = VString u ->
     E (sending opts encode_response pkt Access_Reject from)
     /\ Q (failure (VString u))) ->
  (forall pkt u,
     reaches_verifier opts decode msg pkt u ->
     E (ENewSMTPConnection (connection_options opts))
     /\ E EConnect
     /\ (A Connected ->
         E (ELogin (VString u) (get (attributes pkt) "User-Password"))
         /\ ((exists err, A (LoginDone err)) -> E EQuit)
         /\ (A (LoginDone None) ->
             E (sending opts encode_response pkt Access_Accept from)
             /\ Q (success (VString u))))) ->
  governed A E Q (handler opts decode encode_response msg from).
Proof.
  intros Hthrow Hreject Hverify. unfold handler.
  destruct (decode msg (secret opts)) as [ex | pkt] eqn:Hd.
  - simpl. split; [apply E_error | exact I].
  - destruct (JsString.eqb (code pkt) Access_Request) eqn:Hc; cbn [negb].
    + apply eqb_eq in Hc. cbn zeta. cbn [governed]. split; [apply E_log |].
      destruct (get (attributes pkt) "User-Name") as [| | b | u | shown] eqn:Hu;
        try (destruct (Hthrow pkt eq_refl Hc) as [[u' Hu'] | Ht];
             [congruence | exact Ht]).
      destruct (Hreject pkt u eq_refl Hc Hu) as [Hrej Hfail].
      destruct (match_ u emailRegExp) eqn:Hm; cbn [negb].
      * destruct (Nat.eqb _ 0) eqn:Hdom.
        -- cbn [governed]. split; [apply E_error |].
           apply respond_governed; assumption.
        -- assert (Hr : reaches_verifier opts decode msg pkt u).
           { unfold reaches_verifier, domain_accepted.
             rewrite Hdom. repeat split; assumption. }
           destruct (Hverify pkt u Hr) as (Hnew & Hconnect & Hconn).
           apply authenticate_governed; try assumption.
           ++ intros Hc'. apply Hconn. exact Hc'.
           ++ intros err _. unfold reply. apply respond_governed; assumption.
           ++ intros err Hc' Ha. destruct (Hconn Hc') as (_ & Hquit & Hacc).
              split; [| apply Hquit; eauto].
              destruct err as [e|]; unfold reply, login_result.
              ** apply respond_governed; assumption.
              ** destruct (Hacc Ha) as [Hsend Hq].
                 apply respond_governed; assumption.
      * cbn [governed]. split; [apply E_error |].
        apply respond_governed; assumption.
    + simpl. split; [apply E_error | exact I].
Qed.

End GovernedFacts.

End GovernedFacts.
Export GovernedFacts.

(** ** Budgets: how often an effect can happen *)

Module BudgetFacts.

Section BudgetFacts.

Variable K : effect -> bool.

Lemma count_cons (e : effect) (tr : list effect) :
  count K (e :: tr) = (cost K e + count K tr)%nat.
Proof. unfold count, cost. simpl. destruct (K e); reflexivity. Qed.

Lemma count_app (a b : list effect) :
  count K (a ++ b) = (count K a + count K b)%nat.
Proof. unfold count. rewrite List.filter_app, length_app. reflexivity. Qed.

Lemma within_mono (p : prog) (n n' : nat) :
  (n <= n')%nat -> within K n p -> within K n' p.
Proof.
  revert n n'. induction p; simpl; intros n n' Hle Hp; try exact I; try lia.
  - destruct Hp as (m & H1 & H2). exists m. split; [lia | assumption].
  - destruct Hp as (m & H1 & H2). exists m. split; [lia | assumption].
  - destruct Hp as (a & m & H1 & H2 & H3). exists a, m. split; [lia | auto].
  - destruct Hp as (m & H1 & H2). exists m. split; [lia | assumption].
  - destruct Hp as [H1 H2]. split; [assumption | eauto].
  - destruct Hp as [H1 H2]. split; [assumption | eauto].
  - destruct Hp as (a & m & H1 & H2 & H3). exists a, m. split; [lia | auto].
  - destruct Hp as (a & m & H1 & H2 & H3). exists a, m. split; [lia | auto].
  - destruct Hp as (m & H1 & H2). exists m. split; [lia | assumption].
Qed.

Lemma within_seq (p q : prog) (a b : nat) :
  within K a p -> within K b q -> within K (a + b) (seq p q).
Proof.
  revert a. induction p; simpl; intros a Hp Hq.
  - apply (within_mono q b); [lia | assumption].
  - lia.
  - destruct Hp as (m & H1 & H2). exists (m + b)%nat. split; [lia | auto].
  - destruct Hp as (m & H1 & H2). exists (m + b)%nat. split; [lia | auto].
  - destruct Hp as (a0 & m & H1 & H2 & H3). exists a0, (m + b)%nat.
    split; [lia | auto].
  - destruct Hp as (m & H1 & H2). exists (m + b)%nat. split; [lia | auto].
  - destruct Hp as [H1 H2]. split; [assumption | auto].
  - destruct Hp as [H1 H2]. split; [assumption | auto].
  - destruct Hp as (a0 & m & H1 & H2 & H3). exists a0, (m + b)%nat.
    split; [lia | auto].
  - destruct Hp as (a0 & m & H1 & H2 & H3). exists a0, (m + b)%nat.
    split; [lia | auto].
  - destruct Hp as (m & H1 & H2). exists (m + b)%nat. split; [lia | auto].
Qed.

Lemma within_call_all (ps : list prog) :
  Forall (within K 0) ps -> within K 0 (call_all ps).
Proof.
  induction 1; simpl; [exact I |].
  apply (within_seq _ _ 0 0); assumption.
Qed.

Lemma waiting_within_mono (w : list parked) (m m' : nat) :
  (m <= m')%nat -> waiting_within K m w -> waiting_within K m' w.
Proof.
  destruct w as [|p w]; simpl; [auto |].
  intros Hle (a & b & H1 & H2 & H3). exists a, b. split; [lia | auto].
Qed.

Lemma waiting_within_snoc (w : list parked) (p : parked) (m a : nat) :
  waiting_within K m w -> parked_within K a p ->
  waiting_within K (m + a) (w ++ [p]).
Proof.
  revert m. induction w as [|p0 w IH]; simpl; intros m Hw Hp.
  - exists a, 0%nat. split; [lia | auto].
  - destruct Hw as (a0 & b & H1 & H2 & H3).
    exists a0, (b + a)%nat. split; [lia | auto].
Qed.

(** Running a program spends part of its budget on the effects it performs
    and leaves the rest with the callbacks it parks. *)
Lemma exec_within (p : prog) :
  forall (n m : nat) (t : task),
    within K n p -> task_within K m t ->
    exists r,
      (count K (fst (exec p t)) + r <= n + m)%nat
      /\ task_within K r (snd (exec p t)).
Proof.
  induction p; simpl; intros n m t Hp Ht.
  - exists m. split; [simpl; lia | assumption].
  - exists m. split; [| assumption].
    rewrite count_cons. unfold count. simpl. lia.
  - destruct Hp as (m0 & H1 & H2). destruct (IHp m0 m t H2 Ht) as (r & H3 & H4).
    destruct (exec p t); simpl in *. exists r.
    split; [rewrite count_cons; lia | assumption].
  - destruct Hp as (m0 & H1 & H2). destruct (IHp m0 m t H2 Ht) as (r & H3 & H4).
    destruct (exec p t); simpl in *. exists r.
    split; [rewrite count_cons; lia | assumption].
  - destruct Hp as (a & m0 & H1 & H2 & H3).
    destruct (IHp2 m0 (m + a)%nat (park (PSend p1) t) H3) as (r & H4 & H5).
    { destruct Ht as (Hl & He & Hw). repeat split; simpl; auto.
      apply waiting_within_snoc; assumption. }
    destruct (exec p2 (park (PSend p1) t)); simpl in *. exists r.
    split; [rewrite count_cons; lia | assumption].
  - destruct Hp as (m0 & H1 & H2). destruct (IHp m0 m t H2 Ht) as (r & H3 & H4).
    destruct (exec p t); simpl in *. exists r.
    split; [rewrite count_cons; lia | assumption].
  - destruct Hp as [Hl Hk]. apply IHp; [assumption |].
    destruct Ht as (H1 & H2 & H3). repeat split; simpl; auto.
    apply Forall_app. split; [assumption | constructor; [assumption | constructor]].
  - destruct Hp as [Hl Hk]. apply IHp; [assumption |].
    destruct Ht as (H1 & H2 & H3). repeat split; simpl; auto.
    apply Forall_app. split; [assumption | constructor; [assumption | constructor]].
  - destruct Hp as (a & m0 & H1 & H2 & H3).
    destruct (IHp2 m0 (m + a)%nat (park (PConnect p1) t) H3) as (r & H4 & H5).
    { destruct Ht as (Hl & He & Hw). repeat split; simpl; auto.
      apply waiting_within_snoc; assumption. }
    destruct (exec p2 (park (PConnect p1) t)); simpl in *. exists r.
    split; [rewrite count_cons; lia | assumption].
  - destruct Hp as (a & m0 & H1 & H2 & H3).
    destruct (IHp m0 (m + a)%nat (park (PLogin cb) t) H3) as (r & H4 & H5).
    { destruct Ht as (Hl & He & Hw). repeat split; simpl; auto.
      apply waiting_within_snoc; assumption. }
    destruct (exec p (park (PLogin cb) t)); simpl in *. exists r.
    split; [rewrite count_cons; lia | assumption].
  - destruct Hp as (m0 & H1 & H2). destruct (IHp m0 m t H2 Ht) as (r & H3 & H4).
    destruct (exec p t); simpl in *. exists r.
    split; [rewrite count_cons; lia | assumption].
Qed.

Lemma next_send_within (w : list parked) (m : nat) (cb : prog)
    (rest : list parked) :
  waiting_within K m w -> next_send w = Some (cb, rest) ->
  exists a b, (a + b <= m)%nat /\ within K a cb /\ waiting_within K b rest.
Proof.
  revert m cb rest. induction w as [|p w IH]; intros m cb rest Hw Hn;
    [discriminate |].
  destruct Hw as (a0 & b0 & H1 & H2 & H3).
  destruct p; simpl in Hn;
    try (injection Hn as <- <-; exists a0, b0; auto);
    (destruct (next_send w) as [[cb' rest']|] eqn:Hw'; [| discriminate];
     injection Hn as <- <-;
     destruct (IH _ _ _ H3 eq_refl) as (a1 & b1 & H4 & H5 & H6);
     exists a1, (a0 + b1)%nat; split; [lia |]; split; [assumption |];
     simpl; exists a0, b1; auto).
Qed.

Lemma next_connect_within (w : list parked) (m : nat) (cb : prog)
    (rest : list parked) :
  waiting_within K m w -> next_connect w = Some (cb, rest) ->
  exists a b, (a + b <= m)%nat /\ within K a cb /\ waiting_within K b rest.
Proof.
  revert m cb rest. induction w as [|p w IH]; intros m cb rest Hw Hn;
    [discriminate |].
  destruct Hw as (a0 & b0 & H1 & H2 & H3).
  destruct p; simpl in Hn;
    try (injection Hn as <- <-; exists a0, b0; auto);
    (destruct (next_connect w) as [[cb' rest']|] eqn:Hw'; [| discriminate];
     injection Hn as <- <-;
     destruct (IH _ _ _ H3 eq_refl) as (a1 & b1 & H4 & H5 & H6);
     exists a1, (a0 + b1)%nat; split; [lia |]; split; [assumption |];
     simpl; exists a0, b1; auto).
Qed.

Lemma next_login_within (w : list parked) (m : nat)
    (cb : option jsstring -> prog) (rest : list parked) :
  waiting_within K m w -> next_login w = Some (cb, rest) ->
  exists a b,
    (a + b <= m)%nat /\ (forall err, within K a (cb err))
    /\ waiting_within K b rest.
Proof.
  revert m cb rest. induction w as [|p w IH]; intros m cb rest Hw Hn;
    [discriminate |].
  destruct Hw as (a0 & b0 & H1 & H2 & H3).
  destruct p; simpl in Hn;
    try (injection Hn as <- <-; exists a0, b0; auto);
    (destruct (next_login w) as [[cb' rest']|] eqn:Hw'; [| discriminate];
     injection Hn as <- <-;
     destruct (IH _ _ _ H3 eq_refl) as (a1 & b1 & H4 & H5 & H6);
     exists a1, (a0 + b1)%nat; split; [lia |]; split; [assumption |];
     simpl; exists a0, b1; auto).
Qed.

Hypothesis K_got : forall c, K (Got c) = false.

Lemma callback_within (c : completion) (p : prog) (t : task) (a b m : nat) :
  (a + b <= m)%nat -> within K a p -> task_within K b t ->
  let r := let (es, t') := exec p t in (Got c :: es, t') in
  exists r', (count K (fst r) + r' <= m)%nat /\ task_within K r' (snd r).
Proof.
  intros Hle Hp Ht. destruct (exec_within p a b t Hp Ht) as (r' & H1 & H2).
  destruct (exec p t) as [es t']. simpl in *. exists r'.
  split; [| assumption]. rewrite count_cons. unfold cost. rewrite K_got. lia.
Qed.

Lemma react_within (c : completion) (t : task) (m : nat) :
  task_within K m t ->
  exists r,
    (count K (fst (react c t)) + r <= m)%nat
    /\ task_within K r (snd (react c t)).
Proof.
  intros Ht. pose proof Ht as (Hl & He & Hw).
  assert (Hnone : exists r, (count K [] + r <= m)%nat /\ task_within K r t)
    by (exists m; split; [simpl; lia | assumption]).
  destruct c; simpl.
  - destruct (next_send (waiting t)) as [[cb rest]|] eqn:Hn; [| exact Hnone].
    destruct (next_send_within _ _ _ _ Hw Hn) as (a & b & H1 & H2 & H3).
    apply (callback_within SendDone cb (set_waiting rest t) a b);
      [assumption | assumption |].
    repeat split; simpl; assumption.
  - destruct (next_connect (waiting t)) as [[cb rest]|] eqn:Hn; [| exact Hnone].
    destruct (next_connect_within _ _ _ _ Hw Hn) as (a & b & H1 & H2 & H3).
    apply (callback_within Connected cb (set_waiting rest t) a b);
      [assumption | assumption |].
    repeat split; simpl; assumption.
  - destruct (next_login (waiting t)) as [[cb rest]|] eqn:Hn; [| exact Hnone].
    destruct (next_login_within _ _ _ _ Hw Hn) as (a & b & H1 & H2 & H3).
    apply (callback_within (LoginDone err) (cb err) (set_waiting rest t) a b);
      [assumption | apply H2 |].
    repeat split; simpl; assumption.
  - destruct (error_listeners t) as [|l ls] eqn:Hls; [exact Hnone |].
    apply (callback_within (SmtpError err)
             (call_all (List.map (fun l0 => l0 err) (l :: ls))) t 0 m);
      [lia | | assumption].
    apply within_call_all. apply List.Forall_map.
    eapply List.Forall_impl; [| exact He]. intros l0 H0. apply H0.
  - destruct (log_listeners t) as [|l ls] eqn:Hls; [exact Hnone |].
    apply (callback_within (SmtpLog iso type message)
             (call_all (List.map (fun l0 => l0 iso type message) (l :: ls)))
             t 0 m);
      [lia | | assumption].
    apply within_call_all. apply List.Forall_map.
    eapply List.Forall_impl; [| exact Hl]. intros l0 H0. apply H0.
Qed.

Lemma deliver_within (script : list completion) (t : task) (m : nat) :
  task_within K m t -> (count K (deliver script t) <= m)%nat.
Proof.
  revert t m. induction script as [|c script IH]; intros t m Ht; simpl.
  - unfold count. simpl. lia.
  - destruct (react_within c t m Ht) as (r & H1 & H2).
    destruct (react c t) as [es t']. simpl in *.
    rewrite count_app. specialize (IH t' r H2). lia.
Qed.

(** Whatever the environment does, a program within budget [n] performs at
    most [n] effects of kind [K]. *)
Lemma session_within (p : prog) (script : list completion) (n : nat) :
  within K n p -> (count K (session p script) <= n)%nat.
Proof.
  intros Hp. unfold session.
  destruct (exec_within p n 0 idle Hp) as (r & H1 & H2).
  { repeat split; simpl; auto. }
  destruct (exec p idle) as [es t]. simpl in *.
  rewrite count_app. pose proof (deliver_within script t r H2). lia.
Qed.

(** *** The handler *)

Hypothesis K_log : forall line, K (EConsoleLog line) = false.
Hypothesis K_emit : forall event o, K (EEmit event o) = false.
Hypothesis K_send : forall buf offset len p a, K (ESend buf offset len p a) = false.
Hypothesis K_uncaught : forall ex, K (EUncaught ex) = false.
Hypothesis K_one : forall cfg user pass,
  (cost K (ENewSMTPConnection cfg) + cost K EConnect
   + cost K (ELogin user pass) + cost K EQuit <= 1)%nat.

Variable opts : options.
Variable decode : list N -> jsval -> decoded.
Variable encode_response : response_args -> list N.

Lemma respond_within (pkt : packet) (rcode : jsstring) (from : rinfo)
    (event : string) (o : object) :
  within K 0 (respond opts encode_response pkt rcode from (Emit event o Return)).
Proof.
  unfold respond. simpl. exists 0%nat, 0%nat. unfold cost.
  rewrite K_send, K_emit. split; [lia |]. split; [| exact I].
  exists 0%nat. split; [lia | exact I].
Qed.

Lemma reply_within (pkt : packet) (from : rinfo) (username : jsval)
    (err : option jsstring) (obj : option object) :
  within K 0 (reply opts encode_response pkt from username err obj).
Proof.
  unfold reply. destruct err; [apply respond_within |].
  destruct obj; [apply respond_within |].
  simpl. unfold cost. rewrite K_uncaught. lia.
Qed.

Lemma authenticate_within (username password : jsval) (cb : callback) :
  (forall err obj, within K 0 (cb err obj)) ->
  within K 1 (authenticate username password opts cb).
Proof.
  intros Hcb. unfold authenticate. simpl.
  pose proof (K_one (connection_options opts) username password) as Hone.
  exists (cost K EConnect + cost K (ELogin username password) + cost K EQuit)%nat.
  split; [lia |].
  split; [intros iso type message; exists 0%nat; unfold cost; rewrite K_log;
          split; [lia | exact I] |].
  split; [intros err; apply Hcb |].
  exists (cost K (ELogin username password) + cost K EQuit)%nat, 0%nat.
  split; [lia |]. split; [| exact I].
  exists (cost K EQuit), 0%nat. split; [lia |]. split; [| exact I].
  intros err. apply (within_seq _ _ 0 (cost K EQuit)).
  - destruct err; apply Hcb.
  - simpl. exists 0%nat. split; [lia | exact I].
Qed.

Lemma handler_within (msg : list N) (from : rinfo) :
  within K 1 (handler opts decode encode_response msg from).
Proof.
  assert (Hemit : forall event o,
            within K 1 (Emit event o Return)).
  { intros event o. simpl. exists 0%nat. unfold cost. rewrite K_emit.
    split; [lia | exact I]. }
  assert (Hreject : forall event o pkt u,
            within K 1
              (Emit event o
                 (respond opts encode_response pkt Access_Reject from
                    (Emit "radius" (failure u) Return)))).
  { intros event o pkt u. cbn [within]. exists 0%nat. unfold cost.
    rewrite K_emit. split; [lia | apply respond_within]. }
  unfold handler.
  destruct (decode msg (secret opts)) as [ex | pkt]; [apply Hemit |].
  destruct (negb (JsString.eqb (code pkt) Access_Request)); [apply Hemit |].
  cbn zeta. cbn [within]. exists 1%nat. unfold cost at 1. rewrite K_log.
  split; [lia |].
  destruct (get (attributes pkt) "User-Name") as [| | b | u | shown];
    try (simpl; unfold cost; rewrite K_uncaught; lia).
  destruct (negb (match_ u emailRegExp)); [apply Hreject |].
  destruct (Nat.eqb _ 0); [apply Hreject |].
  apply authenticate_within. intros err obj. apply reply_within.
Qed.

End BudgetFacts.

End BudgetFacts.
Export BudgetFacts.

(** ** More on strings *)

Module SplitFacts.

Lemma up_to_prefix (sep : N) (s : jsstring) :
  exists rest, s = up_to sep s ++ rest.
Proof.
  induction s as [|c s [rest IH]]; simpl; [exists []; reflexivity |].
  destruct (N.eqb c sep); [exists (c :: s); reflexivity |].
  exists rest. simpl. f_equal. exact IH.
Qed.

Lemma up_to_app_free (sep : N) (d r : jsstring) :
  ~ In sep d -> exists r', up_to sep (d ++ r) = d ++ r'.
Proof.
  induction d as [|c d IH]; simpl; intros Hfree; [eauto |].
  destruct (N.eqb_spec c sep) as [-> | _]; [tauto |].
  destruct IH as [r' ->]; [tauto |]. exists r'. reflexivity.
Qed.

Lemma after_first_free (sep : N) (x r : jsstring) :
  ~ In sep x -> after_first sep (x ++ sep :: r) = Some r.
Proof.
  induction x as [|c x IH]; simpl; intros Hfree.
  - rewrite N.eqb_refl. reflexivity.
  - destruct (N.eqb_spec c sep) as [-> | _]; [tauto |]. apply IH. tauto.
Qed.

Lemma occurs_in_nil (s : jsstring) : occurs_in [] s.
Proof. exists [], s. reflexivity. Qed.

Lemma occurs_in_cons_r (d s : jsstring) (c : N) :
  occurs_in d s -> occurs_in d (c :: s).
Proof. intros (l & r & ->). exists (c :: l), r. reflexivity. Qed.

Lemma occurs_in_app_r (d s t : jsstring) :
  occurs_in d s -> occurs_in d (s ++ t).
Proof.
  intros (l & r & ->). exists l, (r ++ t). rewrite <- !app_assoc. reflexivity.
Qed.

(** A string without the separator occurs in the string exactly when it
    occurs in one of its pieces. *)
Lemma split_occurs (sep : N) (d s : jsstring) :
  ~ In sep d ->
  (exists piece, In piece (split sep s) /\ occurs_in d piece) <-> occurs_in d s.
Proof.
  intros Hfree. induction s as [|c s IH].
  - simpl. split.
    + intros (piece & [<- | []] & Hocc). exact Hocc.
    + intros Hocc. exists []. auto.
  - cbn [split]. destruct (N.eqb_spec c sep) as [-> | Hne].
    + split.
      * intros (piece & [<- | Hin] & Hocc).
        -- destruct Hocc as (l & r & Heq). symmetry in Heq.
           apply app_eq_nil in Heq as [_ Heq].
           apply app_eq_nil in Heq as [-> _]. apply occurs_in_nil.
        -- apply occurs_in_cons_r. apply IH. eauto.
      * intros ([|x l] & r & Heq); simpl in Heq.
        -- destruct d as [|y d]; [exists []; split; [left; reflexivity |];
                                  apply occurs_in_nil |].
           injection Heq as <- _. exfalso. apply Hfree. left. reflexivity.
        -- injection Heq as _ Heq.
           destruct (proj2 IH) as (piece & Hin & Hocc); [exists l, r; exact Heq |].
           exists piece. split; [right; exact Hin | exact Hocc].
    + destruct (split sep s) as [|piece pieces] eqn:Hsplit.
      { pose proof (split_cons sep s) as Hc. rewrite Hsplit in Hc. discriminate. }
      assert (Hprefix : exists rest, s = piece ++ rest).
      { pose proof (split_cons sep s) as Hc. rewrite Hsplit in Hc.
        injection Hc as -> _. apply up_to_prefix. }
      split.
      * intros (p & [<- | Hin] & Hocc).
        -- destruct Hprefix as [rest ->].
           change (c :: piece ++ rest) with ((c :: piece) ++ rest).
           apply occurs_in_app_r. exact Hocc.
        -- apply occurs_in_cons_r. apply IH. exists p. split; [right |]; assumption.
      * intros ([|x l] & r & Heq); simpl in Heq.
        -- destruct d as [|y d].
           { exists (c :: piece). split; [left; reflexivity | apply occurs_in_nil]. }
           injection Heq as Hy Heq. subst y.
           exists (c :: piece). split; [left; reflexivity |].
           assert (Hfree' : ~ In sep d) by (intros H; apply Hfree; right; exact H).
           destruct (up_to_app_free sep d r Hfree') as [r' Hr'].
           pose proof (split_cons sep s) as Hc. rewrite Hsplit in Hc.
           injection Hc as Hpiece _. rewrite Heq, Hr' in Hpiece.
           exists [], r'. simpl. rewrite Hpiece. reflexivity.
        -- injection Heq as _ Heq.
           destruct (proj2 IH) as (p & Hin & Hocc); [exists l, r; exact Heq |].
           destruct Hin as [Hp | Hin].
           ++ subst p. exists (c :: piece). split; [left; reflexivity |].
              apply occurs_in_cons_r. exact Hocc.
           ++ exists p. split; [right; exact Hin | exact Hocc].
Qed.

Lemma split_not_nil (sep : N) (s : jsstring) : split sep s <> [].
Proof. rewrite split_cons. discriminate. Qed.

End SplitFacts.
Export SplitFacts.

(** ** The rejecting paths and the allow-list *)

(** X1: a decoded Access-Request whose username is email-shaped but whose
    domain the allow-list does not accept is answered with Access-Reject: the
    handler logs the request, emits a 'radius-error' event naming the
    username and the configured domains joined with ", ", and sends the
    reject to the sender; the 'radius' event {username, status: false}
    follows once the send completes.  Nothing else happens, whatever the
    environment does; no SMTP connection is made. *)
Theorem X1_domain_not_accepted
    (opts : options) (decode : list N -> jsval -> decoded)
    (encode_response : response_args -> list N)
    (msg : list N) (from : rinfo) (pkt : packet) (u : jsstring)
    (script : list completion) :
  decode msg (secret opts) = Decoded pkt ->
  code pkt = Access_Request ->
  attributes pkt !! "User-Name" = Some (VString u) ->
  match_ u emailRegExp = true ->
  domain_accepted (accept_list opts) (domain_of u) = false ->
  session (handler opts decode encode_response msg from) script =
    [EConsoleLog (js "Got Access-Request for " ++ u);
     EEmit "radius-error"
       {[ "message" :=
            VString (js "Username " ++ u
                     ++ js " is not in an accepted domain. "
                     ++ js "The complete list of allowed domains is "
                     ++ join (js ", ") (accept_list opts)) ]};
     sending opts encode_response pkt Access_Reject from]
    ++ (if completes_send script
        then [Got SendDone;
              EEmit "radius" {[ "username" := VString u; "status" := VBool false ]}]
        else []).
Proof.
  intros H Hc Hu Hm Hd.
  rewrite (handler_access_request _ _ _ _ _ _ H Hc).
  unfold get. rewrite Hu. cbn zeta. cbn match. rewrite Hm.
  unfold domain_accepted in Hd. apply negb_false_iff in Hd. rewrite Hd.
  unfold session, respond, failure. run_loop.
  rewrite deliver_one_send. reflexivity.
Qed.

Lemma X1_domain_not_accepted_witness :
  session (demo_handler (datagram 1 "alice@other.org") demo_from)
          [SendDone; Connected] =
    [EConsoleLog (js "Got Access-Request for " ++ js "alice@other.org");
     EEmit "radius-error"
       {[ "message" :=
            VString (js "Username " ++ js "alice@other.org"
                     ++ js " is not in an accepted domain. "
                     ++ js "The complete list of allowed domains is "
                     ++ js "example.com") ]};
     sending demo_options demo_encode (request_of "alice@other.org")
       Access_Reject demo_from;
     Got SendDone;
     EEmit "radius" {[ "username" := VString (js "alice@other.org");
                       "status" := VBool false ]}].
Proof.
  apply (X1_domain_not_accepted demo_options demo_decode demo_encode
           (datagram 1 "alice@other.org") demo_from
           (request_of "alice@other.org") (js "alice@other.org")
           [SendDone; Connected]);
    reflexivity.
Defined.

Lemma accept_list_spec (opts : options) (s : jsstring) :
  acceptDomains opts = Some s ->
  accept_list opts = match s with [] => [] | _ => split 44 s end.
Proof.
  intros H. unfold accept_list. rewrite H. destruct s; reflexivity.
Qed.

(** The domain-match step accepts exactly when some entry contains the
    domain. *)
Lemma domain_accepted_iff (allow : list jsstring) (domain : jsstring) :
  domain_accepted allow (VString domain) = true <->
  exists d, In d allow /\ occurs_in domain d.
Proof.
  unfold domain_accepted. rewrite negb_true_iff, Nat.eqb_neq. split.
  - intros Hlen.
    destruct (matching_domains allow (VString domain)) as [|d ds] eqn:Hm;
      [contradiction Hlen; reflexivity |].
    exists d. change domain with (to_string (VString domain)).
    apply matching_domains_spec. rewrite Hm. left. reflexivity.
  - intros (d & Hin & Hocc) Hlen.
    assert (Hd : In d (matching_domains allow (VString domain)))
      by (apply matching_domains_spec; auto).
    destruct (matching_domains allow (VString domain));
      [exact Hd | discriminate].
Qed.

(** X2: the allow-list is the configured string cut at its commas, so for a
    domain that contains no comma the domain-match step is a substring test
    against the whole configured string: the domain is accepted exactly when
    the string is not empty and the domain occurs somewhere in it. *)
Theorem X2_allow_list_is_a_substring_test
    (opts : options) (s domain : jsstring) :
  acceptDomains opts = Some s ->
  ~ In 44%N domain ->
  (domain_accepted (accept_list opts) (VString domain) = true <->
   s <> [] /\ occurs_in domain s).
Proof.
  intros Hs Hfree. rewrite (accept_list_spec opts s Hs), domain_accepted_iff.
  destruct s as [|c s].
  - split; [intros (d & [] & _) | intros [Hne _]; contradiction Hne; reflexivity].
  - rewrite (split_occurs 44 domain (c :: s) Hfree).
    split; [intros Hocc; split; [discriminate | exact Hocc] | tauto].
Qed.

Lemma X2_allow_list_is_a_substring_test_witness :
  domain_accepted (accept_list demo_options) (VString (js "ample.c")) = true <->
  js "example.com" <> [] /\ occurs_in (js "ample.c") (js "example.com").
Proof.
  apply (X2_allow_list_is_a_substring_test demo_options (js "example.com")
           (js "ample.c")).
  - reflexivity.
  - vm_compute. intuition discriminate.
Defined.

(** ** The email pattern and the derived domain *)

Lemma match_embedded (r : regexp) (before u after : jsstring) :
  match_ u r = true -> match_ (before ++ u ++ after) r = true.
Proof.
  intros Hm. apply match_spec in Hm as (l & w & t & -> & Hl).
  apply match_spec. exists (before ++ l), w, (t ++ after).
  split; [| exact Hl]. rewrite <- !app_assoc. reflexivity.
Qed.

(** X4: the email pattern is not anchored: a username that passes the
    email-shape test still passes with any text put before or after it. *)
Theorem X4_email_shape_is_not_anchored (before u after : jsstring) :
  match_ u emailRegExp = true ->
  match_ (before ++ u ++ after) emailRegExp = true.
Proof. apply match_embedded. Qed.

Lemma X4_email_shape_is_not_anchored_witness :
  match_ (js "<script>" ++ js "alice@example.com" ++ js " or so")
         emailRegExp = true.
Proof.
  apply (X4_email_shape_is_not_anchored (js "<script>")
           (js "alice@example.com") (js " or so")).
  reflexivity.
Defined.

Lemma domain_accepted_empty (allow : list jsstring) :
  allow <> [] -> domain_accepted allow (VString []) = true.
Proof.
  intros Hne. apply domain_accepted_iff.
  destruct allow as [|d allow]; [contradiction Hne; reflexivity |].
  exists d. split; [left; reflexivity | apply occurs_in_nil].
Qed.

(** X5: the domain is what stands between the first two ['@'], so it can be
    empty, and the empty string occurs in every allow-list entry.  With any
    non-empty configured allow-list, a username made of ['@']-free text,
    ["@@"] and any email-shaped text passes the email-shape test, yields the
    empty domain, and passes the domain-match step. *)
Theorem X5_empty_domain_passes
    (opts : options) (s x u : jsstring) :
  acceptDomains opts = Some s ->
  s <> [] ->
  ~ In 64%N x ->
  match_ u emailRegExp = true ->
  let username := x ++ js "@@" ++ u in
  match_ username emailRegExp = true
  /\ domain_of username = VString []
  /\ domain_accepted (accept_list opts) (domain_of username) = true.
Proof.
  intros Hs Hne Hfree Hm username.
  assert (Hdom : domain_of username = VString []).
  { unfold username. rewrite domain_of_spec.
    change (x ++ js "@@" ++ u) with (x ++ 64%N :: 64%N :: u).
    rewrite (after_first_free 64 x (64%N :: u) Hfree). reflexivity. }
  split; [| split].
  - unfold username.
    pose proof (match_embedded emailRegExp (x ++ js "@@") u [] Hm) as H.
    rewrite app_nil_r, <- app_assoc in H. exact H.
  - exact Hdom.
  - rewrite Hdom. apply domain_accepted_empty.
    rewrite (accept_list_spec opts s Hs).
    destruct s; [contradiction Hne; reflexivity | apply split_not_nil].
Qed.

Lemma X5_empty_domain_passes_witness :
  match_ (js "x" ++ js "@@" ++ js "mallory@elsewhere.org") emailRegExp = true
  /\ domain_of (js "x" ++ js "@@" ++ js "mallory@elsewhere.org") = VString []
  /\ domain_accepted (accept_list demo_options)
       (domain_of (js "x" ++ js "@@" ++ js "mallory@elsewhere.org")) = true.
Proof.
  apply (X5_empty_domain_passes demo_options (js "example.com") (js "x")
           (js "mallory@elsewhere.org")).
  - reflexivity.
  - discriminate.
  - vm_compute. intuition discriminate.
  - reflexivity.
Defined.

(** ** What the handler never does *)

Module SafetyFacts.

Section SafetyFacts.

Variable opts : options.
Variable decode : list N -> jsval -> decoded.
Variable encode_response : response_args -> list N.
Variables (msg : list N) (from : rinfo).

(** Every operation on the SMTP connection is [checked], whatever the
    environment does. *)
Lemma smtp_effects_checked (script : list completion) (e : effect) :
  In e (session (handler opts decode encode_response msg from) script) ->
  checked opts decode msg e.
Proof.
  intros Hin.
  assert (Htr : governed_trace (fun _ => True) (checked opts decode msg)
                  (fun _ => True)
                  (session (handler opts decode encode_response msg from) script)).
  { apply session_governed; [apply List.Forall_forall; auto |].
    apply handler_governed.
    - intros line. exact I.
    - intros o. exact I.
    - intros pkt _ _. right. exact I.
    - intros pkt u _ _ _. split; exact I.
    - intros pkt u Hr. simpl. repeat split; eauto 6. }
  destruct (governed_trace_In _ _ _ _ _ Htr Hin) as [He | [[c ->] | (o & -> & _)]];
    [exact He | exact I | exact I].
Qed.

Lemma no_verifier_without_allow_list (pkt : packet) (u : jsstring) :
  accept_list opts = [] -> ~ reaches_verifier opts decode msg pkt u.
Proof.
  intros Hnil (_ & _ & _ & _ & Hd). rewrite Hnil in Hd. discriminate.
Qed.

(** The 'radius' events of a request carry its username; one with status
    true is emitted only if the SMTP server accepted the login. *)
Lemma radius_events (pkt : packet) (u : jsstring) (script : list completion)
    (o : object) :
  decode msg (secret opts) = Decoded pkt ->
  get (attributes pkt) "User-Name" = VString u ->
  In (EEmit "radius" o)
     (session (handler opts decode encode_response msg from) script) ->
  o = failure (VString u)
  \/ (o = success (VString u) /\ In (LoginDone None) script).
Proof.
  intros Hd Hu Hin.
  assert (Hname : forall pkt0 u0,
            decode msg (secret opts) = Decoded pkt0 ->
            get (attributes pkt0) "User-Name" = VString u0 -> u0 = u).
  { intros pkt0 u0 Hd0 Hu0. rewrite Hd in Hd0. injection Hd0 as <-.
    rewrite Hu in Hu0. injection Hu0 as <-. reflexivity. }
  destruct (in_dec completion_eq_dec (LoginDone None) script) as [Hacc | Hnot].
  - assert (Htr : governed_trace (fun _ => True) not_outcome
                    (fun o => o = failure (VString u) \/ o = success (VString u))
                    (session (handler opts decode encode_response msg from)
                             script)).
    { apply session_governed; [apply List.Forall_forall; auto |].
      apply handler_governed.
      - intros line. exact I.
      - intros o'. simpl. discriminate.
      - intros pkt0 _ _. right. exact I.
      - intros pkt0 u0 Hd0 _ Hu0. rewrite (Hname _ _ Hd0 Hu0).
        split; [exact I | left; reflexivity].
      - intros pkt0 u0 (Hd0 & _ & Hu0 & _). rewrite (Hname _ _ Hd0 Hu0).
        simpl. repeat split; auto. }
    destruct (governed_trace_In _ _ _ _ _ Htr Hin)
      as [He | [[c Hc] | (o' & Ho' & [Hq | Hq])]].
    + simpl in He. congruence.
    + discriminate.
    + injection Ho' as ->. left. exact Hq.
    + injection Ho' as ->. right. split; assumption.
  - assert (Htr : governed_trace (fun c => c <> LoginDone None) not_outcome
                    (fun o => o = failure (VString u))
                    (session (handler opts decode encode_response msg from)
                             script)).
    { apply session_governed.
      - apply List.Forall_forall. intros c Hc ->. contradiction.
      - apply handler_governed.
        + intros line. exact I.
        + intros o'. simpl. discriminate.
        + intros pkt0 _ _. right. exact I.
        + intros pkt0 u0 Hd0 _ Hu0. rewrite (Hname _ _ Hd0 Hu0).
          split; [exact I | reflexivity].
        + intros pkt0 u0 (Hd0 & _ & Hu0 & _). simpl.
          split; [exact I |]. split; [exact I |]. intros _.
          split; [exact I |]. split; [intros _; exact I |].
          intros Hne. contradiction Hne. reflexivity. }
    destruct (governed_trace_In _ _ _ _ _ Htr Hin)
      as [He | [[c Hc] | (o' & Ho' & Hq)]].
    + simpl in He. congruence.
    + discriminate.
    + injection Ho' as ->. left. exact Hq.
Qed.

End SafetyFacts.

End SafetyFacts.
Export SafetyFacts.

(** X3: with no allow-list configured ([acceptDomains] absent or empty) the
    handler never touches the SMTP server: whatever the datagram and
    whatever the environment does, no connection is created, no connect or
    login is issued, nothing is quit. *)
Theorem X3_no_allow_list_no_smtp
    (opts : options) (decode : list N -> jsval -> decoded)
    (encode_response : response_args -> list N)
    (msg : list N) (from : rinfo) (script : list completion) (e : effect) :
  acceptDomains opts = None \/ acceptDomains opts = Some [] ->
  In e (session (handler opts decode encode_response msg from) script) ->
  smtp_effect e = false.
Proof.
  intros Hnone Hin.
  assert (Hnil : accept_list opts = [])
    by (unfold accept_list; destruct Hnone as [-> | ->]; reflexivity).
  pose proof (smtp_effects_checked _ _ _ _ _ _ _ Hin) as Hc.
  destruct e; try reflexivity; simpl in Hc.
  - destruct Hc as [(pkt & u & Hr) _].
    contradiction (no_verifier_without_allow_list _ _ _ _ _ Hnil Hr).
  - destruct Hc as (pkt & u & Hr).
    contradiction (no_verifier_without_allow_list _ _ _ _ _ Hnil Hr).
  - destruct Hc as (pkt & u & Hr & _).
    contradiction (no_verifier_without_allow_list _ _ _ _ _ Hnil Hr).
  - destruct Hc as (pkt & u & Hr).
    contradiction (no_verifier_without_allow_list _ _ _ _ _ Hnil Hr).
Qed.

Lemma X3_no_allow_list_no_smtp_witness :
  smtp_effect
    (sending no_options demo_encode (request_of "alice@example.com")
       Access_Reject demo_from) = false.
Proof.
  apply (X3_no_allow_list_no_smtp no_options demo_decode demo_encode
           (datagram 1 "alice@example.com") demo_from [Connected]).
  - left. reflexivity.
  - vm_compute. right. right. left. reflexivity.
Defined.

(** X6: the handler presents credentials to the SMTP server only for a
    request that passed every check.  Whatever the environment does, a
    login is issued only if the datagram decoded to an Access-Request whose
    User-Name is a string that matches the email pattern and whose domain
    the allow-list accepts; the login presents that whole username and the
    User-Password attribute of the packet. *)
Theorem X6_login_only_after_checks
    (opts : options) (decode : list N -> jsval -> decoded)
    (encode_response : response_args -> list N)
    (msg : list N) (from : rinfo) (script : list completion)
    (user pass : jsval) :
  In (ELogin user pass)
     (session (handler opts decode encode_response msg from) script) ->
  exists pkt u,
    reaches_verifier opts decode msg pkt u
    /\ user = VString u
    /\ pass = get (attributes pkt) "User-Password".
Proof.
  intros Hin. exact (smtp_effects_checked _ _ _ _ _ _ _ Hin).
Qed.

Lemma X6_login_only_after_checks_witness :
  exists pkt u,
    reaches_verifier demo_options demo_decode
      (datagram 1 "alice@example.com") pkt u
    /\ VString (js "alice@example.com") = VString u
    /\ VString (js "hunter2") = get (attributes pkt) "User-Password".
Proof.
  apply (X6_login_only_after_checks demo_options demo_decode demo_encode
           (datagram 1 "alice@example.com") demo_from [Connected]).
  vm_compute. do 4 right. left. reflexivity.
Defined.

(** X7: Access-Accept is sent only if the SMTP server accepted the login.
    Provided the codec encodes the accepting and the rejecting response to a
    request differently, then, whatever the environment does, the accepting
    response is among the datagrams sent only if the environment answered
    the login without error. *)
Theorem X7_accept_only_if_login_accepted
    (opts : options) (decode : list N -> jsval -> decoded)
    (encode_response : response_args -> list N)
    (msg : list N) (from : rinfo) (pkt : packet) (script : list completion) :
  decode msg (secret opts) = Decoded pkt ->
  encode_response
    {| resp_packet := pkt; resp_code := Access_Accept;
       resp_secret := secret opts |}
  <> encode_response
       {| resp_packet := pkt; resp_code := Access_Reject;
          resp_secret := secret opts |} ->
  In (sending opts encode_response pkt Access_Accept from)
     (session (handler opts decode encode_response msg from) script) ->
  In (LoginDone None) script.
Proof.
  intros Hd Hcodec Hin.
  destruct (in_dec completion_eq_dec (LoginDone None) script) as [Hacc | Hnot];
    [exact Hacc | exfalso].
  assert (Htr : governed_trace (fun c => c <> LoginDone None)
                  (fun e => e <> sending opts encode_response pkt
                                   Access_Accept from)
                  (fun _ => True)
                  (session (handler opts decode encode_response msg from)
                           script)).
  { apply session_governed.
    - apply List.Forall_forall. intros c Hc ->. contradiction.
    - apply handler_governed.
      + intros line. discriminate.
      + intros o. discriminate.
      + intros pkt0 _ _. right. discriminate.
      + intros pkt0 u0 Hd0 _ _. rewrite Hd in Hd0. injection Hd0 as <-.
        split; [| exact I]. unfold sending. intros Heq.
        injection Heq as Heq _. apply Hcodec. symmetry. exact Heq.
      + intros pkt0 u0 _.
        split; [discriminate |]. split; [discriminate |]. intros _.
        split; [discriminate |]. split; [intros _; discriminate |].
        intros Hne. contradiction Hne. reflexivity. }
  destruct (governed_trace_In _ _ _ _ _ Htr Hin)
    as [He | [[c Hc] | (o & Ho & _)]].
  - apply He. reflexivity.
  - discriminate.
  - discriminate.
Qed.

Lemma X7_accept_only_if_login_accepted_witness :
  In (LoginDone None) [Connected; LoginDone None].
Proof.
  apply (X7_accept_only_if_login_accepted demo_options demo_decode demo_encode
           (datagram 1 "alice@example.com") demo_from
           (request_of "alice@example.com") [Connected; LoginDone None]).
  - reflexivity.
  - vm_compute. discriminate.
  - vm_compute. do 6 right. left. reflexivity.
Defined.

(** X8: every 'radius' event emitted for a decoded request names the
    User-Name of that request and has a boolean status: it is either
    {username, status: false} or {username, status: true}, and the latter is
    emitted only if the SMTP server accepted the login.  This holds whatever
    the environment does. *)
Theorem X8_radius_events_name_the_request
    (opts : options) (decode : list N -> jsval -> decoded)
    (encode_response : response_args -> list N)
    (msg : list N) (from : rinfo) (pkt : packet) (u : jsstring)
    (script : list completion) (o : object) :
  decode msg (secret opts) = Decoded pkt ->
  get (attributes pkt) "User-Name" = VString u ->
  In (EEmit "radius" o)
     (session (handler opts decode encode_response msg from) script) ->
  o = {[ "username" := VString u; "status" := VBool false ]}
  \/ (o = {[ "username" := VString u; "status" := VBool true ]}
      /\ In (LoginDone None) script).
Proof. apply radius_events. Qed.

Lemma X8_radius_events_name_the_request_witness :
  ({[ "username" := VString (js "bob"); "status" := VBool false ]} : object)
  = {[ "username" := VString (js "bob"); "status" := VBool false ]}
  \/ (({[ "username" := VString (js "bob"); "status" := VBool false ]} : object)
      = {[ "username" := VString (js "bob"); "status" := VBool true ]}
      /\ In (LoginDone None) [SendDone]).
Proof.
  apply (X8_radius_events_name_the_request demo_options demo_decode demo_encode
           (datagram 1 "bob") demo_from (request_of "bob") (js "bob")
           [SendDone]).
  - reflexivity.
  - reflexivity.
  - vm_compute. do 4 right. left. reflexivity.
Defined.

(** X12: what the command-line server prints for a 'radius' event of a
    decoded request is "Authentication failure: " or "Authentication
    success: " followed by the User-Name of the request, after the time
    stamp; it prints success only if the SMTP server accepted the login. *)
Theorem X12_cli_reports_the_outcome
    (opts : options) (decode : list N -> jsval -> decoded)
    (encode_response : response_args -> list N)
    (msg : list N) (from : rinfo) (pkt : packet) (u : jsstring)
    (script : list completion) (o : object) (iso : jsstring) :
  decode msg (secret opts) = Decoded pkt ->
  get (attributes pkt) "User-Name" = VString u ->
  In (EEmit "radius" o)
     (session (handler opts decode encode_response msg from) script) ->
  on_radius iso o = iso ++ js ": Authentication failure: " ++ u
  \/ (on_radius iso o = iso ++ js ": Authentication success: " ++ u
      /\ In (LoginDone None) script).
Proof.
  intros Hd Hu Hin.
  destruct (radius_events _ _ _ _ _ _ _ _ _ Hd Hu Hin) as [-> | [-> Hacc]].
  - left. unfold on_radius, now. rewrite <- !app_assoc. reflexivity.
  - right. split; [| exact Hacc].
    unfold on_radius, now. rewrite <- !app_assoc. reflexivity.
Qed.

Lemma X12_cli_reports_the_outcome_witness :
  on_radius (js "2014-05-01T10:00:00.000Z")
    {[ "username" := VString (js "alice@example.com"); "status" := VBool true ]}
  = js "2014-05-01T10:00:00.000Z" ++ js ": Authentication failure: "
    ++ js "alice@example.com"
  \/ (on_radius (js "2014-05-01T10:00:00.000Z")
        {[ "username" := VString (js "alice@example.com");
           "status" := VBool true ]}
      = js "2014-05-01T10:00:00.000Z" ++ js ": Authentication success: "
        ++ js "alice@example.com"
      /\ In (LoginDone None) [Connected; LoginDone None; SendDone]).
Proof.
  apply (X12_cli_reports_the_outcome demo_options demo_decode demo_encode
           (datagram 1 "alice@example.com") demo_from
           (request_of "alice@example.com") (js "alice@example.com")
           [Connected; LoginDone None; SendDone]).
  - reflexivity.
  - reflexivity.
  - vm_compute. do 9 right. left. reflexivity.
Defined.

(** X9: a datagram is verified in a single attempt.  Whatever the datagram
    and whatever the environment does, the handler creates at most one SMTP
    connection, connects at most once, logs in at most once and quits at
    most once: nothing is retried. *)
Theorem X9_single_attempt
    (opts : options) (decode : list N -> jsval -> decoded)
    (encode_response : response_args -> list N)
    (msg : list N) (from : rinfo) (script : list completion) :
  let tr := session (handler opts decode encode_response msg from) script in
  (count is_connection tr <= 1)%nat
  /\ (count is_connect tr <= 1)%nat
  /\ (count is_login tr <= 1)%nat
  /\ (count is_quit tr <= 1)%nat.
Proof.
  intros tr.
  repeat split;
    (apply session_within;
     [reflexivity
     | apply handler_within; try reflexivity; intros; unfold cost; simpl; lia]).
Qed.

(** X11: the handler closes the SMTP connection only when the login was
    answered.  Whatever the environment does, [conn.quit()] is called only
    if the environment answered the login (with or without error); when the
    connection fails instead, nothing quits it. *)
Theorem X11_quit_only_when_login_answered
    (opts : options) (decode : list N -> jsval -> decoded)
    (encode_response : response_args -> list N)
    (msg : list N) (from : rinfo) (script : list completion) :
  In EQuit (session (handler opts decode encode_response msg from) script) ->
  exists err, In (LoginDone err) script.
Proof.
  intros Hin.
  destruct (List.existsb
              (fun c => match c with LoginDone _ => true | _ => false end)
              script) eqn:Hex.
  - apply List.existsb_exists in Hex as (c & Hc & Hlogin).
    destruct c; try discriminate. eauto.
  - exfalso.
    assert (Htr : governed_trace
                    (fun c => match c with LoginDone _ => False | _ => True end)
                    (fun e => e <> EQuit) (fun _ => True)
                    (session (handler opts decode encode_response msg from)
                             script)).
    { apply session_governed.
      - apply List.Forall_forall. intros c Hc. destruct c; try exact I.
        assert (List.existsb
                  (fun c => match c with LoginDone _ => true | _ => false end)
                  script = true); [| congruence].
        apply List.existsb_exists. eexists. split; [exact Hc | reflexivity].
      - apply handler_governed.
        + intros line. discriminate.
        + intros o. discriminate.
        + intros pkt0 _ _. right. discriminate.
        + intros pkt0 u0 _ _ _. split; [discriminate | exact I].
        + intros pkt0 u0 _.
          split; [discriminate |]. split; [discriminate |]. intros _.
          split; [discriminate |]. split; [intros [err []] |]. intros []. }
    destruct (governed_trace_In _ _ _ _ _ Htr Hin)
      as [He | [[c Hc] | (o & Ho & _)]].
    + apply He. reflexivity.
    + discriminate.
    + discriminate.
Qed.

Lemma X11_quit_only_when_login_answered_witness :
  exists err, In (LoginDone err) [Connected; LoginDone None].
Proof.
  apply (X11_quit_only_when_login_answered demo_options demo_decode demo_encode
           (datagram 1 "alice@example.com") demo_from
           [Connected; LoginDone None]).
  vm_compute. do 7 right. left. reflexivity.
Defined.

(** X10: the reply function is not guarded against being called twice.  For
    a request that reaches the credential check, if the connection emits
    'error' after the login was answered, a second response is sent, an
    Access-Reject, and a second 'radius' event {username, status: false}
    follows it. *)
Theorem X10_second_callback_second_response
    (opts : options) (decode : list N -> jsval -> decoded)
    (encode_response : response_args -> list N)
    (msg : list N) (from : rinfo) (pkt : packet) (u : jsstring)
    (err : option jsstring) (detail : jsstring) :
  decode msg (secret opts) = Decoded pkt ->
  code pkt = Access_Request ->
  attributes pkt !! "User-Name" = Some (VString u) ->
  match_ u emailRegExp = true ->
  domain_accepted (accept_list opts) (domain_of u) = true ->
  let tr := session (handler opts decode encode_response msg from)
              [Connected; LoginDone err; SmtpError detail; SendDone; SendDone] in
  let response rcode :=
    encode_response
      {| resp_packet := pkt; resp_code := rcode; resp_secret := secret opts |} in
  sent tr =
    [response match err with None => Access_Accept | Some _ => Access_Reject end;
     response Access_Reject]
  /\ emitted "radius" tr =
     [ {[ "username" := VString u;
          "status" := VBool match err with None => true | Some _ => false end ]};
       {[ "username" := VString u; "status" := VBool false ]} ].
Proof.
  intros H Hc Hu Hm Hd tr response. subst tr.
  rewrite (handler_verifies _ _ _ _ _ _ _ H Hc Hu Hm Hd).
  unfold session, authenticate. destruct err; split; reflexivity.
Qed.

Lemma X10_second_callback_second_response_witness :
  let tr := session (demo_handler (datagram 1 "alice@example.com") demo_from)
              [Connected; LoginDone None; SmtpError (js "ECONNRESET");
               SendDone; SendDone] in
  sent tr =
    [demo_encode {| resp_packet := request_of "alice@example.com";
                    resp_code := Access_Accept;
                    resp_secret := secret demo_options |};
     demo_encode {| resp_packet := request_of "alice@example.com";
                    resp_code := Access_Reject;
                    resp_secret := secret demo_options |}]
  /\ emitted "radius" tr =
     [ {[ "username" := VString (js "alice@example.com");
          "status" := VBool true ]};
       {[ "username" := VString (js "alice@example.com");
          "status" := VBool false ]} ].
Proof.
  apply (X10_second_callback_second_response demo_options demo_decode
           demo_encode (datagram 1 "alice@example.com") demo_from
           (request_of "alice@example.com") (js "alice@example.com")
           None (js "ECONNRESET"));
    reflexivity.
Defined.

(** X13: what [authenticate] calls back with.  For a caller that tells the
    calls apart by their arguments, whatever the environment does, every
    call of the callback is given either an error and no object -- the error
    the connection emitted or the login was answered with -- or no error and
    the object {username, status: true}, the latter only if the SMTP server
    accepted the login.  It is never given both, and never neither. *)
Theorem X13_authenticate_calls_back
    (username password : jsval) (opts : options) (script : list completion)
    (name : string) (o : object) :
  In (EEmit name o)
     (session (authenticate username password opts observe) script) ->
  (name = "error"%string
   /\ exists err, o = {[ "err" := VString err ]}
                  /\ (In (SmtpError err) script
                      \/ In (LoginDone (Some err)) script))
  \/ (name = "object"%string
      /\ o = {[ "username" := username; "status" := VBool true ]}
      /\ In (LoginDone None) script).
Proof.
  intros Hin.
  pose (P := fun (name' : string) (o' : object) =>
               (name' = "error"%string
                /\ exists err, o' = {[ "err" := VString err ]}
                               /\ (In (SmtpError err) script
                                   \/ In (LoginDone (Some err)) script))
               \/ (name' = "object"%string
                   /\ o' = {[ "username" := username; "status" := VBool true ]}
                   /\ In (LoginDone None) script)).
  pose (E0 := fun (e : effect) =>
                match e with
                | EEmit event o' => P event o'
                | Got _ => False
                | _ => True
                end).
  assert (Htr : governed_trace (fun c => In c script) E0 (fun _ => False)
                  (session (authenticate username password opts observe)
                           script)).
  { apply session_governed; [apply List.Forall_forall; auto |].
    apply authenticate_governed; try exact I.
    - intros line. exact I.
    - intros _. exact I.
    - intros err Herr. cbn. split; [| exact I]. left. eauto.
    - intros err _ Hlogin. split; [| exact I].
      destruct err as [e|]; cbn; (split; [| exact I]).
      + left. eauto.
      + right. auto. }
  destruct (governed_trace_In _ _ _ _ _ Htr Hin)
    as [He | [[c Hc] | (o' & _ & [])]]; [exact He | discriminate].
Qed.

Lemma X13_authenticate_calls_back_witness :
  ("error"%string = "error"%string
   /\ exists err, ({[ "err" := VString (js "ETIMEDOUT") ]} : object)
                  = {[ "err" := VString err ]}
                  /\ (In (SmtpError err) [SmtpError (js "ETIMEDOUT")]
                      \/ In (LoginDone (Some err)) [SmtpError (js "ETIMEDOUT")]))
  \/ ("error"%string = "object"%string
      /\ ({[ "err" := VString (js "ETIMEDOUT") ]} : object)
         = {[ "username" := VString (js "alice@example.com");
              "status" := VBool true ]}
      /\ In (LoginDone None) [SmtpError (js "ETIMEDOUT")]).
Proof.
  apply (X13_authenticate_calls_back (VString (js "alice@example.com"))
           (VString (js "hunter2")) demo_options
           [SmtpError (js "ETIMEDOUT")]).
  vm_compute. do 3 right. left. reflexivity.
Defined.

(** X14: everything the handler sends is a response to the request it is
    handling.  Whatever the environment does, each datagram handed to the
    socket is the encoding of an Access-Accept or Access-Reject for the
    decoded request packet under the configured secret, is sent whole (from
    offset 0, in its full length), and goes to the address and port the
    request came from. *)
Theorem X14_sends_only_responses_to_the_sender
    (opts : options) (decode : list N -> jsval -> decoded)
    (encode_response : response_args -> list N)
    (msg : list N) (from : rinfo) (script : list completion)
    (buf : list N) (offset len : Z) (to_port : N) (to_address : jsstring) :
  In (ESend buf offset len to_port to_address)
     (session (handler opts decode encode_response msg from) script) ->
  (exists pkt rcode,
     decode msg (secret opts) = Decoded pkt
     /\ (rcode = Access_Accept \/ rcode = Access_Reject)
     /\ buf = encode_response
                {| resp_packet := pkt; resp_code := rcode;
                   resp_secret := secret opts |})
  /\ offset = 0
  /\ len = Z.of_nat (List.length buf)
  /\ to_port = port from
  /\ to_address = address from.
Proof.
  intros Hin.
  pose (E0 := fun e : effect =>
                match e with
                | ESend b o l p a =>
                    (exists pkt rcode,
                       decode msg (secret opts) = Decoded pkt
                       /\ (rcode = Access_Accept \/ rcode = Access_Reject)
                       /\ b = encode_response
                                {| resp_packet := pkt; resp_code := rcode;
                                   resp_secret := secret opts |})
                    /\ o = 0 /\ l = Z.of_nat (List.length b)
                    /\ p = port from /\ a = address from
                | Got _ => False
                | EEmit event _ => event <> "radius"%string
                | _ => True
                end).
  assert (Htr : governed_trace (fun _ => True) E0 (fun _ => True)
                  (session (handler opts decode encode_response msg from)
                           script)).
  { apply session_governed; [apply List.Forall_forall; auto |].
    apply handler_governed.
    - intros line. exact I.
    - intros o. simpl. discriminate.
    - intros pkt _ _. right. exact I.
    - intros pkt u Hd _ _. split; [| exact I]. unfold sending. simpl.
      split; [exists pkt, Access_Reject; auto | auto].
    - intros pkt u (Hd & _). simpl.
      split; [exact I |]. split; [exact I |]. intros _.
      split; [exact I |]. split; [intros _; exact I |]. intros _.
      split; [| exact I]. unfold sending. simpl.
      split; [exists pkt, Access_Accept; auto | auto]. }
  destruct (governed_trace_In _ _ _ _ _ Htr Hin)
    as [He | [[c Hc] | (o & Ho & _)]]; [exact He | discriminate | discriminate].
Qed.

Lemma X14_sends_only_responses_to_the_sender_witness :
  (exists pkt rcode,
     demo_decode (datagram 1 "bob") (secret demo_options) = Decoded pkt
     /\ (rcode = Access_Accept \/ rcode = Access_Reject)
     /\ demo_encode {| resp_packet := request_of "bob";
                       resp_code := Access_Reject;
                       resp_secret := secret demo_options |}
        = demo_encode {| resp_packet := pkt; resp_code := rcode;
                         resp_secret := secret demo_options |})
  /\ 0 = 0
  /\ 14 = Z.of_nat
            (List.length
               (demo_encode {| resp_packet := request_of "bob";
                               resp_code := Access_Reject;
                               resp_secret := secret demo_options |}))
  /\ port demo_from = port demo_from
  /\ address demo_from = address demo_from.
Proof.
  apply (X14_sends_only_responses_to_the_sender demo_options demo_decode
           demo_encode (datagram 1 "bob") demo_from []).
  vm_compute. do 2 right. left. reflexivity.
Defined.
